(** * Igris persistence and hydration: a shallow embedding

    The development follows the TypeScript sources of the persistence
    subsystem:

    - [utils/functions.ts]: [isPromise], [isArray], [isObject],
      [shallowMerge], [deepMerge], [UninitializedStorage],
      [createJSONStorage], [runImmediately];
    - [core/master.ts]: the observable container [IgrisMaster];
    - [core/state.ts]: the constructor of [IgrisState];
    - [persistence/handler.ts]: [PersistHandler];
    - [persistence/hydration.tsx]: [setupHydrator] and the [Hydrator] gate.

    JavaScript objects are finite maps, mutable objects live in an explicit
    [World] that is threaded through a state monad, and every closure that
    the sources hand to the runtime (listeners, timer callbacks, the bodies
    of [async] functions after their [await]) is a constructor of a
    first-order data type that the event loop interprets. A listener of
    the application is first taken to look at the state it is given and to
    return; the operations for listeners that call back into the library
    come after the event loop. Timers follow the host: a delay below 1 or
    above [2^31 - 1] milliseconds is a delay of 1 millisecond. *)

From stdpp Require Import base list strings option gmap pretty.
From Stdlib Require Import ZArith Lia.

Set Default Proof Using "Type".
#[local] Set Warnings "-register-all".

(* ================================================================= *)
(** ** JavaScript values *)

(** Values that travel through the containers and the storage layer.
    Numbers are integers here: the persistence code only stores, compares
    and forwards them. *)
Inductive JS :=
  | JUndefined
  | JNull
  | JBool (b : bool)
  | JNum (n : Z)
  | JStr (s : string)
  | JArr (items : list JS)
  | JObj (props : gmap string JS).

(** [!data]: the falsy values. *)
Definition falsy (v : JS) : bool :=
  match v with
  | JUndefined | JNull => true
  | JBool b => negb b
  | JNum n => (n =? 0)%Z
  | JStr s => match s with EmptyString => true | _ => false end
  | JArr _ | JObj _ => false
  end.

(** [x ?? null]. *)
Definition nullish_to_null (v : JS) : JS :=
  match v with JUndefined => JNull | _ => v end.

(** Reading a data property such as [value] or [version]; primitives and
    arrays do not carry such properties. *)
Definition get_prop (k : string) (v : JS) : JS :=
  match v with
  | JObj m => default JUndefined (m !! k)
  | _ => JUndefined
  end.

(** The own enumerable properties that an object spread [{...v}] copies. *)
Definition own_props (v : JS) : gmap string JS :=
  match v with
  | JObj m => m
  | JArr l => list_to_map (imap (fun i x => (pretty i, x)) l)
  | JStr s =>
      list_to_map
        (imap (fun i c => (pretty i, JStr (String c EmptyString)))
              (String.list_ascii_of_string s))
  | _ => ∅
  end.

(** [{ ...prev, ...cur }]: later spreads win. *)
Definition spread2 (prev cur : JS) : JS :=
  JObj (own_props cur ∪ own_props prev).

(** [utils/functions.ts]
    [shallowMerge = (...objects) =>
       objects.reduce((prev, cur) => ({ ...prev, ...cur }), {})]. *)
Definition shallowMerge (objects : list JS) : JS :=
  fold_left spread2 objects (JObj ∅).

(** [config.version !== version], with [config.version : number | undefined]
    and [version] whatever the stored record carries. *)
Definition version_differs (configured : option Z) (stored : JS) : bool :=
  match configured, stored with
  | None, JUndefined => false
  | Some n, JNum m => negb (n =? m)%Z
  | _, _ => true
  end.

(** [parseJSON] of [createJSONStorage]: [null] stays [null], a string is
    parsed, and a parse error yields [null]. [parse] is the host's
    [JSON.parse], [None] being a thrown [SyntaxError]. *)
Definition parseJSON (parse : string -> option JS) (str : option string) : JS :=
  match str with
  | None => JNull
  | Some s =>
      match parse s with
      | Some v => v
      | None => JNull
      end
  end.

(** What a backend hands out, [string | null], as a value and back. *)
Definition of_raw (r : option string) : JS :=
  match r with Some s => JStr s | None => JNull end.

Definition to_raw (v : JS) : option string :=
  match v with JStr s => Some s | _ => None end.

(* ================================================================= *)
(** ** Promises, backends and configuration *)

Definition pid := nat.

Inductive Outcome :=
  | Fulfilled (v : JS)
  | Rejected.

(** The result of a backend call: a plain value, or a promise that the
    environment settles later ([None]: it rejects). *)
Inductive Reply (A : Type) :=
  | Now (a : A)
  | Later (o : option A).
Arguments Now {A} a.
Arguments Later {A} o.

(** [ActualStorage]: the caller-supplied key/value backend. *)
Record ActualStorage := {
  backend_getItem : string -> Reply (option string);
  backend_setItem : string -> string -> Reply unit;
  backend_removeItem : string -> Reply unit
}.

(** [StorageProvider = ActualStorage | (() => ActualStorage)]; a factory
    that throws is [StorageFactory None]. *)
Inductive StorageProvider :=
  | StorageInstance (b : ActualStorage)
  | StorageFactory (f : option ActualStorage).

(** [PersistStorage]: the sentinel, or the JSON adapter built by
    [createJSONStorage] around a backend. *)
Inductive PersistStorage :=
  | UninitializedStorage
  | jsonPersistStorage (storageInstance : ActualStorage).

(** A key of an options object whose default the object spread of the
    handler's constructor can override: the key is absent, or it is there
    and holds [undefined], or it is there with a value. *)
Inductive Field (A : Type) :=
  | Absent
  | Undefined
  | Given (a : A).

Arguments Absent {A}.
Arguments Undefined {A}.
Arguments Given {A} a.

(** [PersistConfig] as the user writes it. [None] is a key that is absent
    or holds [undefined]: nothing in the handler tells the two apart for
    [skipHydrate], [version], [migrate], [merge] and [storage]. For
    [debounceTime] the spread of the constructor does, hence a [Field].
    [opt_partial] is [None] for an absent key. *)
Record PersistOptions := {
  opt_debounceTime : Field nat;
  opt_partial : option (JS -> JS);
  opt_skipHydrate : option bool;
  opt_version : option Z;
  opt_migrate : option (JS -> JS -> JS);
  opt_merge : option (JS -> JS -> JS);
  opt_storage : option StorageProvider
}.

(** [PersistHandler.config], with the three defaults applied.
    [debounceTime] is the number that [setTimeout] is given: a
    [config.debounceTime] that is [undefined] counts as 0, as it does for
    [setTimeout]. *)
Record PersistConfig := {
  debounceTime : nat;
  partial : JS -> JS;
  skipHydrate : bool;
  version : option Z;
  migrate : option (JS -> JS -> JS);
  merge : option (JS -> JS -> JS);
  config_storage : option StorageProvider
}.

Inductive Listener :=
  | LPersist
  | LUser (id : nat).

#[global] Instance Listener_eq_dec : EqDecision Listener.
Proof. solve_decision. Defined.

(** [this.hydrate]: the method of the class, or the closure that the first
    call installs ([() => undefined] or [() => hydratePromise]). *)
Inductive HydrateMethod :=
  | HydrateOriginal
  | HydrateCached (r : option pid).

Record PersistHandler := {
  key : string;
  timeoutId : option nat;
  storage : PersistStorage;
  unsubscribeStore : option Listener;
  config : PersistConfig;
  hydrate_method : HydrateMethod
}.

(** [this.fetchCurrentState]: [initializeValue] until the first read. *)
Inductive FetchMethod :=
  | FetchInitialize
  | FetchCurrent.

Record IgrisMaster := {
  listeners : list Listener;
  currentState : JS;
  persist : option PersistHandler;
  fetchCurrentState : FetchMethod
}.

(** What remains of an [async] function after its [await], or where else a
    promise gets its value from. *)
Inductive Job :=
  | Settled
  | External (o : Outcome)
  | AwaitParse (item : pid)
  | AwaitProcess (store : nat) (storedData : pid)
  | AwaitHydrate (store : nat) (storedValue : pid)
  | AwaitVoid (result : pid)
  | PromiseAll (promises : list pid)
  | AwaitAll (all : pid)
  | ThenOpen (gate : nat) (promise : pid).

Record Cell := {
  cstate : option Outcome;
  cjob : Job
}.

Inductive TimerCallback :=
  | PersistWrite (store : nat) (data : JS).

Record Timer := {
  timer_id : nat;
  due : nat;
  callback : TimerCallback
}.

(** The [handler] prop of the gate: a function that returns nothing, or a
    promise that the environment settles. *)
Inductive CustomHandler :=
  | HandlerVoid
  | HandlerPromise (o : Outcome).

Inductive HydratorProps :=
  | PropsHandler (handler : CustomHandler)
  | PropsStores (stores : list nat) (config : option StorageProvider).

Inductive PromiseRef :=
  | RefUndefined
  | RefNull
  | RefPromise (p : pid).

Inductive Output :=
  | LoadingComponent
  | Children.

Record Hydrator := {
  props : HydratorProps;
  promiseRef : PromiseRef;
  isHydrated : bool;
  rendered : option Output
}.

Inductive Event :=
  | BackendGet (k : string)
  | BackendSet (k v : string)
  | BackendRemove (k : string)
  | LogWarn (msg : string)
  | LogError (msg : string)
  | Notified (store listener : nat) (state : JS).

(** The realm: every mutable object of the program, the promise heap, the
    timer table with its clock, the host functions, and the trace of what
    reached the outside. *)
Record World := {
  stores : list IgrisMaster;
  gates : list Hydrator;
  heap : list Cell;
  timers : list Timer;
  now : nat;
  next_timer : nat;
  trace : list Event;
  JSON_parse : string -> option JS;
  JSON_stringify : JS -> option string;
  localStorage : option ActualStorage
}.

(* ----------------------------------------------------------------- *)
(** *** Field updates *)

Definition with_stores (x : list IgrisMaster) (w : World) : World :=
  {| stores := x; gates := gates w; heap := heap w;
     timers := timers w; now := now w; next_timer := next_timer w;
     trace := trace w; JSON_parse := JSON_parse w;
     JSON_stringify := JSON_stringify w; localStorage := localStorage w |}.

Definition with_gates (x : list Hydrator) (w : World) : World :=
  {| stores := stores w; gates := x; heap := heap w;
     timers := timers w; now := now w; next_timer := next_timer w;
     trace := trace w; JSON_parse := JSON_parse w;
     JSON_stringify := JSON_stringify w; localStorage := localStorage w |}.

Definition with_heap (x : list Cell) (w : World) : World :=
  {| stores := stores w; gates := gates w; heap := x;
     timers := timers w; now := now w; next_timer := next_timer w;
     trace := trace w; JSON_parse := JSON_parse w;
     JSON_stringify := JSON_stringify w; localStorage := localStorage w |}.

Definition with_timers (x : list Timer) (w : World) : World :=
  {| stores := stores w; gates := gates w; heap := heap w;
     timers := x; now := now w; next_timer := next_timer w;
     trace := trace w; JSON_parse := JSON_parse w;
     JSON_stringify := JSON_stringify w; localStorage := localStorage w |}.

Definition with_now (x : nat) (w : World) : World :=
  {| stores := stores w; gates := gates w; heap := heap w;
     timers := timers w; now := x; next_timer := next_timer w;
     trace := trace w; JSON_parse := JSON_parse w;
     JSON_stringify := JSON_stringify w; localStorage := localStorage w |}.

Definition with_next_timer (x : nat) (w : World) : World :=
  {| stores := stores w; gates := gates w; heap := heap w;
     timers := timers w; now := now w; next_timer := x;
     trace := trace w; JSON_parse := JSON_parse w;
     JSON_stringify := JSON_stringify w; localStorage := localStorage w |}.

Definition with_trace (x : list Event) (w : World) : World :=
  {| stores := stores w; gates := gates w; heap := heap w;
     timers := timers w; now := now w; next_timer := next_timer w;
     trace := x; JSON_parse := JSON_parse w;
     JSON_stringify := JSON_stringify w; localStorage := localStorage w |}.

Definition set_currentState (v : JS) (st : IgrisMaster) : IgrisMaster :=
  {| listeners := listeners st; currentState := v; persist := persist st;
     fetchCurrentState := fetchCurrentState st |}.

Definition set_listeners (l : list Listener) (st : IgrisMaster) : IgrisMaster :=
  {| listeners := l; currentState := currentState st; persist := persist st;
     fetchCurrentState := fetchCurrentState st |}.

Definition set_fetchCurrentState (f : FetchMethod) (st : IgrisMaster) : IgrisMaster :=
  {| listeners := listeners st; currentState := currentState st;
     persist := persist st; fetchCurrentState := f |}.

Definition map_persist (f : PersistHandler -> PersistHandler) (st : IgrisMaster) : IgrisMaster :=
  {| listeners := listeners st; currentState := currentState st;
     persist := f <$> persist st; fetchCurrentState := fetchCurrentState st |}.

Definition set_timeoutId (t : option nat) (h : PersistHandler) : PersistHandler :=
  {| key := key h; timeoutId := t; storage := storage h;
     unsubscribeStore := unsubscribeStore h; config := config h;
     hydrate_method := hydrate_method h |}.

Definition set_storage (s : PersistStorage) (h : PersistHandler) : PersistHandler :=
  {| key := key h; timeoutId := timeoutId h; storage := s;
     unsubscribeStore := unsubscribeStore h; config := config h;
     hydrate_method := hydrate_method h |}.

Definition set_unsubscribeStore (u : option Listener) (h : PersistHandler) : PersistHandler :=
  {| key := key h; timeoutId := timeoutId h; storage := storage h;
     unsubscribeStore := u; config := config h;
     hydrate_method := hydrate_method h |}.

Definition set_hydrate_method (m : HydrateMethod) (h : PersistHandler) : PersistHandler :=
  {| key := key h; timeoutId := timeoutId h; storage := storage h;
     unsubscribeStore := unsubscribeStore h; config := config h;
     hydrate_method := m |}.

Definition set_config_storage (p : option StorageProvider) (h : PersistHandler) : PersistHandler :=
  {| key := key h; timeoutId := timeoutId h; storage := storage h;
     unsubscribeStore := unsubscribeStore h;
     config := {| debounceTime := debounceTime (config h);
                  partial := partial (config h);
                  skipHydrate := skipHydrate (config h);
                  version := version (config h);
                  migrate := migrate (config h);
                  merge := merge (config h);
                  config_storage := p |};
     hydrate_method := hydrate_method h |}.

Definition set_config_merge (m : option (JS -> JS -> JS)) (h : PersistHandler)
  : PersistHandler :=
  {| key := key h; timeoutId := timeoutId h; storage := storage h;
     unsubscribeStore := unsubscribeStore h;
     config := {| debounceTime := debounceTime (config h); partial := partial (config h);
                  skipHydrate := skipHydrate (config h); version := version (config h);
                  migrate := migrate (config h); merge := m;
                  config_storage := config_storage (config h) |};
     hydrate_method := hydrate_method h |}.

Definition set_promiseRef (r : PromiseRef) (g : Hydrator) : Hydrator :=
  {| props := props g; promiseRef := r; isHydrated := isHydrated g;
     rendered := rendered g |}.

Definition set_isHydrated (b : bool) (g : Hydrator) : Hydrator :=
  {| props := props g; promiseRef := promiseRef g; isHydrated := b;
     rendered := rendered g |}.

Definition set_rendered (o : option Output) (g : Hydrator) : Hydrator :=
  {| props := props g; promiseRef := promiseRef g;
     isHydrated := isHydrated g; rendered := o |}.

(* ================================================================= *)
(** ** The state monad of the realm *)

Definition M (A : Type) : Type := World -> A * World.

Definition ret {A} (a : A) : M A := fun w => (a, w).

Definition bind {A B} (m : M A) (k : A -> M B) : M B :=
  fun w => let '(a, w') := m w in k a w'.

Declare Scope M_scope.
Delimit Scope M_scope with M.
Bind Scope M_scope with M.

Notation "'let*' x ':=' m 'in' k" := (bind m (fun x => k))
  (at level 10, x name, m at level 100, k at level 200) : M_scope.
Notation "m '>>>' k" := (bind m (fun _ => k))
  (at level 100, k at level 200, right associativity) : M_scope.

Open Scope M_scope.

Definition gets {A} (f : World -> A) : M A := fun w => (f w, w).

Definition modify (f : World -> World) : M unit := fun w => (tt, f w).

(** Appends an event to the trace. *)
Definition emit (e : Event) : M unit :=
  modify (fun w => with_trace (trace w ++ [e]) w).

(** [new Promise] / the promise of an [async] call: a fresh heap cell. *)
Definition alloc (c : Cell) : M pid :=
  fun w => (length (heap w), with_heap (heap w ++ [c]) w).

Definition pending (j : Job) : Cell := {| cstate := None; cjob := j |}.

Definition settled (o : Outcome) : Cell := {| cstate := Some o; cjob := Settled |}.

(** A promise handed out by the outside, to be settled with [o]. *)
Definition external {A} (inj : A -> JS) (o : option A) : Cell :=
  pending (External match o with Some a => Fulfilled (inj a) | None => Rejected end).

Definition settle (p : pid) (o : Outcome) : M unit :=
  modify (fun w =>
    with_heap (alter (fun c => {| cstate := Some o; cjob := cjob c |}) p (heap w)) w).

Definition outcome (p : pid) : M (option Outcome) :=
  gets (fun w => c ← heap w !! p; cstate c).

Definition the_store (s : nat) : M (option IgrisMaster) :=
  gets (fun w => stores w !! s).

Definition the_handler (s : nat) : M (option PersistHandler) :=
  gets (fun w => st ← stores w !! s; persist st).

Definition the_gate (g : nat) : M (option Hydrator) :=
  gets (fun w => gates w !! g).

Definition modify_store (s : nat) (f : IgrisMaster -> IgrisMaster) : M unit :=
  modify (fun w => with_stores (alter f s (stores w)) w).

Definition modify_handler (s : nat) (f : PersistHandler -> PersistHandler) : M unit :=
  modify_store s (map_persist f).

Definition modify_gate (g : nat) (f : Hydrator -> Hydrator) : M unit :=
  modify (fun w => with_gates (alter f g (gates w)) w).

(** [for (const x of l) body(x)]. *)
Fixpoint forEach {A} (l : list A) (body : A -> M unit) : M unit :=
  match l with
  | [] => ret tt
  | x :: rest => body x >>> forEach rest body
  end.

(* ================================================================= *)
(** ** [utils/functions.ts] *)

(** [isPromise(value) = value instanceof Promise]; a call that may return a
    promise returns [inr p], anything else is [inl v]. *)
Definition isPromise {A} (value : A + pid) : bool :=
  match value with inr _ => true | inl _ => false end.

(** [runImmediately = (callback) => callback()]. *)
Definition runImmediately {A} (callback : M A) : M A := callback.

(** [UninitializedStorage.logWarningAndReturn]. *)
Definition logWarningAndReturn {A} (source : string) (defaultValue : A) : M A :=
  emit (LogWarn ("Attempted to access storage before initialization, method : " +:+ source)) >>>
  ret defaultValue.

(** [createJSONStorage]: resolves the provider once; a throwing factory
    gives [undefined]. *)
Definition createJSONStorage (storageProvider : StorageProvider) : option PersistStorage :=
  let storageInstance :=
    match storageProvider with
    | StorageFactory f => f
    | StorageInstance b => Some b
    end in
  match storageInstance with
  | None => None
  | Some b => Some (jsonPersistStorage b)
  end.

(** [jsonPersistStorage.getItem]. *)
Definition jsonPersistStorage_getItem (storageInstance : ActualStorage) (k : string)
  : M (JS + pid) :=
  emit (BackendGet k) >>>
  match backend_getItem storageInstance k with
  | Now item =>
      let* parse := gets JSON_parse in
      ret (inl (parseJSON parse item))
  | Later o =>
      let* item := alloc (external of_raw o) in
      let* p := runImmediately (alloc (pending (AwaitParse item))) in
      ret (inr p)
  end.

(** [jsonPersistStorage.setItem], an [async] function: it always returns a
    promise, rejected when [JSON.stringify] throws. *)
Definition jsonPersistStorage_setItem (storageInstance : ActualStorage)
    (k : string) (value : JS) : M pid :=
  let* stringify := gets JSON_stringify in
  match stringify value with
  | None => alloc (settled Rejected)
  | Some stringifiedValue =>
      emit (BackendSet k stringifiedValue) >>>
      match backend_setItem storageInstance k stringifiedValue with
      | Now _ => alloc (settled (Fulfilled JUndefined))
      | Later o =>
          let* setItemResult := alloc (external (fun _ => JUndefined) o) in
          alloc (pending (AwaitVoid setItemResult))
      end
  end.

(** [jsonPersistStorage.removeItem], an [async] function as well. *)
Definition jsonPersistStorage_removeItem (storageInstance : ActualStorage)
    (k : string) : M pid :=
  emit (BackendRemove k) >>>
  match backend_removeItem storageInstance k with
  | Now _ => alloc (settled (Fulfilled JUndefined))
  | Later o =>
      let* removeItemResult := alloc (external (fun _ => JUndefined) o) in
      alloc (pending (AwaitVoid removeItemResult))
  end.

(** The three methods of a [PersistStorage]. *)
Definition PersistStorage_getItem (st : PersistStorage) (k : string) : M (JS + pid) :=
  match st with
  | UninitializedStorage =>
      let* v := logWarningAndReturn "getItem" JNull in ret (inl v)
  | jsonPersistStorage b => jsonPersistStorage_getItem b k
  end.

Definition PersistStorage_setItem (st : PersistStorage) (k : string) (value : JS)
  : M (JS + pid) :=
  match st with
  | UninitializedStorage =>
      let* v := logWarningAndReturn "setItem" JUndefined in ret (inl v)
  | jsonPersistStorage b =>
      let* p := jsonPersistStorage_setItem b k value in ret (inr p)
  end.

Definition PersistStorage_removeItem (st : PersistStorage) (k : string) : M (JS + pid) :=
  match st with
  | UninitializedStorage =>
      let* v := logWarningAndReturn "removeItem" JUndefined in ret (inl v)
  | jsonPersistStorage b =>
      let* p := jsonPersistStorage_removeItem b k in ret (inr p)
  end.

(** [isArray = Array.isArray]. *)
Definition isArray (value : JS) : bool :=
  match value with JArr _ => true | _ => false end.

(** [typeof item === "object"], which holds of [null] too. *)
Definition typeof_object (item : JS) : bool :=
  match item with JNull | JArr _ | JObj _ => true | _ => false end.

(** [isObject = (item) =>
      (item && typeof item === "object" && !Array.isArray(item)) || false]. *)
Definition isObject (item : JS) : bool :=
  (negb (falsy item) && typeof_object item && negb (isArray item)) || false.

(** The inner [merge] of [deepMerge], on plain objects: for every key of
    [source], two arrays are concatenated, two objects are merged into a
    copy of the one of [target], and anything else is overwritten by the
    value of [source]. The result is what [target], which the code updates
    in place and returns, holds afterwards. *)
Fixpoint deepMerge_merge (target : gmap string JS) (source : JS) {struct source}
  : gmap string JS :=
  match source with
  | JObj keys =>
      map_fold (fun key sourceValue target =>
        match target !! key, sourceValue with
        | Some (JArr targetValue), JArr sourceItems =>
            <[key := JArr (targetValue ++ sourceItems)]> target
        | Some (JObj targetValue), JObj _ =>
            <[key := JObj (deepMerge_merge targetValue sourceValue)]> target
        | _, _ => <[key := sourceValue]> target
        end) target keys
  | _ => target
  end.

(** [deepMerge = (target, ...sources) =>
      sources.reduce((prev, cur) => merge(prev, cur), target)], with plain
    objects for [target] and the [sources]. *)
Definition deepMerge (target : gmap string JS) (sources : list (gmap string JS))
  : gmap string JS :=
  fold_left (fun prev cur => deepMerge_merge prev (JObj cur)) sources target.

(* ================================================================= *)
(** ** Timers *)

(** The longest delay that the host keeps for a timer, [2^31 - 1]
    milliseconds. *)
Definition TIMEOUT_MAX : Z := 2147483647.

(** The delay that the host gives a timer: a delay that is larger than
    [TIMEOUT_MAX] or less than 1 is set to 1. *)
Definition timer_delay (delay : nat) : nat :=
  if ((1 <=? Z.of_nat delay) && (Z.of_nat delay <=? TIMEOUT_MAX))%Z then delay else 1.

(** [setTimeout(callback, delay)]. *)
Definition setTimeout (cb : TimerCallback) (delay : nat) : M nat :=
  let* id := gets next_timer in
  let* t := gets now in
  modify (fun w =>
    with_timers (timers w ++ [{| timer_id := id; due := t + timer_delay delay;
                                 callback := cb |}]) w) >>>
  modify (fun w => with_next_timer (S (next_timer w)) w) >>>
  ret id.

(** [clearTimeout(id)]; [undefined] and ids of timers that already fired
    clear nothing. *)
Definition clearTimeout (id : option nat) : M unit :=
  match id with
  | None => ret tt
  | Some i =>
      modify (fun w =>
        with_timers (List.filter (fun t => negb (timer_id t =? i)) (timers w)) w)
  end.

(* ================================================================= *)
(** ** [persistence/handler.ts] and [core/master.ts] *)

(** The constructor of [PersistHandler]:
    [{ skipHydrate: false, debounceTime: 100, partial: (data) => data,
       ...persisConfig }]. The spread copies every key of [persisConfig],
    also one that holds [undefined]. *)
Definition PersistHandler_new (storeName : string) (persisConfig : PersistOptions)
  : PersistHandler :=
  {| key := storeName;
     timeoutId := None;
     storage := UninitializedStorage;
     unsubscribeStore := None;
     config := {| skipHydrate := default false (opt_skipHydrate persisConfig);
                  debounceTime := match opt_debounceTime persisConfig with
                                  | Absent => 100
                                  | Undefined => 0
                                  | Given d => d
                                  end;
                  partial := default (fun data => data) (opt_partial persisConfig);
                  version := opt_version persisConfig;
                  migrate := opt_migrate persisConfig;
                  merge := opt_merge persisConfig;
                  config_storage := opt_storage persisConfig |};
     hydrate_method := HydrateOriginal |}.

(** The constructor of [IgrisMaster]; [config.persist] needs a non-empty
    [config.name], otherwise an error is logged and the container stays
    in memory only. *)
Definition IgrisMaster_new (initialState : JS) (name : option string)
    (persistOptions : option PersistOptions) : M nat :=
  let* p :=
    match persistOptions with
    | None => ret None
    | Some o =>
        match name with
        | Some (String c n) => ret (Some (PersistHandler_new (String c n) o))
        | _ => emit (LogError "Persist not configured") >>> ret None
        end
    end in
  let* s := gets (fun w => length (stores w)) in
  modify (fun w =>
    with_stores (stores w ++ [{| listeners := []; currentState := initialState;
                                 persist := p;
                                 fetchCurrentState := FetchInitialize |}]) w) >>>
  ret s.

(** [PersistHandler.initializeStorage]. *)
Definition initializeStorage (s : nat) : M unit :=
  let* h := the_handler s in
  match h with
  | None => ret tt
  | Some h =>
      let* ls := gets localStorage in
      let defaultStorage := StorageFactory ls in
      match createJSONStorage (default defaultStorage (config_storage (config h))) with
      | Some st => modify_handler s (set_storage st)
      | None => ret tt
      end
  end.

(** [PersistHandler.setItem]: cancel the pending write, schedule a new one. *)
Definition PersistHandler_setItem (s : nat) (data : JS) : M unit :=
  let* h := the_handler s in
  match h with
  | None => ret tt
  | Some h =>
      clearTimeout (timeoutId h) >>>
      let* id := setTimeout (PersistWrite s data) (debounceTime (config h)) in
      modify_handler s (set_timeoutId (Some id))
  end.

(** The body of the callback that [setItem] hands to [setTimeout]. The
    adapters of this file never throw synchronously, so the [catch] branch
    has nothing to catch. *)
Definition persistWrite (s : nat) (data : JS) : M unit :=
  let* h := the_handler s in
  match h with
  | None => ret tt
  | Some h =>
      let version_ := version (config h) in
      let partialData := partial (config h) data in
      PersistStorage_setItem (storage h) (key h)
        (JObj (<["value" := partialData]>
               (<["version" := match version_ with Some n => JNum n | None => JUndefined end]> ∅))) >>>
      ret tt
  end.

(** [IgrisMaster.subscribe]: [listeners] is a [Set], so a listener that is
    already there is not added twice. *)
Definition IgrisMaster_subscribe (s : nat) (listener : Listener) : M unit :=
  modify_store s (fun st =>
    if decide (listener ∈ listeners st) then st
    else set_listeners (listeners st ++ [listener]) st).

(** The closure that [subscribe] returns. *)
Definition IgrisMaster_unsubscribe (s : nat) (listener : Listener) : M unit :=
  modify_store s (fun st =>
    set_listeners (List.filter (fun l => negb (bool_decide (l = listener))) (listeners st)) st).

(** Calling one listener with the state. A listener of the application is
    taken to look at the state and to call nothing back: what it is given
    is recorded in the trace, and nothing else happens. Listeners that call
    into the library while they run are those of [call_listener_cb] below.
    The listener of the handler is [(data) => this.setItem(data)]. *)
Definition call_listener (s : nat) (state : JS) (l : Listener) : M unit :=
  match l with
  | LUser id => emit (Notified s id state)
  | LPersist => PersistHandler_setItem s state
  end.

(** [this.listeners.forEach((listener) => listener(this.currentState))]. *)
Definition notify (s : nat) : M unit :=
  let* st := the_store s in
  match st with
  | None => ret tt
  | Some st => forEach (listeners st) (call_listener s (currentState st))
  end.

(** [IgrisMaster.set] with a plain value. *)
Definition IgrisMaster_set_value (s : nat) (v : JS) : M unit :=
  modify_store s (set_currentState v) >>>
  notify s.

(** [PersistHandler.subscribeStore]. *)
Definition subscribeStore (s : nat) : M unit :=
  let* h := the_handler s in
  match h with
  | None => ret tt
  | Some h =>
      match unsubscribeStore h with
      | Some l => IgrisMaster_unsubscribe s l
      | None => ret tt
      end >>>
      IgrisMaster_subscribe s LPersist >>>
      modify_handler s (set_unsubscribeStore (Some LPersist))
  end.

(** [PersistHandler.processStoredData]; [this.store.currentState] and
    [this.config] are the first two arguments. *)
Definition processStoredData (currentState_ : JS) (config_ : PersistConfig) (data : JS) : JS :=
  if falsy data then currentState_
  else
    let value := get_prop "value" data in
    let version_ := get_prop "version" data in
    let processedData :=
      match version_differs (version config_) version_, migrate config_ with
      | true, Some migrate_ => migrate_ value version_
      | _, _ => value
      end in
    let mergeFunction :=
      default (fun a b => shallowMerge [a; b]) (merge config_) in
    mergeFunction currentState_ processedData.

(** [PersistHandler.getItem]. *)
Definition PersistHandler_getItem (s : nat) : M (JS + pid) :=
  let* h := the_handler s in
  match h with
  | None => ret (inl JUndefined)
  | Some h =>
      let* storedData := PersistStorage_getItem (storage h) (key h) in
      match storedData with
      | inr storedData =>
          let* p := runImmediately (alloc (pending (AwaitProcess s storedData))) in
          ret (inr p)
      | inl storedData =>
          let* st := the_store s in
          match st with
          | None => ret (inl JUndefined)
          | Some st =>
              ret (inl (processStoredData (currentState st) (config h)
                          (nullish_to_null storedData)))
          end
      end
  end.

(** [this.hydrate()] once the first call has replaced the method. *)
Definition hydrate_cached (s : nat) : M (option pid) :=
  let* h := the_handler s in
  match h with
  | Some {| hydrate_method := HydrateCached r |} => ret r
  | _ => ret None
  end.

(** [PersistHandler.hydrate]. *)
Definition hydrate (s : nat) : M (option pid) :=
  let* h := the_handler s in
  match h with
  | None => ret None
  | Some h =>
      match hydrate_method h with
      | HydrateCached r => ret r
      | HydrateOriginal =>
          initializeStorage s >>>
          let* storedValue := PersistHandler_getItem s in
          match storedValue with
          | inr storedValue =>
              let* hydratePromise :=
                runImmediately (alloc (pending (AwaitHydrate s storedValue))) in
              modify_handler s (set_hydrate_method (HydrateCached (Some hydratePromise)))
          | inl storedValue =>
              IgrisMaster_set_value s storedValue >>>
              modify_handler s (set_hydrate_method (HydrateCached None))
          end >>>
          subscribeStore s >>>
          hydrate_cached s
      end
  end.

(** [IgrisMaster.initializeValue]. *)
Definition initializeValue (s : nat) : M JS :=
  let* st := the_store s in
  match st with
  | Some {| persist := Some h |} =>
      if skipHydrate (config h) then ret tt else (hydrate s >>> ret tt)
  | _ => ret tt
  end >>>
  modify_store s (set_fetchCurrentState FetchCurrent) >>>
  let* st := the_store s in
  ret (from_option currentState JUndefined st).

(** [IgrisMaster.get]. *)
Definition IgrisMaster_get (s : nat) : M JS :=
  let* st := the_store s in
  match st with
  | None => ret JUndefined
  | Some st =>
      match fetchCurrentState st with
      | FetchInitialize => initializeValue s
      | FetchCurrent => ret (currentState st)
      end
  end.

(** [React.SetStateAction<T>]. *)
Inductive SetStateAction :=
  | Value (v : JS)
  | Updater (f : JS -> JS).

(** [IgrisMaster.set]. *)
Definition IgrisMaster_set (s : nat) (updateAction : SetStateAction) : M unit :=
  match updateAction with
  | Updater f =>
      let* prev := IgrisMaster_get s in
      IgrisMaster_set_value s (f prev)
  | Value v => IgrisMaster_set_value s v
  end.

(* ================================================================= *)
(** ** [core/state.ts] *)

(** [core/state.ts]: the [merge] that the constructor of [IgrisState]
    installs,
    [(currentState, storeState) =>
       isObject(storeState) && isObject(currentState)
         ? shallowMerge(currentState, storeState) : storeState]. *)
Definition IgrisState_merge (currentState_ storeState : JS) : JS :=
  if isObject storeState && isObject currentState_
  then shallowMerge [currentState_; storeState]
  else storeState.

(** The constructor of [IgrisState]: the one of [IgrisMaster], then
    [if (this.persist?.config && !this.persist.config.merge)
       this.persist.config.merge = ...]. *)
Definition IgrisState_new (initialState : JS) (name : option string)
    (persistOptions : option PersistOptions) : M nat :=
  let* s := IgrisMaster_new initialState name persistOptions in
  let* h := the_handler s in
  match h with
  | Some h =>
      match merge (config h) with
      | None => modify_handler s (set_config_merge (Some IgrisState_merge))
      | Some _ => ret tt
      end
  | None => ret tt
  end >>>
  ret s.

(* ================================================================= *)
(** ** [persistence/hydration.tsx] *)

(** The [for ... of] loop of [setupHydrator]: containers without a handler
    are skipped, the fallback storage is injected where the handler has
    none, and the promises among the results are collected. *)
Fixpoint setupHydrator_loop (stores_ : list nat) (config_ : option StorageProvider)
  : M (list pid) :=
  match stores_ with
  | [] => ret []
  | store :: rest =>
      let* h := the_handler store in
      match h with
      | None => setupHydrator_loop rest config_
      | Some h =>
          match config_storage (config h), config_ with
          | None, Some fallback => modify_handler store (set_config_storage (Some fallback))
          | _, _ => ret tt
          end >>>
          let* hydrationPromise := hydrate store in
          let* hydrationPromises := setupHydrator_loop rest config_ in
          ret (match hydrationPromise with
               | Some p => p :: hydrationPromises
               | None => hydrationPromises
               end)
      end
  end.

(** The function that [setupHydrator(stores, config)] returns. *)
Definition setupHydrator (stores_ : list nat) (config_ : option StorageProvider)
  : M (option pid) :=
  let* hydrationPromises := setupHydrator_loop stores_ config_ in
  match hydrationPromises with
  | [] => ret None
  | _ =>
      let* all := alloc (pending (PromiseAll hydrationPromises)) in
      let* p := runImmediately (alloc (pending (AwaitAll all))) in
      ret (Some p)
  end.

(** [getSnapshot] of the [Hydrator]. *)
Definition getSnapshot (g : nat) : M bool :=
  let* gate := the_gate g in
  match gate with
  | None => ret false
  | Some gate =>
      match promiseRef gate with
      | RefUndefined =>
          let* current :=
            match props gate with
            | PropsHandler HandlerVoid => ret RefNull
            | PropsHandler (HandlerPromise o) =>
                let* p := alloc (pending (External o)) in ret (RefPromise p)
            | PropsStores stores_ config_ =>
                let* r := runImmediately (setupHydrator stores_ config_) in
                ret (match r with Some p => RefPromise p | None => RefNull end)
            end in
          modify_gate g (set_promiseRef current) >>>
          match current with
          | RefPromise _ => ret tt
          | _ => modify_gate g (set_isHydrated true)
          end
      | _ => ret tt
      end >>>
      let* gate := the_gate g in
      ret (from_option isHydrated false gate)
  end.

(** [Promise.resolve(promiseRef.current)]: a promise is returned as it is,
    anything else is wrapped in a fulfilled one. *)
Definition Promise_resolve (r : PromiseRef) : M pid :=
  match r with
  | RefPromise p => ret p
  | RefNull => alloc (settled (Fulfilled JNull))
  | RefUndefined => alloc (settled (Fulfilled JUndefined))
  end.

(** [subscribe] of the [Hydrator]; the closure it returns does nothing. *)
Definition subscribe (g : nat) : M unit :=
  let* gate := the_gate g in
  match gate with
  | None => ret tt
  | Some gate =>
      if isHydrated gate then ret tt
      else
        let* p := Promise_resolve (promiseRef gate) in
        alloc (pending (ThenOpen g p)) >>> ret tt
  end.

(** One evaluation of the component: [useSyncExternalStoreWithSelector]
    reads the snapshot, and the body picks what to show. *)
Definition render (g : nat) : M Output :=
  let* isHydrated_ := getSnapshot g in
  let out := if isHydrated_ then Children else LoadingComponent in
  modify_gate g (set_rendered (Some out)) >>>
  ret out.

(** [onStoreChange]: the external-store hook evaluates the component
    again. *)
Definition onStoreChange (g : nat) : M unit :=
  render g >>> ret tt.

(** The subscribe effect runs after the first evaluation only. *)
Definition mount (g : nat) : M unit :=
  let* gate := the_gate g in
  match gate with
  | Some {| rendered := Some _ |} => subscribe g
  | _ => ret tt
  end.

(* ================================================================= *)
(** ** The event loop *)

(** The outcomes of the inputs of [Promise.all]: rejected as soon as one
    input is, fulfilled when all are. *)
Fixpoint all_outcome (os : list (option Outcome)) : option Outcome :=
  match os with
  | [] => Some (Fulfilled (JArr []))
  | o :: rest =>
      match o, all_outcome rest with
      | Some Rejected, _ => Some Rejected
      | _, Some Rejected => Some Rejected
      | Some (Fulfilled v), Some (Fulfilled (JArr vs)) => Some (Fulfilled (JArr (v :: vs)))
      | _, _ => None
      end
  end.

(** Resumes the job of promise [p], when what it waits for has settled. *)
Definition resume (p : pid) (j : Job) : M unit :=
  match j with
  | Settled => ret tt
  | External o => settle p o
  | AwaitParse item =>
      let* o := outcome item in
      match o with
      | None => ret tt
      | Some (Fulfilled v) =>
          let* parse := gets JSON_parse in
          settle p (Fulfilled (parseJSON parse (to_raw v)))
      | Some Rejected => settle p Rejected
      end
  | AwaitProcess s storedData =>
      let* o := outcome storedData in
      match o with
      | None => ret tt
      | Some (Fulfilled d) =>
          let* st := the_store s in
          let* h := the_handler s in
          match st, h with
          | Some st, Some h =>
              settle p (Fulfilled (processStoredData (currentState st) (config h) d))
          | _, _ => settle p (Fulfilled JUndefined)
          end
      | Some Rejected =>
          emit (LogError "Error retrieving stored data:") >>>
          settle p (Fulfilled JNull)
      end
  | AwaitHydrate s storedValue =>
      let* o := outcome storedValue in
      match o with
      | None => ret tt
      | Some (Fulfilled resolvedValue) =>
          IgrisMaster_set_value s resolvedValue >>>
          settle p (Fulfilled JUndefined)
      | Some Rejected => settle p Rejected
      end
  | AwaitVoid result =>
      let* o := outcome result in
      match o with
      | None => ret tt
      | Some (Fulfilled _) => settle p (Fulfilled JUndefined)
      | Some Rejected => settle p Rejected
      end
  | PromiseAll promises =>
      let* os := gets (fun w => map (fun q => c ← heap w !! q; cstate c) promises) in
      match all_outcome os with
      | None => ret tt
      | Some o => settle p o
      end
  | AwaitAll all =>
      let* o := outcome all in
      match o with
      | None => ret tt
      | Some (Fulfilled _) => settle p (Fulfilled JUndefined)
      | Some Rejected => settle p Rejected
      end
  | ThenOpen g promise =>
      let* o := outcome promise in
      match o with
      | None => ret tt
      | Some (Fulfilled _) =>
          modify_gate g (set_isHydrated true) >>>
          onStoreChange g >>>
          settle p (Fulfilled JUndefined)
      | Some Rejected => settle p Rejected
      end
  end.

(** One job of the event loop: promise [p], if it is still pending. *)
Definition run_job (p : pid) : M unit :=
  let* c := gets (fun w => heap w !! p) in
  match c with
  | Some {| cstate := None; cjob := j |} => resume p j
  | _ => ret tt
  end.

Definition run_callback (t : Timer) : M unit :=
  match callback t with
  | PersistWrite s data => persistWrite s data
  end.

(** Fires the timers that are due, oldest first. *)
Definition fire_due : M unit :=
  let* t := gets now in
  let* ts := gets timers in
  modify (fun w => with_timers (List.filter (fun x => negb (due x <=? t)) (timers w)) w) >>>
  forEach (List.filter (fun x => due x <=? t) ts) run_callback.

(** One millisecond: what is due fires, the clock advances, and what has
    become due fires. *)
Definition tick : M unit :=
  fire_due >>> modify (fun w => with_now (S (now w)) w) >>> fire_due.

Fixpoint advance (ms : nat) : M unit :=
  match ms with
  | 0 => ret tt
  | S n => tick >>> advance n
  end.

(** What can happen to a realm: the event loop runs a job or lets time
    pass, or the application calls into the library. *)
Inductive Action :=
  | ARun (p : pid)
  | ATick
  | AHydrate (s : nat)
  | AGet (s : nat)
  | ASet (s : nat) (a : SetStateAction)
  | ASubscribe (s id : nat)
  | AUnsubscribe (s id : nat)
  | ASetItem (s : nat) (data : JS)
  | ASetupHydrator (stores_ : list nat) (config_ : option StorageProvider)
  | ARender (g : nat)
  | AMount (g : nat).

Definition step (a : Action) : M unit :=
  match a with
  | ARun p => run_job p
  | ATick => tick
  | AHydrate s => hydrate s >>> ret tt
  | AGet s => IgrisMaster_get s >>> ret tt
  | ASet s a => IgrisMaster_set s a
  | ASubscribe s id => IgrisMaster_subscribe s (LUser id)
  | AUnsubscribe s id => IgrisMaster_unsubscribe s (LUser id)
  | ASetItem s data => PersistHandler_setItem s data
  | ASetupHydrator stores_ config_ => setupHydrator stores_ config_ >>> ret tt
  | ARender g => render g >>> ret tt
  | AMount g => mount g
  end.

Definition exec {A} (m : M A) (w : World) : World := (m w).2.

Definition eval {A} (m : M A) (w : World) : A := (m w).1.

Definition run (acts : list Action) (w : World) : World :=
  fold_left (fun w a => exec (step a) w) acts w.

Arguments run : simpl never.

(* ================================================================= *)
(** ** Listeners that call back

    In the operations above a listener of the application looks at the
    state it is given and returns. A listener may also call into the
    library while it runs. The operations below are the ones of
    [core/master.ts] and [PersistHandler.hydrate] once more, for listeners
    whose body is a list of such calls; a call that throws ends the
    operations that made it, as an exception does. They cover the calls
    that the application makes; the jobs of the event loop notify the
    listeners as above. *)

(** What a listener of the application does with the library while it
    runs: it reads a container, changes one, or hydrates one. *)
Inductive Call :=
  | CallGet (s : nat)
  | CallSet (s : nat) (updateAction : SetStateAction)
  | CallHydrate (s : nat).

(** Sequencing of calls that may throw: [None] is the exception, which
    ends whatever was to follow. *)
Definition bind_ok {A B} (m : M (option A)) (k : A -> M (option B)) : M (option B) :=
  let* r := m in
  match r with
  | Some a => k a
  | None => ret None
  end.

(** The body of a listener: its calls, one after the other. *)
Fixpoint calls (invoke : Call -> M (option unit)) (body : list Call) : M (option unit) :=
  match body with
  | [] => ret (Some tt)
  | c :: body => bind_ok (invoke c) (fun _ => calls invoke body)
  end.

(** Calling one listener with the state, [user id] being what the listener
    [id] of the application does once it has seen the state. *)
Definition call_listener_cb (user : nat -> M (option unit)) (s : nat) (state : JS)
    (l : Listener) : M (option unit) :=
  match l with
  | LUser id => emit (Notified s id state) >>> user id
  | LPersist => PersistHandler_setItem s state >>> ret (Some tt)
  end.

(** [this.listeners.forEach((listener) => listener(this.currentState))],
    from the listener at position [i] on. [listeners] is a [Set]: its
    [forEach] also calls the listeners added while it runs, and every
    listener is given the state of the moment it is called. While the
    listeners are called, the set changes in one way only: the handler
    subscribes, once. So the position tells which listeners are still to
    be called, and [fuel] one above the number of listeners is enough. *)
Fixpoint notify_cb (user : nat -> M (option unit)) (s : nat) (fuel i : nat)
  : M (option unit) :=
  match fuel with
  | 0 => ret (Some tt)
  | S fuel =>
      let* st := the_store s in
      match st with
      | None => ret (Some tt)
      | Some st =>
          match listeners st !! i with
          | None => ret (Some tt)
          | Some l =>
              bind_ok (call_listener_cb user s (currentState st) l)
                (fun _ => notify_cb user s fuel (S i))
          end
      end
  end.

(** [IgrisMaster.set] with a plain value. *)
Definition IgrisMaster_set_value_cb (user : nat -> M (option unit)) (s : nat) (v : JS)
  : M (option unit) :=
  modify_store s (set_currentState v) >>>
  let* st := the_store s in
  notify_cb user s (S (length (from_option listeners [] st))) 0.

(** [PersistHandler.hydrate]: when [this.store.set] throws, the method is
    not replaced and the handler does not subscribe. *)
Definition hydrate_cb (user : nat -> M (option unit)) (s : nat) : M (option (option pid)) :=
  let* h := the_handler s in
  match h with
  | None => ret (Some None)
  | Some h =>
      match hydrate_method h with
      | HydrateCached r => ret (Some r)
      | HydrateOriginal =>
          initializeStorage s >>>
          let* storedValue := PersistHandler_getItem s in
          bind_ok
            match storedValue with
            | inr storedValue =>
                let* hydratePromise :=
                  runImmediately (alloc (pending (AwaitHydrate s storedValue))) in
                modify_handler s (set_hydrate_method (HydrateCached (Some hydratePromise))) >>>
                ret (Some tt)
            | inl storedValue =>
                bind_ok (IgrisMaster_set_value_cb user s storedValue) (fun _ =>
                modify_handler s (set_hydrate_method (HydrateCached None)) >>>
                ret (Some tt))
            end
            (fun _ =>
               subscribeStore s >>>
               let* r := hydrate_cached s in
               ret (Some r))
      end
  end.

(** [IgrisMaster.initializeValue]: when [hydrate] throws,
    [fetchCurrentState] is not replaced. *)
Definition initializeValue_cb (user : nat -> M (option unit)) (s : nat) : M (option JS) :=
  let* st := the_store s in
  bind_ok
    match st with
    | Some {| persist := Some h |} =>
        if skipHydrate (config h) then ret (Some tt)
        else bind_ok (hydrate_cb user s) (fun _ => ret (Some tt))
    | _ => ret (Some tt)
    end
    (fun _ =>
       modify_store s (set_fetchCurrentState FetchCurrent) >>>
       let* st := the_store s in
       ret (Some (from_option currentState JUndefined st))).

(** [IgrisMaster.get]. *)
Definition IgrisMaster_get_cb (user : nat -> M (option unit)) (s : nat) : M (option JS) :=
  let* st := the_store s in
  match st with
  | None => ret (Some JUndefined)
  | Some st =>
      match fetchCurrentState st with
      | FetchInitialize => initializeValue_cb user s
      | FetchCurrent => ret (Some (currentState st))
      end
  end.

(** [IgrisMaster.set]. *)
Definition IgrisMaster_set_cb (user : nat -> M (option unit)) (s : nat)
    (updateAction : SetStateAction) : M (option unit) :=
  match updateAction with
  | Updater f =>
      bind_ok (IgrisMaster_get_cb user s) (fun prev =>
      IgrisMaster_set_value_cb user s (f prev))
  | Value v => IgrisMaster_set_value_cb user s v
  end.

(** One call made by a listener, the listener [id] of the application
    having the body [behaviour id]. [depth] is the number of such calls,
    one inside the other, that the stack still takes: with none left the
    call throws [RangeError]. *)
Fixpoint invoke (behaviour : nat -> list Call) (depth : nat) (c : Call) : M (option unit) :=
  match depth with
  | 0 => ret None
  | S depth =>
      let user := fun id => calls (invoke behaviour depth) (behaviour id) in
      match c with
      | CallGet s => bind_ok (IgrisMaster_get_cb user s) (fun _ => ret (Some tt))
      | CallSet s updateAction => IgrisMaster_set_cb user s updateAction
      | CallHydrate s => bind_ok (hydrate_cb user s) (fun _ => ret (Some tt))
      end
  end.

(** What the listeners of the application do when the application itself
    calls into the library, with a stack that takes [depth] calls made by
    listeners. *)
Definition listener (behaviour : nat -> list Call) (depth : nat) (id : nat)
  : M (option unit) :=
  calls (invoke behaviour depth) (behaviour id).

(** What can happen to a realm whose listeners call back: what can happen
    to any realm, where the listeners that are called only look at the
    state, or a call of the application whose listeners have the bodies
    [behaviour]. *)
Inductive Op :=
  | Act (a : Action)
  | Calling (depth : nat) (c : Call).

Definition perform (behaviour : nat -> list Call) (o : Op) : M unit :=
  match o with
  | Act a => step a
  | Calling depth c => invoke behaviour (S depth) c >>> ret tt
  end.

Definition run_ops (behaviour : nat -> list Call) (ops : list Op) (w : World) : World :=
  fold_left (fun w o => exec (perform behaviour o) w) ops w.

Arguments run_ops : simpl never.

(* ================================================================= *)
(** ** Vocabulary of the statements *)

(** The listeners of the application among [ls], in calling order. *)
Definition user_ids (ls : list Listener) : list nat :=
  omap (fun l => match l with LUser i => Some i | LPersist => None end) ls.

(** The adapter that [initializeStorage] leaves in [this.storage]. *)
Definition resolved_storage (w : World) (h : PersistHandler) : PersistStorage :=
  match createJSONStorage
          (default (StorageFactory (localStorage w)) (config_storage (config h))) with
  | Some st => st
  | None => storage h
  end.

(** A handler on which neither [hydrate] nor [subscribeStore] has run. *)
Definition pristine (st : IgrisMaster) (h : PersistHandler) : Prop :=
  persist st = Some h /\ hydrate_method h = HydrateOriginal /\
  unsubscribeStore h = None /\ LPersist ∉ listeners st.

(** The handler and the container as the first [hydrate()] leaves them. *)
Definition hydrated_handler (h : PersistHandler) (stor : PersistStorage)
    (r : option pid) : PersistHandler :=
  {| key := key h; timeoutId := timeoutId h; storage := stor;
     unsubscribeStore := Some LPersist; config := config h;
     hydrate_method := HydrateCached r |}.

Definition hydrated_store (st : IgrisMaster) (h : PersistHandler)
    (stor : PersistStorage) (r : option pid) (v : JS) : IgrisMaster :=
  {| listeners := listeners st ++ [LPersist]; currentState := v;
     persist := Some (hydrated_handler h stor r);
     fetchCurrentState := fetchCurrentState st |}.

(** The state of promise [p]. *)
Definition promise_state (w : World) (p : pid) : option Outcome :=
  c ← heap w !! p; cstate c.

Definition fulfilled (w : World) (p : pid) : Prop :=
  exists v, promise_state w p = Some (Fulfilled v).

(** The state of container [s]. *)
Definition state_of (w : World) (s : nat) : option JS :=
  currentState <$> stores w !! s.

(** Reads of the handler's storage object: a [getItem] that reaches the
    backend, or one that the uninitialized sentinel answers. *)
Definition is_storage_read (e : Event) : bool :=
  match e with
  | BackendGet _ => true
  | LogWarn msg =>
      String.eqb msg "Attempted to access storage before initialization, method : getItem"
  | _ => false
  end.

Definition is_backend_read (e : Event) : bool :=
  match e with BackendGet _ => true | _ => false end.

Definition is_backend_write (e : Event) : bool :=
  match e with BackendSet _ _ => true | _ => false end.

Definition count (p : Event -> bool) (t : list Event) : nat :=
  length (List.filter p t).

(** [n] calls of [hydrate()] in a row, with their results. *)
Fixpoint hydrate_times (n : nat) (s : nat) : M (list (option pid)) :=
  match n with
  | 0 => ret []
  | S n =>
      let* r := hydrate s in
      let* rs := hydrate_times n s in
      ret (r :: rs)
  end.

(** The timer table once [clearTimeout(id)] has run. *)
Definition cleared (id : option nat) (ts : list Timer) : list Timer :=
  match id with
  | Some i => List.filter (fun t => negb (timer_id t =? i)) ts
  | None => ts
  end.

(** The jobs of an asynchronous hydration of container [s] whose four
    promises start at [n]: the backend's promise, the adapter's, the one of
    [getItem] and the one of [hydrate]. *)
Definition hydration_jobs (n : nat) : list Action :=
  [ARun n; ARun (n + 1); ARun (n + 2); ARun (n + 3)].

(** What the first read of the handler's storage yields: the reply of the
    backend, or the [null] of the sentinel. *)
Definition read_reply (w : World) (h : PersistHandler) : Reply (option string) :=
  match resolved_storage w h with
  | UninitializedStorage => Now None
  | jsonPersistStorage b => backend_getItem b (key h)
  end.

(** A hydration of container [s] run to completion: the call of
    [hydrate()], and on the asynchronous path the jobs of its promises. *)
Definition completed_hydration (w : World) (s : nat) (h : PersistHandler) : World :=
  match read_reply w h with
  | Now _ => exec (hydrate s) w
  | Later _ => run (hydration_jobs (length (heap w))) (exec (hydrate s) w)
  end.

(** The value that the handler's [getItem] hands to [hydrate]: the
    processed record, or the [null] of its [catch] branch. *)
Definition hydration_value (w : World) (st : IgrisMaster) (h : PersistHandler) : JS :=
  match read_reply w h with
  | Now r | Later (Some r) =>
      processStoredData (currentState st) (config h) (parseJSON (JSON_parse w) r)
  | Later None => JNull
  end.

(** The notifications in a trace: container, listener and state. *)
Definition notifications (t : list Event) : list (nat * nat * JS) :=
  omap (fun e => match e with Notified s i v => Some (s, i, v) | _ => None end) t.

(** The handler of [s] has a write of [data] pending, due at [due_]. *)
Definition write_pending (w : World) (s : nat) (h0 : PersistHandler)
    (data : JS) (due_ : nat) : Prop :=
  exists st h tid,
    stores w !! s = Some st /\ persist st = Some h /\
    storage h = storage h0 /\ config h = config h0 /\ key h = key h0 /\
    timeoutId h = Some tid /\
    timers w = [{| timer_id := tid; due := due_; callback := PersistWrite s data |}].

(** The record that a write stores: [{ value: partialData, version }]. *)
Definition stored_record (cfg : PersistConfig) (data : JS) : JS :=
  JObj (<["value" := partial cfg data]>
        (<["version" := match version cfg with Some n => JNum n | None => JUndefined end]> ∅)).

(** A burst of [setItem] calls: the first one, then each further one after
    a gap of some milliseconds. *)
Definition burst (s : nat) (first : JS) (rest : list (nat * JS)) : M unit :=
  PersistHandler_setItem s first >>>
  forEach rest (fun gd => advance gd.1 >>> PersistHandler_setItem s gd.2).

Definition last_data (first : JS) (rest : list (nat * JS)) : JS :=
  List.last (map snd rest) first.

(** *** Frames and effects *)

(** A cell that is not the reaction of a gate. *)
Definition plain (c : Cell) : Prop :=
  match cjob c with ThenOpen _ _ => False | _ => True end.

(** An operation below the gates: it leaves them alone, and only adds
    plain cells to the heap. *)
Definition store_op {A} (m : M A) : Prop :=
  forall w, gates (m w).2 = gates w /\
            exists new, heap (m w).2 = heap w ++ new /\ Forall plain new.

(** An operation of gate [g]: it leaves the other gates alone, and only
    adds plain cells to the heap. *)
Definition gate_op (g : nat) {A} (m : M A) : Prop :=
  forall w, (forall g', g' <> g -> gates (m w).2 !! g' = gates w !! g') /\
            exists new, heap (m w).2 = heap w ++ new /\ Forall plain new.

(** Promise [p] has been rejected. *)
Definition rejected (w : World) (p : pid) : Prop :=
  promise_state w p = Some Rejected.

(** What must hold of the awaited promises when a job settles its own
    promise with [o]. *)
Definition justified (w : World) (j : Job) (o : Outcome) : Prop :=
  match j, o with
  | AwaitAll src, Fulfilled _ => fulfilled w src
  | AwaitAll src, Rejected => rejected w src
  | PromiseAll ps, Fulfilled _ => Forall (fulfilled w) ps
  | PromiseAll ps, Rejected => Exists (rejected w) ps
  | ThenOpen _ src, Fulfilled _ => fulfilled w src
  | ThenOpen _ src, Rejected => rejected w src
  | _, _ => True
  end.

(** What settling the promise of cell [c] with [o] does to the gates: the
    reaction of a gate, when it runs, opens that gate and evaluates the
    component again. *)
Definition gate_effect (c : Cell) (o : Outcome) (w w' : World) : Prop :=
  match cjob c, o with
  | ThenOpen g _, Fulfilled _ =>
      (forall g', g' <> g -> gates w' !! g' = gates w !! g') /\
      (forall gate, gates w !! g = Some gate -> promiseRef gate <> RefUndefined ->
         gates w' !! g = Some (set_rendered (Some Children) (set_isHydrated true gate)))
  | _, _ => gates w' = gates w
  end.

(** What running the job of promise [r] does: nothing but new plain cells,
    or [r] is settled with an outcome that its job justifies. *)
Definition job_effect (r : pid) (w w' : World) : Prop :=
  exists new, Forall plain new /\
    ((heap w' = heap w ++ new /\ gates w' = gates w) \/
     exists c o,
       heap w !! r = Some c /\ cstate c = None /\ justified w (cjob c) o /\
       heap w' = <[r := {| cstate := Some o; cjob := cjob c |}]> (heap w) ++ new /\
       gate_effect c o w w').

(** A cell that [subscribe] of gate [g] may add in [w]: a plain one, or the
    reaction of [g] to the promise that [g] has cached. *)
Definition subscription (w : World) (g : nat) (c : Cell) : Prop :=
  match cjob c with
  | ThenOpen g' src =>
      g' = g /\ cstate c = None /\
      forall gate p, gates w !! g = Some gate -> promiseRef gate = RefPromise p -> src = p
  | _ => True
  end.

(** What one action does to the heap and to the gates. *)
Definition step_effect (a : Action) (w w' : World) : Prop :=
  match a with
  | ARun r => job_effect r w w'
  | ARender g =>
      (forall g', g' <> g -> gates w' !! g' = gates w !! g') /\
      exists new, heap w' = heap w ++ new /\ Forall plain new
  | AMount g =>
      gates w' = gates w /\
      exists new, heap w' = heap w ++ new /\ Forall (subscription w g) new
  | _ =>
      gates w' = gates w /\
      exists new, heap w' = heap w ++ new /\ Forall plain new
  end.

(** What [this.hydrate] of the handler of container [s] is. *)
Definition method_of (w : World) (s : nat) : option HydrateMethod :=
  hydrate_method <$> (stores w !! s ≫= persist).

(** The handle that the replaced [hydrate] of container [s] returns. *)
Definition handle_of (w : World) (s : nat) : option pid :=
  match method_of w s with
  | Some (HydrateCached r) => r
  | _ => None
  end.

(** An operation that replaces no [hydrate] method. *)
Definition keeps_methods {A} (m : M A) : Prop :=
  forall w s, method_of (m w).2 s = method_of w s.

(** [hydrate] on a handler whose method is the original one. *)
Definition hydrate_first (s : nat) : M (option pid) :=
  initializeStorage s >>>
  let* storedValue := PersistHandler_getItem s in
  match storedValue with
  | inr storedValue =>
      let* hydratePromise :=
        runImmediately (alloc (pending (AwaitHydrate s storedValue))) in
      modify_handler s (set_hydrate_method (HydrateCached (Some hydratePromise)))
  | inl storedValue =>
      IgrisMaster_set_value s storedValue >>>
      modify_handler s (set_hydrate_method (HydrateCached None))
  end >>>
  subscribeStore s >>>
  hydrate_cached s.

(** From [w] to [w'] the [hydrate] methods have only been replaced, each at
    most once. *)
Definition methods_le (w w' : World) : Prop :=
  forall s, method_of w' s = method_of w s \/
            (method_of w s = Some HydrateOriginal /\
             exists r, method_of w' s = Some (HydrateCached r)).

(** Cell [r] holds job [j], and is settled only as [j] allows. *)
Definition tracked (w : World) (r : pid) (j : Job) : Prop :=
  exists c, heap w !! r = Some c /\ cjob c = j /\
            forall o, cstate c = Some o -> justified w j o.

(** *** The gate *)

(** A gate before its first evaluation. *)
Definition new_gate (pr : HydratorProps) : Hydrator :=
  {| props := pr; promiseRef := RefUndefined; isHydrated := false; rendered := None |}.

(** What gate [g] shows, and whether it is open. *)
Definition shown (w : World) (g : nat) : option Output :=
  gates w !! g ≫= rendered.

Definition gate_open (w : World) (g : nat) : Prop :=
  isHydrated <$> gates w !! g = Some true.

(** The hydration result that gate [g] has cached. *)
Definition cached_result (w : World) (g : nat) : option PromiseRef :=
  promiseRef <$> gates w !! g.

(** No reaction of gate [g] is in the heap: nothing has subscribed yet. *)
Definition unsubscribed (w : World) (g : nat) : Prop :=
  forall (r : pid) c src, heap w !! r = Some c -> cjob c <> ThenOpen g src.

(** The gate after the hydration function has run with result [ref]. *)
Definition evaluated (ref : PromiseRef) (gate : Hydrator) : Hydrator :=
  let hyd := match ref with RefPromise _ => isHydrated gate | _ => true end in
  {| props := props gate; promiseRef := ref; isHydrated := hyd;
     rendered := Some (if hyd then Children else LoadingComponent) |}.

(** What holds of gate [g] from its first evaluation on, [ref] being the
    hydration result it has cached. *)
Definition gate_inv (g : nat) (ref : PromiseRef) (w : World) : Prop :=
  exists gate,
    gates w !! g = Some gate /\ promiseRef gate = ref /\ ref <> RefUndefined /\
    rendered gate = Some (if isHydrated gate then Children else LoadingComponent) /\
    match ref with
    | RefPromise p => isHydrated gate = true -> fulfilled w p
    | _ => isHydrated gate = true
    end /\
    forall (r : pid) c src,
      heap w !! r = Some c -> cjob c = ThenOpen g src ->
      (forall p, ref = RefPromise p -> src = p) /\
      (forall v, cstate c = Some (Fulfilled v) -> isHydrated gate = true).

(** *** Containers, merges and writes *)

(** The listeners of container [s]. *)
Definition listeners_of (w : World) (s : nat) : option (list Listener) :=
  listeners <$> stores w !! s.

(** The storage object of the handler of container [s]. *)
Definition storage_of (w : World) (s : nat) : option PersistStorage :=
  storage <$> (stores w !! s ≫= persist).

(** The storage provider in the configuration of the handler of
    container [s]. *)
Definition provider_of (w : World) (s : nat) : option StorageProvider :=
  (stores w !! s ≫= persist) ≫= fun h => config_storage (config h).

(** What calling listeners leaves alone: the heap, the clock, and the
    listeners, the state and the [hydrate] method of every container. *)
Definition same_containers (w w' : World) : Prop :=
  heap w' = heap w /\ now w' = now w /\
  forall s, listeners_of w' s = listeners_of w s /\ state_of w' s = state_of w s /\
            method_of w' s = method_of w s.

(** From [w] to [w'] nothing was hydrated: no event, no timer, and every
    container has its listeners, its state, its storage object and its
    [hydrate] method. *)
Definition undisturbed (w w' : World) : Prop :=
  trace w' = trace w /\ timers w' = timers w /\
  forall s, listeners_of w' s = listeners_of w s /\ state_of w' s = state_of w s /\
            storage_of w' s = storage_of w s /\ method_of w' s = method_of w s.

(** An operation that leaves container [s] alone. *)
Definition leaves_store (s : nat) {A} (m : M A) : Prop :=
  forall w, stores (m w).2 !! s = stores w !! s.

(** The listeners of the application and others, without [l]. *)
Definition without (l : Listener) (ls : list Listener) : list Listener :=
  List.filter (fun l' => negb (bool_decide (l' = l))) ls.

(** What the write of [data] by a handler like [h0] leaves in the trace and
    in the heap, when it runs in [w]. *)
Definition write_outcome (w : World) (h0 : PersistHandler) (data : JS)
  : list Event * list Cell :=
  match storage h0 with
  | UninitializedStorage =>
      ([LogWarn "Attempted to access storage before initialization, method : setItem"], [])
  | jsonPersistStorage b =>
      match JSON_stringify w (stored_record (config h0) data) with
      | None => ([], [settled Rejected])
      | Some str =>
          ([BackendSet (key h0) str],
           match backend_setItem b (key h0) str with
           | Now _ => [settled (Fulfilled JUndefined)]
           | Later o => [external (fun _ => JUndefined) o;
                         pending (AwaitVoid (length (heap w)))]
           end)
      end
  end.

(** The realm once the pending write of [w] has run. *)
Definition written (h0 : PersistHandler) (data : JS) (w : World) : World :=
  with_timers []
    (with_heap (heap w ++ (write_outcome w h0 data).2)
       (with_trace (trace w ++ (write_outcome w h0 data).1) w)).

(** The container that [new IgrisState(initialState, { name, persist })]
    creates. *)
Definition new_state_store (initialState : JS) (name : string) (o : PersistOptions)
  : IgrisMaster :=
  {| listeners := []; currentState := initialState;
     persist := Some (set_config_merge
                        (Some (default IgrisState_merge (opt_merge o)))
                        (PersistHandler_new name o));
     fetchCurrentState := FetchInitialize |}.

(** No object inside [v] has an own key [__proto__]: assigning to that key
    replaces the prototype of the target instead of a property. *)
Fixpoint proto_free (v : JS) : bool :=
  match v with
  | JObj m =>
      map_fold (fun key v' ok => negb (String.eqb key "__proto__") && proto_free v' && ok)
               true m
  | JArr items => forallb proto_free items
  | _ => true
  end.

(** What the inner [merge] leaves under one key. *)
Definition merged_value (targetValue : option JS) (sourceValue : JS) : JS :=
  match targetValue, sourceValue with
  | Some (JArr targetItems), JArr sourceItems => JArr (targetItems ++ sourceItems)
  | Some (JObj targetValue), JObj _ => JObj (deepMerge_merge targetValue sourceValue)
  | _, _ => sourceValue
  end.

(** The writes that reached a backend under key [k]. *)
Definition is_write_under (k : string) (e : Event) : bool :=
  match e with
  | BackendSet k' _ => String.eqb k' k
  | _ => false
  end.

Definition writes_under (k : string) (t : list Event) : list Event :=
  List.filter (is_write_under k) t.

(** Timer [t] is a write of container [s]. *)
Definition timer_of (s : nat) (t : Timer) : bool :=
  match callback t with PersistWrite s' _ => s' =? s end.

(** Timer [t] is a write of a container whose handler has another key
    than [k]. *)
Definition other_key (w : World) (k : string) (t : Timer) : Prop :=
  match callback t with
  | PersistWrite s' _ => forall h', stores w !! s' ≫= persist = Some h' -> key h' <> k
  end.

(** The handler of [s] has a write of [data] pending, due at [due_], among
    the writes of other containers, which have other keys. *)
Definition write_among (w : World) (s : nat) (h0 : PersistHandler)
    (data : JS) (due_ : nat) : Prop :=
  exists st h tid,
    stores w !! s = Some st /\ persist st = Some h /\
    storage h = storage h0 /\ config h = config h0 /\ key h = key h0 /\
    timeoutId h = Some tid /\
    List.filter (timer_of s) (timers w)
    = [{| timer_id := tid; due := due_; callback := PersistWrite s data |}] /\
    forall t, t ∈ timers w -> timer_of s t = false -> other_key w (key h0) t.

(** The handler of [s] has no write pending. *)
Definition none_among (w : World) (s : nat) (h0 : PersistHandler) : Prop :=
  exists st h,
    stores w !! s = Some st /\ persist st = Some h /\
    storage h = storage h0 /\ config h = config h0 /\ key h = key h0 /\
    List.filter (timer_of s) (timers w) = [] /\
    forall t, t ∈ timers w -> other_key w (key h0) t.

(** What the callbacks of timers leave alone. *)
Definition timers_frame (w w' : World) : Prop :=
  stores w' = stores w /\ timers w' = timers w /\ now w' = now w /\
  next_timer w' = next_timer w /\ JSON_stringify w' = JSON_stringify w.

(** The events that the write of [data] by a handler like [h0] leaves
    under its key. *)
Definition own_writes (h0 : PersistHandler) (data : JS) (w : World) : list Event :=
  writes_under (key h0) (write_outcome w h0 data).1.

(** The handler of [s] is like [h0]. *)
Definition handler_like (s : nat) (h0 : PersistHandler) (w : World) : Prop :=
  exists st h,
    stores w !! s = Some st /\ persist st = Some h /\
    storage h = storage h0 /\ config h = config h0 /\ key h = key h0.

(** What the timers are like: the writes of [s] carry [data], the others
    have other keys. *)
Definition sorted_out (s : nat) (h0 : PersistHandler) (data : JS) (w : World) : Prop :=
  handler_like s h0 w /\
  (forall t, t ∈ timers w -> timer_of s t = true -> callback t = PersistWrite s data) /\
  (forall t, t ∈ timers w -> timer_of s t = false -> other_key w (key h0) t).

(** The handler as the coordinator hydrates it: with the fallback storage
    of the coordinator, when its configuration has none. *)
Definition injected (config_ : option StorageProvider) (h : PersistHandler)
  : PersistHandler :=
  match config_storage (config h), config_ with
  | None, Some fallback => set_config_storage (Some fallback) h
  | _, _ => h
  end.

(** The event that the first read of the handler's storage leaves. *)
Definition read_event (w : World) (h : PersistHandler) : Event :=
  match resolved_storage w h with
  | UninitializedStorage =>
      LogWarn "Attempted to access storage before initialization, method : getItem"
  | jsonPersistStorage _ => BackendGet (key h)
  end.

(** The state of the container when the first [hydrate()] returns: the
    value read, or on the asynchronous path, where the value comes with
    the promise, the state that the container had. *)
Definition state_on_return (w : World) (st : IgrisMaster) (h : PersistHandler) : JS :=
  match read_reply w h with
  | Now _ => hydration_value w st h
  | Later _ => currentState st
  end.

(** An operation that leaves the functions of the host alone and only adds
    events to the trace. *)
Definition appends_events {A} (m : M A) : Prop :=
  forall w, localStorage (m w).2 = localStorage w /\
            JSON_parse (m w).2 = JSON_parse w /\
            exists new, trace (m w).2 = trace w ++ new.

(** The cached handle of container [s] stays what it is. *)
Definition keeps_cached (s : nat) (r : option pid) {A} (m : M A) : Prop :=
  forall w, method_of w s = Some (HydrateCached r) ->
            method_of (m w).2 s = Some (HydrateCached r).

(* ================================================================= *)
(** ** Sample realms *)

(** A host whose [JSON.parse] knows two documents and rejects the rest,
    and whose [JSON.stringify] prints the counter of a record. *)
Definition sample_record : JS :=
  JObj (<["value" := JObj (<["count" := JNum 5]> ∅)]> (<["version" := JNum 0]> ∅)).

Definition sample_parse (s : string) : option JS :=
  if String.eqb s "{value:{count:5},version:0}" then Some sample_record
  else if String.eqb s "null" then Some JNull
  else None.

Definition sample_stringify (v : JS) : option string :=
  match get_prop "count" (get_prop "value" v) with
  | JNum n => Some ("{value:{count:" +:+ pretty n +:+ "}}")
  | _ => Some "{}"
  end.

Definition empty_world : World :=
  {| stores := []; gates := []; heap := []; timers := []; now := 0;
     next_timer := 0; trace := [];
     JSON_parse := sample_parse; JSON_stringify := sample_stringify;
     localStorage := None |}.

Definition sync_backend (r : option string) : ActualStorage :=
  {| backend_getItem := fun _ => Now r;
     backend_setItem := fun _ _ => Now tt;
     backend_removeItem := fun _ => Now tt |}.

Definition async_backend (o : option (option string)) : ActualStorage :=
  {| backend_getItem := fun _ => Later o;
     backend_setItem := fun _ _ => Later (Some tt);
     backend_removeItem := fun _ => Later (Some tt) |}.

Definition sample_options (p : option StorageProvider) : PersistOptions :=
  {| opt_debounceTime := Absent; opt_partial := None; opt_skipHydrate := None;
     opt_version := Some 1%Z; opt_migrate := None; opt_merge := None;
     opt_storage := p |}.

Definition sample_state : JS :=
  JObj (<["count" := JNum 0]> (<["name" := JStr "igris"]> ∅)).

(** One container named [counter], persisted through provider [p], with
    one listener of the application. *)
Definition sample_world (p : option StorageProvider) : World :=
  exec (IgrisMaster_new sample_state (Some "counter") (Some (sample_options p)) >>>
        IgrisMaster_subscribe 0 (LUser 7))
       empty_world.

Definition sample_handler (p : option StorageProvider) : PersistHandler :=
  PersistHandler_new "counter" (sample_options p).

Definition sample_store (p : option StorageProvider) : IgrisMaster :=
  {| listeners := [LUser 7]; currentState := sample_state;
     persist := Some (sample_handler p); fetchCurrentState := FetchInitialize |}.

(** Two containers persisted through asynchronous backends that hold no
    record, and between them a container without a handler. *)
Definition sample_pair : World :=
  exec (IgrisMaster_new sample_state (Some "fast")
          (Some (sample_options (Some (StorageInstance (async_backend (Some None)))))) >>>
        IgrisMaster_new sample_state None None >>>
        IgrisMaster_new sample_state (Some "slow")
          (Some (sample_options (Some (StorageInstance (async_backend (Some None)))))))
       empty_world.

(** A realm with the sample container and one gate that has not been
    evaluated. *)
Definition sample_gate (pr : HydratorProps) : World :=
  with_gates [new_gate pr]
    (sample_world (Some (StorageInstance (async_backend (Some None))))).

(** A delay of [2^31] milliseconds, one more than the host keeps. *)
Definition long_delay : nat := Z.to_nat 2147483648.

(** The options of a handler that writes [d] milliseconds after the last
    change, through provider [p]. *)
Definition delayed_options (d : nat) (p : StorageProvider) : PersistOptions :=
  {| opt_debounceTime := Given d; opt_partial := None; opt_skipHydrate := None;
     opt_version := Some 1%Z; opt_migrate := None; opt_merge := None;
     opt_storage := Some p |}.

(** Two hydrated containers, [counter] and [other], persisted through
    backends that answer at once; [other] has a write pending. *)
Definition sample_two : World :=
  let p := Some (StorageInstance (sync_backend None)) in
  exec (IgrisMaster_new sample_state (Some "counter") (Some (sample_options p)) >>>
        IgrisMaster_new sample_state (Some "other") (Some (sample_options p)) >>>
        hydrate 0 >>> hydrate 1 >>>
        PersistHandler_setItem 1 sample_state)
       empty_world.

(** The listeners of the sample read container [0] when they are called. *)
Definition reading_listeners : nat -> list Call := fun _ => [CallGet 0].

(** Listener [7] only looks at the state, the others read container [0]. *)
Definition one_quiet_listener : nat -> list Call :=
  fun id => if id =? 7 then [] else [CallGet 0].

(* ================================================================= *)
(** * Properties *)

(** ** Worlds and the monad *)

Lemma with_trace_id w : with_trace (trace w) w = w.
Proof. destruct w; reflexivity. Qed.

Lemma with_stores_id w : with_stores (stores w) w = w.
Proof. destruct w; reflexivity. Qed.

Lemma with_heap_id w : with_heap (heap w) w = w.
Proof. destruct w; reflexivity. Qed.

Lemma with_timers_id w : with_timers (timers w) w = w.
Proof. destruct w; reflexivity. Qed.

Lemma world_ext (w1 w2 : World) :
  stores w1 = stores w2 -> gates w1 = gates w2 -> heap w1 = heap w2 ->
  timers w1 = timers w2 -> now w1 = now w2 -> next_timer w1 = next_timer w2 ->
  trace w1 = trace w2 -> JSON_parse w1 = JSON_parse w2 ->
  JSON_stringify w1 = JSON_stringify w2 -> localStorage w1 = localStorage w2 ->
  w1 = w2.
Proof. destruct w1, w2; simpl; intros; by subst. Qed.

(** Two realms are compared field by field. *)
Ltac world_eq := apply world_ext; simpl; try reflexivity.

Lemma alter_at {A} (f : A -> A) (l : list A) (i : nat) (x : A) :
  l !! i = Some x -> alter f i l = <[i := f x]> l.
Proof.
  revert i. induction l as [|y l IH]; intros [|i] H; simplify_eq/=; try done.
  by rewrite IH.
Qed.

Lemma bind_eq {A B} (m : M A) (k : A -> M B) w a w' :
  m w = (a, w') -> bind m k w = k a w'.
Proof. unfold bind. by intros ->. Qed.

(** ** Listeners *)

Lemma forEach_users s v ls w :
  LPersist ∉ ls ->
  forEach ls (call_listener s v) w =
  (tt, with_trace (trace w ++ map (fun i => Notified s i v) (user_ids ls)) w).
Proof.
  revert w. induction ls as [|l ls IH]; intros w Hl; simpl.
  - by rewrite app_nil_r, with_trace_id.
  - apply not_elem_of_cons in Hl as [Hne Hl].
    destruct l as [|i]; [done|].
    unfold bind, emit, modify; simpl.
    rewrite IH by done. f_equal. world_eq. by rewrite <- app_assoc.
Qed.

(** ** Running one operation after another *)

Lemma bind_assoc {A B C} (m : M A) (k1 : A -> M B) (k2 : B -> M C) w :
  bind (bind m k1) k2 w = bind m (fun x => bind (k1 x) k2) w.
Proof. unfold bind. by destruct (m w). Qed.

Lemma lookup_insert_at {A} (l : list A) i x y :
  l !! i = Some x -> <[i := y]> l !! i = Some y.
Proof. intros H. apply list_lookup_insert_eq. by eapply lookup_lt_Some. Qed.

Ltac solve_side :=
  simpl;
  repeat match goal with
  | H : persist ?st = Some _ |- context [persist ?st] => rewrite H; simpl
  end;
  first [ eassumption | reflexivity
        | eapply lookup_insert_at; eassumption
        | done ].

(** [bind_step lem] runs the first operation of a sequence with its
    equation [lem] and normalises the world that results. *)
Ltac bind_step lem :=
  rewrite ?bind_assoc;
  match goal with
  | |- bind ?m ?k ?w = _ =>
      let H := fresh "Hstep" in
      eassert (H : m w = _); [ eapply lem | ];
      [ solve_side .. | rewrite (bind_eq _ _ _ _ _ H); clear H; simpl;
                        rewrite ?list_insert_insert_eq ]
  end.

Lemma alloc_eq c w : alloc c w = (length (heap w), with_heap (heap w ++ [c]) w).
Proof. reflexivity. Qed.

Lemma the_handler_eq w s st h :
  stores w !! s = Some st -> persist st = Some h ->
  the_handler s w = (Some h, w).
Proof. intros Hst Hp. unfold the_handler, gets. by rewrite Hst; simpl; rewrite Hp. Qed.

Lemma the_store_eq w s st :
  stores w !! s = Some st -> the_store s w = (Some st, w).
Proof. intros Hst. unfold the_store, gets. by rewrite Hst. Qed.

Lemma modify_store_eq w s st f :
  stores w !! s = Some st ->
  modify_store s f w = (tt, with_stores (<[s := f st]> (stores w)) w).
Proof. intros Hst. unfold modify_store, modify. by erewrite alter_at. Qed.

Lemma modify_handler_eq w s st f :
  stores w !! s = Some st ->
  modify_handler s f w = (tt, with_stores (<[s := map_persist f st]> (stores w)) w).
Proof. apply modify_store_eq. Qed.

(** ** The handler, one method at a time *)

Lemma initializeStorage_spec w s st h :
  stores w !! s = Some st -> persist st = Some h ->
  initializeStorage s w =
  (tt, with_stores (<[s := map_persist (set_storage (resolved_storage w h)) st]> (stores w)) w).
Proof.
  intros Hst Hp. unfold initializeStorage.
  bind_step the_handler_eq.
  unfold bind at 1, gets at 1. unfold resolved_storage.
  destruct (createJSONStorage _).
  - by apply modify_handler_eq.
  - unfold ret. f_equal.
    replace (map_persist (set_storage (storage h)) st) with st.
    + by rewrite list_insert_id, with_stores_id.
    + destruct st, h; simpl in *. by subst.
Qed.

Lemma IgrisMaster_set_value_spec w s st v :
  stores w !! s = Some st -> LPersist ∉ listeners st ->
  IgrisMaster_set_value s v w =
  (tt, with_stores (<[s := set_currentState v st]> (stores w))
         (with_trace (trace w ++ map (fun i => Notified s i v) (user_ids (listeners st))) w)).
Proof.
  intros Hst Hl. unfold IgrisMaster_set_value.
  bind_step modify_store_eq.
  unfold notify.
  bind_step the_store_eq.
  by rewrite forEach_users.
Qed.

Lemma subscribeStore_spec w s st h :
  stores w !! s = Some st -> persist st = Some h ->
  unsubscribeStore h = None -> LPersist ∉ listeners st ->
  subscribeStore s w =
  (tt, with_stores
         (<[s := map_persist (set_unsubscribeStore (Some LPersist))
                   (set_listeners (listeners st ++ [LPersist]) st)]> (stores w)) w).
Proof.
  intros Hst Hp Hu Hl. unfold subscribeStore.
  bind_step the_handler_eq.
  rewrite Hu. unfold bind at 1 2, ret at 1.
  unfold IgrisMaster_subscribe.
  erewrite modify_store_eq by done. rewrite decide_False by done.
  erewrite modify_handler_eq by (simpl; by eapply lookup_insert_at).
  simpl. by rewrite list_insert_insert_eq.
Qed.

Section getItem.
Context (w : World) (s : nat) (st : IgrisMaster) (h : PersistHandler).
Hypothesis Hst : stores w !! s = Some st.
Hypothesis Hp : persist st = Some h.

Lemma getItem_sentinel_spec :
  storage h = UninitializedStorage ->
  PersistHandler_getItem s w =
  (inl (currentState st),
   with_trace (trace w ++
     [LogWarn "Attempted to access storage before initialization, method : getItem"]) w).
Proof using Hst Hp.
  intros Hs. unfold PersistHandler_getItem.
  bind_step the_handler_eq.
  rewrite Hs. simpl.
  unfold bind, logWarningAndReturn, bind, emit, modify, ret, the_store, gets.
  simpl. by rewrite Hst.
Qed.

Lemma getItem_sync_spec b r :
  storage h = jsonPersistStorage b ->
  backend_getItem b (key h) = Now r ->
  PersistHandler_getItem s w =
  (inl (processStoredData (currentState st) (config h)
          (nullish_to_null (parseJSON (JSON_parse w) r))),
   with_trace (trace w ++ [BackendGet (key h)]) w).
Proof using Hst Hp.
  intros Hs Hg. unfold PersistHandler_getItem.
  bind_step the_handler_eq.
  rewrite Hs. simpl. unfold jsonPersistStorage_getItem. rewrite Hg.
  unfold bind, emit, modify, ret, the_store, gets. simpl. by rewrite Hst.
Qed.

Lemma getItem_async_spec b o :
  storage h = jsonPersistStorage b ->
  backend_getItem b (key h) = Later o ->
  PersistHandler_getItem s w =
  (inr (length (heap w) + 2),
   with_heap (heap w ++ [external of_raw o;
                         pending (AwaitParse (length (heap w)));
                         pending (AwaitProcess s (length (heap w) + 1))])
     (with_trace (trace w ++ [BackendGet (key h)]) w)).
Proof using Hst Hp.
  intros Hs Hg. unfold PersistHandler_getItem.
  bind_step the_handler_eq.
  rewrite Hs. simpl. unfold jsonPersistStorage_getItem. rewrite Hg.
  unfold bind, emit, modify, ret, the_store, gets, runImmediately, alloc. simpl.
  rewrite !length_app. simpl. f_equal; [f_equal; lia|].
  world_eq. rewrite <- !app_assoc. simpl.
  by replace (length (heap w) + 1 + 1) with (length (heap w) + 2) by lia.
Qed.
End getItem.

(** ** [hydrate()], first call and later calls *)

Lemma hydrate_cached_spec w s st h r :
  stores w !! s = Some st -> persist st = Some h ->
  hydrate_method h = HydrateCached r ->
  hydrate s w = (r, w).
Proof.
  intros Hst Hp Hm. unfold hydrate.
  bind_step the_handler_eq. by rewrite Hm.
Qed.

Section hydrate_first.
Context (w : World) (s : nat) (st : IgrisMaster) (h : PersistHandler).
Hypothesis Hst : stores w !! s = Some st.
Hypothesis Hpr : pristine st h.

Ltac start :=
  destruct Hpr as (Hp & Hm & Hu & Hl);
  unfold hydrate;
  bind_step the_handler_eq; rewrite Hm;
  bind_step initializeStorage_spec.

Ltac finish :=
  bind_step subscribeStore_spec;
  unfold hydrate_cached;
  bind_step the_handler_eq; unfold ret;
  rewrite ?length_app; simpl; f_equal;
  world_eq;
  [ f_equal; unfold hydrated_store, hydrated_handler, map_persist; simpl;
    repeat match goal with H : persist _ = Some _ |- _ => rewrite H end;
    simpl; try reflexivity
  | rewrite <- ?app_assoc; try reflexivity .. ].

Lemma hydrate_sync_spec b r :
  resolved_storage w h = jsonPersistStorage b ->
  backend_getItem b (key h) = Now r ->
  hydrate s w =
  (None,
   let v := processStoredData (currentState st) (config h)
              (nullish_to_null (parseJSON (JSON_parse w) r)) in
   with_stores (<[s := hydrated_store st h (jsonPersistStorage b) None v]> (stores w))
     (with_trace (trace w ++ BackendGet (key h) ::
                    map (fun i => Notified s i v) (user_ids (listeners st))) w)).
Proof using Hst Hpr.
  intros Hres Hg. start. rewrite Hres.
  bind_step getItem_sync_spec.
  bind_step IgrisMaster_set_value_spec.
  bind_step modify_handler_eq.
  finish.
Qed.

Lemma hydrate_sentinel_spec :
  resolved_storage w h = UninitializedStorage ->
  hydrate s w =
  (None,
   with_stores (<[s := hydrated_store st h UninitializedStorage None (currentState st)]>
                  (stores w))
     (with_trace (trace w ++
        LogWarn "Attempted to access storage before initialization, method : getItem" ::
        map (fun i => Notified s i (currentState st)) (user_ids (listeners st))) w)).
Proof using Hst Hpr.
  intros Hres. start. rewrite Hres.
  bind_step getItem_sentinel_spec.
  bind_step IgrisMaster_set_value_spec.
  bind_step modify_handler_eq.
  finish.
Qed.

Lemma hydrate_async_spec b o :
  resolved_storage w h = jsonPersistStorage b ->
  backend_getItem b (key h) = Later o ->
  hydrate s w =
  (Some (length (heap w) + 3),
   with_stores (<[s := hydrated_store st h (jsonPersistStorage b)
                         (Some (length (heap w) + 3)) (currentState st)]> (stores w))
     (with_heap (heap w ++ [external of_raw o;
                            pending (AwaitParse (length (heap w)));
                            pending (AwaitProcess s (length (heap w) + 1));
                            pending (AwaitHydrate s (length (heap w) + 2))])
        (with_trace (trace w ++ [BackendGet (key h)]) w))).
Proof using Hst Hpr.
  intros Hres Hg. start. rewrite Hres.
  bind_step getItem_async_spec.
  unfold runImmediately.
  bind_step alloc_eq.
  bind_step modify_handler_eq.
  finish.
Qed.
End hydrate_first.

(** ** Counting events *)

Lemma count_app p t1 t2 : count p (t1 ++ t2) = count p t1 + count p t2.
Proof. unfold count. by rewrite List.filter_app, length_app. Qed.

Lemma count_cons p e t : count p (e :: t) = (if p e then 1 else 0) + count p t.
Proof. unfold count; simpl. by destruct (p e). Qed.

Lemma count_notified p s v ids :
  (forall i, p (Notified s i v) = false) ->
  count p (map (fun i => Notified s i v) ids) = 0.
Proof.
  intros Hp. unfold count. induction ids as [|i ids IH]; simpl; [done|].
  by rewrite Hp.
Qed.

Lemma hydrate_times_cached n w s st h r :
  stores w !! s = Some st -> persist st = Some h ->
  hydrate_method h = HydrateCached r ->
  hydrate_times n s w = (replicate n r, w).
Proof.
  intros Hst Hp Hm. induction n as [|n IH]; simpl; [done|].
  bind_step hydrate_cached_spec. by rewrite (bind_eq _ _ _ _ _ IH).
Qed.

(** ** Calls of [hydrate()], one after the other *)

(** On a handler that has not been hydrated yet, any number [S n] of
    calls of [hydrate()] in a row returns the same wait-handle every time
    ([undefined] unless the backend read is asynchronous, in which case it
    is one and the same promise), leaves the realm exactly as the first
    call left it, and reads the storage exactly once: once from the
    backend when the storage provider resolves, once from the sentinel
    otherwise. The listeners that the first call notifies only look at the
    state. *)
Lemma hydrate_times_once (w : World) (s : nat) (st : IgrisMaster)
    (h : PersistHandler) (n : nat) :
  stores w !! s = Some st ->
  pristine st h ->
  hydrate_times (S n) s w
    = (replicate (S n) (eval (hydrate s) w), exec (hydrate s) w) /\
  count is_storage_read (trace (exec (hydrate_times (S n) s) w))
    = count is_storage_read (trace w) + 1 /\
  match resolved_storage w h with
  | jsonPersistStorage b =>
      count is_backend_read (trace (exec (hydrate_times (S n) s) w))
        = count is_backend_read (trace w) + 1 /\
      match backend_getItem b (key h) with
      | Now _ => eval (hydrate s) w = None
      | Later _ => eval (hydrate s) w = Some (length (heap w) + 3)
      end
  | UninitializedStorage => eval (hydrate s) w = None
  end.
Proof.
  intros Hst Hpr.
  assert (Hcached : forall r w1 stor v,
    hydrate s w = (r, w1) ->
    stores w1 !! s = Some (hydrated_store st h stor r v) ->
    hydrate_times (S n) s w = (replicate (S n) r, w1)).
  { intros r w1 stor v Hh Hst1. simpl.
    rewrite (bind_eq _ _ _ _ _ Hh).
    erewrite (bind_eq _ _ _ _ _ (hydrate_times_cached n w1 s _ _ r Hst1 eq_refl eq_refl)).
    reflexivity. }
  unfold exec, eval.
  destruct (resolved_storage w h) as [|b] eqn:Hres.
  - pose proof (hydrate_sentinel_spec w s st h Hst Hpr Hres) as Hh.
    erewrite Hcached; [ | exact Hh | solve_side ].
    rewrite Hh; simpl. split; [done|]. split; [|done].
    by rewrite count_app, count_cons, count_notified.
  - destruct (backend_getItem b (key h)) as [r|o] eqn:Hg.
    + pose proof (hydrate_sync_spec w s st h Hst Hpr b r Hres Hg) as Hh.
      erewrite Hcached; [ | exact Hh | solve_side ].
      rewrite Hh; simpl. split; [done|].
      by rewrite !count_app, !count_cons, !count_notified.
    + pose proof (hydrate_async_spec w s st h Hst Hpr b o Hres Hg) as Hh.
      erewrite Hcached; [ | exact Hh | solve_side ].
      rewrite Hh; simpl. split; [done|].
      by rewrite !count_app.
Qed.

(** ** Writes and notifications *)

Lemma forEach_app {A} (l1 l2 : list A) (body : A -> M unit) w :
  forEach (l1 ++ l2) body w = (forEach l1 body >>> forEach l2 body) w.
Proof.
  revert w. induction l1 as [|x l1 IH]; intros w; simpl; [done|].
  unfold bind in *. destruct (body x w) as [[] w1]. by rewrite IH.
Qed.

Lemma setItem_spec w s st h data :
  stores w !! s = Some st -> persist st = Some h ->
  PersistHandler_setItem s data w =
  (tt, with_stores (<[s := map_persist (set_timeoutId (Some (next_timer w))) st]> (stores w))
         (with_next_timer (S (next_timer w))
            (with_timers (cleared (timeoutId h) (timers w) ++
                            [{| timer_id := next_timer w;
                                due := now w + timer_delay (debounceTime (config h));
                                callback := PersistWrite s data |}]) w))).
Proof.
  intros Hst Hp. unfold PersistHandler_setItem.
  bind_step the_handler_eq.
  unfold clearTimeout, setTimeout, cleared.
  destruct (timeoutId h); unfold bind, gets, modify, ret; simpl;
    (erewrite modify_handler_eq by solve_side); reflexivity.
Qed.

Lemma set_value_subscribed_spec w s st h ls v :
  stores w !! s = Some st -> persist st = Some h ->
  listeners st = ls ++ [LPersist] -> LPersist ∉ ls ->
  IgrisMaster_set_value s v w =
  (tt, with_stores (<[s := map_persist (set_timeoutId (Some (next_timer w)))
                             (set_currentState v st)]> (stores w))
         (with_next_timer (S (next_timer w))
            (with_timers (cleared (timeoutId h) (timers w) ++
                            [{| timer_id := next_timer w;
                                due := now w + timer_delay (debounceTime (config h));
                                callback := PersistWrite s v |}])
               (with_trace (trace w ++ map (fun i => Notified s i v) (user_ids ls)) w)))).
Proof.
  intros Hst Hp Hls Hl. unfold IgrisMaster_set_value.
  bind_step modify_store_eq.
  unfold notify.
  bind_step the_store_eq.
  rewrite Hls, forEach_app.
  bind_step forEach_users.
  unfold bind. rewrite (setItem_spec _ s (set_currentState v st) h) by solve_side.
  simpl. rewrite list_insert_insert_eq. reflexivity.
Qed.

Lemma run_job_pending w p j :
  heap w !! p = Some (pending j) -> run_job p w = resume p j w.
Proof. intros H. unfold run_job, bind, gets. by rewrite H. Qed.

Lemma outcome_eq w p c :
  heap w !! p = Some c -> outcome p w = (cstate c, w).
Proof. intros H. unfold outcome, gets. by rewrite H. Qed.

Lemma settle_eq w p c o :
  heap w !! p = Some c ->
  settle p o w = (tt, with_heap (<[p := {| cstate := Some o; cjob := cjob c |}]> (heap w)) w).
Proof. intros H. unfold settle, modify. by erewrite alter_at. Qed.

(** ** Jobs of the event loop *)

Lemma to_raw_of_raw r : to_raw (of_raw r) = r.
Proof. by destruct r. Qed.

Lemma lookup_tail {A} (l t : list A) k : (l ++ t) !! (length l + k) = t !! k.
Proof. rewrite lookup_app_r by lia. f_equal. lia. Qed.

Lemma lookup_tail0 {A} (l t : list A) : (l ++ t) !! (length l) = t !! 0.
Proof. rewrite <- (lookup_tail l t 0). f_equal. lia. Qed.

Lemma insert_tail0 {A} (l t : list A) x : <[length l := x]> (l ++ t) = l ++ <[0 := x]> t.
Proof. rewrite <- (insert_app_r l t 0). f_equal. lia. Qed.

Ltac heap_norm :=
  rewrite ?insert_app_r, ?insert_tail0, ?lookup_tail, ?lookup_tail0; simpl.

Lemma run_cons a acts w : run (a :: acts) w = run acts (exec (step a) w).
Proof. reflexivity. Qed.

Lemma run_nil w : run [] w = w.
Proof. reflexivity. Qed.

Lemma run_external_spec w p o :
  heap w !! p = Some (pending (External o)) ->
  run_job p w =
  (tt,
  with_heap (<[p := {| cstate := Some o; cjob := External o |}]> (heap w)) w).
Proof.
  intros H. rewrite (run_job_pending _ _ _ H). cbn [resume].
  by rewrite (settle_eq _ _ _ _ H).
Qed.

Lemma run_parse_spec w p item c o :
  heap w !! p = Some (pending (AwaitParse item)) ->
  heap w !! item = Some c -> cstate c = Some o ->
  run_job p w =
  (tt,
  with_heap (<[p := {| cstate := Some match o with
                                      | Fulfilled v => Fulfilled (parseJSON (JSON_parse w) (to_raw v))
                                      | Rejected => Rejected
                                      end;
                       cjob := AwaitParse item |}]> (heap w)) w).
Proof.
  intros H Hi Ho. rewrite (run_job_pending _ _ _ H). cbn [resume].
  rewrite (bind_eq _ _ _ _ _ (outcome_eq _ _ _ Hi)). rewrite Ho.
  destruct o; [unfold bind, gets|]; by rewrite (settle_eq _ _ _ _ H).
Qed.

Lemma run_process_spec w p s st h src c o :
  heap w !! p = Some (pending (AwaitProcess s src)) ->
  heap w !! src = Some c -> cstate c = Some o ->
  stores w !! s = Some st -> persist st = Some h ->
  run_job p w =
  (tt,
  match o with
  | Fulfilled d =>
      with_heap (<[p := {| cstate := Some (Fulfilled (processStoredData (currentState st) (config h) d));
                           cjob := AwaitProcess s src |}]> (heap w)) w
  | Rejected =>
      with_heap (<[p := {| cstate := Some (Fulfilled JNull);
                           cjob := AwaitProcess s src |}]> (heap w))
        (with_trace (trace w ++ [LogError "Error retrieving stored data:"]) w)
  end).
Proof.
  intros H Hi Ho Hst Hp. rewrite (run_job_pending _ _ _ H). cbn [resume].
  rewrite (bind_eq _ _ _ _ _ (outcome_eq _ _ _ Hi)). rewrite Ho.
  destruct o.
  - bind_step the_store_eq. bind_step the_handler_eq.
    by rewrite (settle_eq _ _ _ _ H).
  - unfold bind, emit, modify. simpl. by erewrite settle_eq by (simpl; eassumption).
Qed.

Lemma run_hydrate_spec w p s st h ls src c v :
  heap w !! p = Some (pending (AwaitHydrate s src)) ->
  heap w !! src = Some c -> cstate c = Some (Fulfilled v) ->
  stores w !! s = Some st -> persist st = Some h ->
  listeners st = ls ++ [LPersist] -> LPersist ∉ ls ->
  run_job p w =
  (tt,
  with_heap (<[p := {| cstate := Some (Fulfilled JUndefined); cjob := AwaitHydrate s src |}]> (heap w))
    (with_stores (<[s := map_persist (set_timeoutId (Some (next_timer w)))
                             (set_currentState v st)]> (stores w))
       (with_next_timer (S (next_timer w))
          (with_timers (cleared (timeoutId h) (timers w) ++
                          [{| timer_id := next_timer w;
                              due := now w + timer_delay (debounceTime (config h));
                              callback := PersistWrite s v |}])
             (with_trace (trace w ++ map (fun i => Notified s i v) (user_ids ls)) w))))).
Proof.
  intros H Hi Ho Hst Hp Hls Hl. rewrite (run_job_pending _ _ _ H). cbn [resume].
  rewrite (bind_eq _ _ _ _ _ (outcome_eq _ _ _ Hi)). rewrite Ho.
  bind_step set_value_subscribed_spec.
  by erewrite settle_eq by (simpl; eassumption).
Qed.

Lemma exec_run p w w' : run_job p w = (tt, w') -> exec (step (ARun p)) w = w'.
Proof. unfold exec, step. by intros ->. Qed.

Ltac heap_side :=
  simpl; rewrite ?insert_app_r, ?insert_tail0, ?lookup_tail, ?lookup_tail0; simpl;
  repeat match goal with
  | H : persist ?st = Some _ |- context [persist ?st] => rewrite H; simpl
  end;
  first [ reflexivity | eassumption | eapply lookup_insert_at; eassumption | done ].

Ltac job lem :=
  rewrite run_cons;
  match goal with
  | |- context [exec (step (ARun ?p)) ?w] =>
      let H := fresh "Hjob" in
      eassert (H : run_job p w = (tt, _)); [ eapply lem | ];
      [ heap_side .. | rewrite (exec_run _ _ _ H); clear H; simpl;
                       rewrite ?insert_app_r, ?insert_tail0, ?list_insert_insert_eq; simpl ]
  end.

Section chain.
Context (w : World) (s : nat) (st : IgrisMaster) (h : PersistHandler) (b : ActualStorage).
Hypothesis Hst : stores w !! s = Some st.
Hypothesis Hpr : pristine st h.
Hypothesis Hres : resolved_storage w h = jsonPersistStorage b.

Lemma hydration_fulfilled_spec r :
  backend_getItem b (key h) = Later (Some r) ->
  let n := length (heap w) in
  let d := parseJSON (JSON_parse w) r in
  let v := processStoredData (currentState st) (config h) d in
  run (hydration_jobs n) (exec (hydrate s) w) =
  with_stores (<[s := map_persist (set_timeoutId (Some (next_timer w)))
                        (hydrated_store st h (jsonPersistStorage b) (Some (n + 3)) v)]>
                 (stores w))
    (with_heap (heap w ++ [ {| cstate := Some (Fulfilled (of_raw r)); cjob := External (Fulfilled (of_raw r)) |};
                            {| cstate := Some (Fulfilled d); cjob := AwaitParse n |};
                            {| cstate := Some (Fulfilled v); cjob := AwaitProcess s (n + 1) |};
                            {| cstate := Some (Fulfilled JUndefined); cjob := AwaitHydrate s (n + 2) |} ])
       (with_next_timer (S (next_timer w))
          (with_timers (cleared (timeoutId h) (timers w) ++
                          [{| timer_id := next_timer w;
                              due := now w + timer_delay (debounceTime (config h));
                              callback := PersistWrite s v |}])
             (with_trace (trace w ++ BackendGet (key h) ::
                            map (fun i => Notified s i v) (user_ids (listeners st))) w)))).
Proof using Hst Hpr Hres.
  intros Hg n d v. unfold exec.
  pose proof Hpr as (Hp & Hm & Hu & Hl).
  rewrite (hydrate_async_spec w s st h Hst Hpr b _ Hres Hg). cbn [snd].
  unfold hydration_jobs. subst n.
  job run_external_spec.
  job run_parse_spec.
  job run_process_spec.
  job run_hydrate_spec.
  rewrite run_nil, to_raw_of_raw. world_eq.
  by rewrite <- app_assoc.
Qed.

Lemma hydration_rejected_spec :
  backend_getItem b (key h) = Later None ->
  let n := length (heap w) in
  run (hydration_jobs n) (exec (hydrate s) w) =
  with_stores (<[s := map_persist (set_timeoutId (Some (next_timer w)))
                        (hydrated_store st h (jsonPersistStorage b) (Some (n + 3)) JNull)]>
                 (stores w))
    (with_heap (heap w ++ [ {| cstate := Some Rejected; cjob := External Rejected |};
                            {| cstate := Some Rejected; cjob := AwaitParse n |};
                            {| cstate := Some (Fulfilled JNull); cjob := AwaitProcess s (n + 1) |};
                            {| cstate := Some (Fulfilled JUndefined); cjob := AwaitHydrate s (n + 2) |} ])
       (with_next_timer (S (next_timer w))
          (with_timers (cleared (timeoutId h) (timers w) ++
                          [{| timer_id := next_timer w;
                              due := now w + timer_delay (debounceTime (config h));
                              callback := PersistWrite s JNull |}])
             (with_trace (trace w ++ BackendGet (key h) ::
                            LogError "Error retrieving stored data:" ::
                            map (fun i => Notified s i JNull) (user_ids (listeners st))) w)))).
Proof using Hst Hpr Hres.
  intros Hg n. unfold exec.
  pose proof Hpr as (Hp & Hm & Hu & Hl).
  rewrite (hydrate_async_spec w s st h Hst Hpr b _ Hres Hg). cbn [snd].
  unfold hydration_jobs. subst n.
  job run_external_spec.
  job run_parse_spec.
  job run_process_spec.
  job run_hydrate_spec.
  rewrite run_nil. world_eq.
  by rewrite <- !app_assoc.
Qed.
End chain.

(** ** Stored records *)

Lemma shallowMerge_lookup (cur stored : gmap string JS) (k : string) :
  get_prop k (shallowMerge [JObj cur; JObj stored]) =
  match stored !! k with
  | Some v => v
  | None => get_prop k (JObj cur)
  end.
Proof.
  unfold shallowMerge, spread2; simpl.
  rewrite !lookup_union, lookup_empty.
  by destruct (stored !! k), (cur !! k).
Qed.

Lemma processStoredData_nullish cur cfg d :
  processStoredData cur cfg (nullish_to_null d) = processStoredData cur cfg d.
Proof. by destruct d. Qed.

Lemma processStoredData_null cur cfg : processStoredData cur cfg JNull = cur.
Proof. reflexivity. Qed.

Lemma processStoredData_record cur cfg (record : gmap string JS) :
  processStoredData cur cfg (JObj record) =
  default (fun a b => shallowMerge [a; b]) (merge cfg) cur
    (match version_differs (version cfg) (get_prop "version" (JObj record)), migrate cfg with
     | true, Some migrate_ =>
         migrate_ (get_prop "value" (JObj record)) (get_prop "version" (JObj record))
     | _, _ => get_prop "value" (JObj record)
     end).
Proof. reflexivity. Qed.

Lemma state_of_insert w w' s st st' :
  stores w !! s = Some st ->
  stores w' = <[s := st']> (stores w) ->
  state_of w' s = Some (currentState st').
Proof.
  intros Hst H. unfold state_of. rewrite H. by erewrite lookup_insert_at.
Qed.

(** ** Claim C3 *)



(** ** Claim C4 *)

(** C4. When the backend holds no record for the key, so that its
    [getItem] yields [null] at once or through its promise, the state of
    the container after the hydration is its state before it. *)
Theorem C4_no_record_keeps_state (w : World) (s : nat) (st : IgrisMaster)
    (h : PersistHandler) (b : ActualStorage) :
  stores w !! s = Some st ->
  pristine st h ->
  resolved_storage w h = jsonPersistStorage b ->
  (backend_getItem b (key h) = Now None ->
   state_of (exec (hydrate s) w) s = state_of w s) /\
  (backend_getItem b (key h) = Later (Some None) ->
   state_of (run (hydration_jobs (length (heap w))) (exec (hydrate s) w)) s
     = state_of w s).
Proof.
  intros Hst Hpr Hres.
  assert (Hw : state_of w s = Some (currentState st))
    by (unfold state_of; by rewrite Hst).
  rewrite Hw. split.
  - intros Hg. unfold exec.
    rewrite (hydrate_sync_spec w s st h Hst Hpr b _ Hres Hg). cbn [snd].
    by erewrite state_of_insert by (try exact Hst; reflexivity).
  - intros Hg.
    rewrite (hydration_fulfilled_spec w s st h b Hst Hpr Hres _ Hg).
    by erewrite state_of_insert by (try exact Hst; reflexivity).
Qed.

Lemma C4_no_record_keeps_state_witness :
  let b := async_backend (Some None) in
  let p := Some (StorageInstance b) in
  let w := sample_world p in
  stores w !! 0 = Some (sample_store p) /\
  pristine (sample_store p) (sample_handler p) /\
  resolved_storage w (sample_handler p) = jsonPersistStorage b /\
  state_of (run (hydration_jobs (length (heap w))) (exec (hydrate 0) w)) 0
    = state_of w 0.
Proof.
  intros b p w.
  assert (Hst : stores w !! 0 = Some (sample_store p)) by reflexivity.
  assert (Hpr : pristine (sample_store p) (sample_handler p)).
  { repeat split; try reflexivity. simpl. apply not_elem_of_cons.
    split; [discriminate | apply not_elem_of_nil]. }
  assert (Hres : resolved_storage w (sample_handler p) = jsonPersistStorage b)
    by reflexivity.
  repeat (split; [assumption|]).
  destruct (C4_no_record_keeps_state w 0 (sample_store p) (sample_handler p) b
              Hst Hpr Hres) as (_ & Hasync).
  exact (Hasync eq_refl).
Defined.

(** ** Claim C10 *)

Lemma notifications_app t1 t2 :
  notifications (t1 ++ t2) = notifications t1 ++ notifications t2.
Proof. apply omap_app. Qed.

Lemma notifications_notified s v ids :
  notifications (map (fun i => Notified s i v) ids) = map (fun i => (s, i, v)) ids.
Proof. induction ids as [|i ids IH]; simpl; [done|]. by rewrite <- IH. Qed.

(** What a completed hydration leaves behind, whichever way the storage
    answered. *)
Lemma completed_hydration_spec w s st h :
  stores w !! s = Some st ->
  pristine st h ->
  let w' := completed_hydration w s h in
  let v := hydration_value w st h in
  state_of w' s = Some v /\
  notifications (trace w')
    = notifications (trace w) ++ map (fun i => (s, i, v)) (user_ids (listeners st)) /\
  match read_reply w h with
  | Now _ => timers w' = timers w
  | Later _ =>
      timers w' = cleared (timeoutId h) (timers w) ++
                  [{| timer_id := next_timer w;
                      due := now w + timer_delay (debounceTime (config h));
                      callback := PersistWrite s v |}]
  end.
Proof.
  intros Hst Hpr w' v. subst w' v.
  unfold completed_hydration, hydration_value, read_reply.
  destruct (resolved_storage w h) as [|b] eqn:Hres.
  - unfold exec. rewrite (hydrate_sentinel_spec w s st h Hst Hpr Hres). cbn [snd].
    split; [by erewrite state_of_insert by (try exact Hst; reflexivity)|].
    split; [|done]. simpl.
    by rewrite notifications_app; simpl; rewrite notifications_notified.
  - destruct (backend_getItem b (key h)) as [r|[r|]] eqn:Hg.
    + unfold exec. rewrite (hydrate_sync_spec w s st h Hst Hpr b _ Hres Hg). cbn [snd].
      rewrite processStoredData_nullish.
      split; [by erewrite state_of_insert by (try exact Hst; reflexivity)|].
      split; [|done]. simpl.
      by rewrite notifications_app; simpl; rewrite notifications_notified.
    + rewrite (hydration_fulfilled_spec w s st h b Hst Hpr Hres _ Hg).
      split; [by erewrite state_of_insert by (try exact Hst; reflexivity)|].
      split; [|done]. simpl.
      by rewrite notifications_app; simpl; rewrite notifications_notified.
    + rewrite (hydration_rejected_spec w s st h b Hst Hpr Hres Hg).
      split; [by erewrite state_of_insert by (try exact Hst; reflexivity)|].
      split; [|done]. simpl.
      by rewrite notifications_app; simpl; rewrite notifications_notified.
Qed.



(** The listener of the sample realm is called with the unchanged state. *)
Example sample_no_record_notification :
  let w := sample_world (Some (StorageInstance (sync_backend None))) in
  trace (exec (hydrate 0) w) = [BackendGet "counter"; Notified 0 7 sample_state].
Proof. reflexivity. Qed.

(** ** Claim C5 *)

(** A stored string that does not parse is treated as no stored value. *)
Lemma parse_failure_keeps_state w s st h b raw :
  stores w !! s = Some st ->
  pristine st h ->
  resolved_storage w h = jsonPersistStorage b ->
  JSON_parse w raw = None ->
  (backend_getItem b (key h) = Now (Some raw) \/
   backend_getItem b (key h) = Later (Some (Some raw))) ->
  state_of (completed_hydration w s h) s = state_of w s.
Proof.
  intros Hst Hpr Hres Hparse Hg.
  destruct (completed_hydration_spec w s st h Hst Hpr) as (H1 & _).
  rewrite H1. unfold state_of at 1. rewrite Hst. simpl. f_equal.
  unfold hydration_value, read_reply. rewrite Hres.
  destruct Hg as [-> | ->]; unfold parseJSON; by rewrite Hparse.
Qed.

(** A rejected read does not reject the hydration, but the [null] of the
    [catch] branch of [getItem] goes to [set] as it is. *)
Lemma rejected_read_sets_null w s st h b :
  stores w !! s = Some st ->
  pristine st h ->
  resolved_storage w h = jsonPersistStorage b ->
  backend_getItem b (key h) = Later None ->
  let w' := completed_hydration w s h in
  promise_state w' (length (heap w) + 3) = Some (Fulfilled JUndefined) /\
  state_of w' s = Some JNull.
Proof.
  intros Hst Hpr Hres Hg w'. subst w'.
  unfold completed_hydration, read_reply. rewrite Hres, Hg.
  rewrite (hydration_rejected_spec w s st h b Hst Hpr Hres Hg).
  split.
  - unfold promise_state. simpl.
    by rewrite lookup_tail.
  - by erewrite state_of_insert by (try exact Hst; reflexivity).
Qed.

(** C5, at the failing input. The asynchronous backend of the sample realm
    rejects its read: the hydration completes and its promise is fulfilled,
    so nothing propagates, but the container does not keep its state
    [{ count: 0, name: "igris" }]: the state is [null] afterwards. *)
Theorem C5_rejected_read_clobbers_state :
  let w := sample_world (Some (StorageInstance (async_backend None))) in
  let w' := run (hydration_jobs 0) (exec (hydrate 0) w) in
  state_of w 0 = Some sample_state /\
  promise_state w' 3 = Some (Fulfilled JUndefined) /\
  trace w' = [BackendGet "counter"; LogError "Error retrieving stored data:";
              Notified 0 7 JNull] /\
  state_of w' 0 = Some JNull.
Proof. repeat split. Qed.

(** ** Claim C8 *)




(** ** Claim C9 *)

Lemma adapter_getItem_async_spec b k o w :
  backend_getItem b k = Later o ->
  PersistStorage_getItem (jsonPersistStorage b) k w =
  (inr (length (heap w) + 1),
   with_heap (heap w ++ [external of_raw o; pending (AwaitParse (length (heap w)))])
     (with_trace (trace w ++ [BackendGet k]) w)).
Proof.
  intros Hg. unfold PersistStorage_getItem, jsonPersistStorage_getItem. rewrite Hg.
  unfold bind, emit, modify, ret, gets, runImmediately, alloc. simpl.
  rewrite !length_app. simpl. f_equal. world_eq. by rewrite <- !app_assoc.
Qed.

Lemma adapter_getItem_async_run b k r w :
  backend_getItem b k = Later (Some r) ->
  let n := length (heap w) in
  promise_state
    (run [ARun n; ARun (n + 1)]
       (exec (PersistStorage_getItem (jsonPersistStorage b) k) w)) (n + 1)
  = Some (Fulfilled (parseJSON (JSON_parse w) r)).
Proof.
  intros Hg n. subst n. unfold exec.
  rewrite (adapter_getItem_async_spec b k _ w Hg). cbn [snd].
  job run_external_spec.
  job run_parse_spec.
  rewrite run_nil, to_raw_of_raw. unfold promise_state. simpl.
  by rewrite lookup_tail.
Qed.

Lemma run_void_spec w p src c o :
  heap w !! p = Some (pending (AwaitVoid src)) ->
  heap w !! src = Some c -> cstate c = Some o ->
  run_job p w =
  (tt, with_heap (<[p := {| cstate := Some match o with
                                         | Fulfilled _ => Fulfilled JUndefined
                                         | Rejected => Rejected
                                         end;
                          cjob := AwaitVoid src |}]> (heap w)) w).
Proof.
  intros H Hi Ho. rewrite (run_job_pending _ _ _ H). cbn [resume].
  rewrite (bind_eq _ _ _ _ _ (outcome_eq _ _ _ Hi)). rewrite Ho.
  destruct o; by rewrite (settle_eq _ _ _ _ H).
Qed.

Lemma adapter_removeItem_async_spec b k o w :
  backend_removeItem b k = Later o ->
  PersistStorage_removeItem (jsonPersistStorage b) k w =
  (inr (length (heap w) + 1),
   with_heap (heap w ++ [external (fun _ => JUndefined) o;
                         pending (AwaitVoid (length (heap w)))])
     (with_trace (trace w ++ [BackendRemove k]) w)).
Proof.
  intros Hg. unfold PersistStorage_removeItem, jsonPersistStorage_removeItem. rewrite Hg.
  unfold bind, emit, modify, ret, gets, alloc. simpl.
  rewrite !length_app. simpl. f_equal. world_eq. by rewrite <- !app_assoc.
Qed.

Lemma adapter_removeItem_async_run b k w :
  backend_removeItem b k = Later (Some tt) ->
  let n := length (heap w) in
  promise_state
    (run [ARun n; ARun (n + 1)]
       (exec (PersistStorage_removeItem (jsonPersistStorage b) k) w)) (n + 1)
  = Some (Fulfilled JUndefined).
Proof.
  intros Hg n. subst n. unfold exec.
  rewrite (adapter_removeItem_async_spec b k _ w Hg). cbn [snd].
  job run_external_spec.
  job run_void_spec.
  rewrite run_nil. unfold promise_state. simpl.
  by rewrite lookup_tail.
Qed.

(** C9 as stated fails for [removeItem]: on a synchronous backend, whose
    own [removeItem] returns no promise, the adapter's [removeItem] returns
    a promise. *)
Lemma C9_removeItem_forces_promise :
  let b := sync_backend None in
  createJSONStorage (StorageInstance b) = Some (jsonPersistStorage b) /\
  backend_removeItem b "counter" = Now tt /\
  isPromise (eval (PersistStorage_removeItem (jsonPersistStorage b) "counter") empty_world)
    = true.
Proof. repeat split. Qed.

(** C9, amended. The adapter's [getItem] returns the parsed value itself
    when the backend answers at once, and on an asynchronous backend a
    promise that is fulfilled with that same parsed value once the
    backend's promise is; its [removeItem], an [async] function like its
    [setItem], returns a promise on every backend: one that is fulfilled
    already when the backend answered at once, and one that is fulfilled
    after the backend's promise otherwise. *)
Theorem C9_adapter_shapes (b : ActualStorage) (k : string) (w : World) :
  let adapter := jsonPersistStorage b in
  let n := length (heap w) in
  createJSONStorage (StorageInstance b) = Some adapter /\
  match backend_getItem b k with
  | Now r =>
      eval (PersistStorage_getItem adapter k) w = inl (parseJSON (JSON_parse w) r)
  | Later (Some r) =>
      eval (PersistStorage_getItem adapter k) w = inr (n + 1) /\
      promise_state (exec (PersistStorage_getItem adapter k) w) (n + 1) = None /\
      promise_state
        (run [ARun n; ARun (n + 1)] (exec (PersistStorage_getItem adapter k) w)) (n + 1)
      = Some (Fulfilled (parseJSON (JSON_parse w) r))
  | Later None =>
      eval (PersistStorage_getItem adapter k) w = inr (n + 1)
  end /\
  match backend_removeItem b k with
  | Now _ =>
      eval (PersistStorage_removeItem adapter k) w = inr n /\
      promise_state (exec (PersistStorage_removeItem adapter k) w) n
      = Some (Fulfilled JUndefined)
  | Later (Some _) =>
      eval (PersistStorage_removeItem adapter k) w = inr (n + 1) /\
      promise_state (exec (PersistStorage_removeItem adapter k) w) (n + 1) = None /\
      promise_state
        (run [ARun n; ARun (n + 1)] (exec (PersistStorage_removeItem adapter k) w)) (n + 1)
      = Some (Fulfilled JUndefined)
  | Later None =>
      eval (PersistStorage_removeItem adapter k) w = inr (n + 1)
  end.
Proof.
  intros adapter n. subst adapter n. split; [done|]. split.
  - destruct (backend_getItem b k) as [r|[r|]] eqn:Hg.
    + unfold eval, PersistStorage_getItem, jsonPersistStorage_getItem. by rewrite Hg.
    + split; [|split].
      * unfold eval. by rewrite (adapter_getItem_async_spec b k _ w Hg).
      * unfold exec. rewrite (adapter_getItem_async_spec b k _ w Hg).
        unfold promise_state. simpl. by rewrite lookup_tail.
      * by apply adapter_getItem_async_run.
    + unfold eval. by rewrite (adapter_getItem_async_spec b k _ w Hg).
  - destruct (backend_removeItem b k) as [[]|[[]|]] eqn:Hg.
    + unfold eval, exec, PersistStorage_removeItem, jsonPersistStorage_removeItem.
      rewrite Hg. split; [done|].
      unfold promise_state. simpl. by rewrite lookup_tail0.
    + split; [|split].
      * unfold eval. by rewrite (adapter_removeItem_async_spec b k _ w Hg).
      * unfold exec. rewrite (adapter_removeItem_async_spec b k _ w Hg).
        unfold promise_state. simpl. by rewrite lookup_tail.
      * by apply adapter_removeItem_async_run.
    + unfold eval. by rewrite (adapter_removeItem_async_spec b k _ w Hg).
Qed.

(** ** Debounced writes *)

Lemma timer_delay_cases d :
  (timer_delay d = d /\ 1 <= d /\ (Z.of_nat d <= TIMEOUT_MAX)%Z) \/
  (timer_delay d = 1 /\ (d = 0 \/ (TIMEOUT_MAX < Z.of_nat d)%Z)).
Proof.
  unfold timer_delay.
  destruct (Z.leb_spec 1 (Z.of_nat d)), (Z.leb_spec (Z.of_nat d) TIMEOUT_MAX); simpl;
    [left|right..]; repeat split; lia.
Qed.

(** A delay that the host keeps is not cut short. *)
Lemma timer_delay_ge d : (Z.of_nat d <= TIMEOUT_MAX)%Z -> d <= timer_delay d.
Proof. destruct (timer_delay_cases d) as [(-> & _)|(-> & [->|?])]; lia. Qed.

(** A timer has fired once its delay and one millisecond have passed. *)
Lemma timer_delay_le d q : d <= q -> 0 < q -> timer_delay d <= q.
Proof. destruct (timer_delay_cases d) as [(-> & _)|(-> & _)]; lia. Qed.

(** A delay above [TIMEOUT_MAX] is one millisecond. *)
Lemma timer_delay_long d : (TIMEOUT_MAX < Z.of_nat d)%Z -> timer_delay d = 1.
Proof. destruct (timer_delay_cases d) as [(_ & _ & ?)|(-> & _)]; [lia|done]. Qed.

Lemma with_now_id w : with_now (now w) w = w.
Proof. by destruct w. Qed.

Lemma cleared_own tid ts :
  (forall t, t ∈ ts -> tid = Some (timer_id t)) -> cleared tid ts = [].
Proof.
  intros H. destruct tid as [i|].
  - unfold cleared. induction ts as [|t ts IH]; simpl; [done|].
    assert (Some i = Some (timer_id t)) as [= ->] by (apply H; left).
    rewrite Nat.eqb_refl. simpl. apply IH. intros t' Ht'. apply H. by right.
  - destruct ts as [|t ts]; [done|]. by specialize (H t (list_elem_of_here _ _)).
Qed.

Lemma setItem_pending w s st h data :
  stores w !! s = Some st -> persist st = Some h ->
  (forall t, t ∈ timers w -> timeoutId h = Some (timer_id t)) ->
  exists w',
    PersistHandler_setItem s data w = (tt, w') /\
    write_pending w' s h data (now w + timer_delay (debounceTime (config h))) /\
    now w' = now w /\ trace w' = trace w /\ JSON_stringify w' = JSON_stringify w.
Proof.
  intros Hst Hp Hown. eexists. split; [by apply setItem_spec|].
  rewrite (cleared_own _ _ Hown). simpl.
  split; [|done].
  exists (map_persist (set_timeoutId (Some (next_timer w))) st),
         (set_timeoutId (Some (next_timer w)) h), (next_timer w).
  simpl. rewrite Hp. split; [by eapply lookup_insert_at|]. done.
Qed.

Lemma setItem_again w s h0 data0 due0 data :
  write_pending w s h0 data0 due0 ->
  exists w',
    PersistHandler_setItem s data w = (tt, w') /\
    write_pending w' s h0 data (now w + timer_delay (debounceTime (config h0))) /\
    now w' = now w /\ trace w' = trace w /\ JSON_stringify w' = JSON_stringify w.
Proof.
  intros (st & h & tid & Hst & Hp & Hs & Hc & Hk & Ht & Hts).
  destruct (setItem_pending w s st h data Hst Hp)
    as (w' & Heq & (st' & h' & tid' & H') & Hrest).
  { intros t. rewrite Hts, list_elem_of_singleton. intros ->. by rewrite Ht. }
  exists w'. split; [exact Heq|]. rewrite Hc in *. split; [|exact Hrest].
  exists st', h', tid'. destruct H' as (? & ? & ? & ? & ? & ? & ?).
  repeat split; try done; congruence.
Qed.

Lemma fire_due_idle w :
  (forall t, t ∈ timers w -> now w < due t) -> fire_due w = (tt, w).
Proof.
  intros H. unfold fire_due, bind, gets, modify. simpl.
  assert (Hf : forall ts, (forall t, t ∈ ts -> now w < due t) ->
     List.filter (fun x => negb (due x <=? now w)) ts = ts /\
     List.filter (fun x => due x <=? now w) ts = []).
  { induction ts as [|t ts IH]; intros Hts; simpl; [done|].
    assert (now w < due t) by (apply Hts; left).
    destruct (Nat.leb_spec (due t) (now w)); [lia|]. simpl.
    destruct IH as [-> ->]; [|done]. intros t' ?. apply Hts. by right. }
  destruct (Hf _ H) as [-> ->]. simpl. by rewrite with_timers_id.
Qed.

Lemma tick_idle w :
  (forall t, t ∈ timers w -> now w + 1 < due t) ->
  tick w = (tt, with_now (S (now w)) w).
Proof.
  intros H. unfold tick.
  assert (H1 : fire_due w = (tt, w))
    by (apply fire_due_idle; intros t Ht; specialize (H t Ht); lia).
  rewrite (bind_eq _ _ _ _ _ H1).
  unfold bind at 1, modify at 1.
  rewrite fire_due_idle; [done|]. simpl. intros t Ht. specialize (H t Ht). lia.
Qed.

Lemma advance_idle g w :
  (forall t, t ∈ timers w -> now w + g < due t) ->
  advance g w = (tt, with_now (now w + g) w).
Proof.
  revert w. induction g as [|g IH]; intros w H; simpl.
  - by rewrite Nat.add_0_r, with_now_id.
  - assert (H1 : tick w = (tt, with_now (S (now w)) w))
      by (apply tick_idle; intros t Ht; specialize (H t Ht); lia).
    rewrite (bind_eq _ _ _ _ _ H1).
    rewrite IH by (simpl; intros t Ht; specialize (H t Ht); lia).
    simpl. f_equal. world_eq. lia.
Qed.

Lemma advance_pending g w s h0 data due_ :
  write_pending w s h0 data due_ -> now w + g < due_ ->
  exists w',
    advance g w = (tt, w') /\
    write_pending w' s h0 data due_ /\ now w' = now w + g /\ trace w' = trace w /\
    JSON_stringify w' = JSON_stringify w.
Proof.
  intros Hw Hlt. eexists. split.
  - apply advance_idle.
    destruct Hw as (st & h & tid & _ & _ & _ & _ & _ & _ & ->).
    intros t ->%list_elem_of_singleton. simpl. done.
  - simpl. split; [|done]. destruct Hw as (st & h & tid & ?). by exists st, h, tid.
Qed.

Lemma persistWrite_spec w s st h b data str :
  stores w !! s = Some st -> persist st = Some h ->
  storage h = jsonPersistStorage b ->
  JSON_stringify w (stored_record (config h) data) = Some str ->
  exists new,
    persistWrite s data w =
    (tt, with_heap (heap w ++ new)
           (with_trace (trace w ++ [BackendSet (key h) str]) w)).
Proof.
  intros Hst Hp Hs Hstr. unfold stored_record in Hstr.
  destruct (backend_setItem b (key h) str) as [[]|o] eqn:Hb;
    [ exists [settled (Fulfilled JUndefined)]
    | exists [external (fun _ => JUndefined) o; pending (AwaitVoid (length (heap w)))] ];
    unfold persistWrite;
    bind_step the_handler_eq; rewrite Hs;
    unfold PersistStorage_setItem, jsonPersistStorage_setItem;
    unfold bind at 1 2 3, gets at 1; rewrite Hstr;
    unfold bind at 1, emit at 1, modify at 1; cbn [trace with_trace]; rewrite Hb;
    unfold bind, alloc, ret; simpl; f_equal; world_eq.
  by rewrite <- app_assoc.
Qed.

Lemma unit_result (m : M unit) w : m w = (tt, exec m w).
Proof. unfold exec. by destruct (m w) as [[] ?]. Qed.

Lemma fire_due_single w t :
  timers w = [t] -> due t <= now w ->
  fire_due w = (tt, exec (run_callback t) (with_timers [] w)).
Proof.
  intros Hts Hdue. unfold fire_due, bind at 1 2 3, gets, modify. rewrite !Hts. simpl.
  destruct (Nat.leb_spec (due t) (now w)); [|lia]. simpl.
  unfold bind. by rewrite (unit_result (run_callback t)).
Qed.

Section firing.
Context (s : nat) (h0 : PersistHandler) (b : ActualStorage) (data : JS) (str : string).
Hypothesis Hb : storage h0 = jsonPersistStorage b.

Lemma fire_due_fires w due_ :
  write_pending w s h0 data due_ -> due_ <= now w ->
  JSON_stringify w (stored_record (config h0) data) = Some str ->
  exists w',
    fire_due w = (tt, w') /\
    trace w' = trace w ++ [BackendSet (key h0) str] /\ timers w' = [] /\
    now w' = now w /\ JSON_stringify w' = JSON_stringify w.
Proof using Hb.
  intros (st & h & tid & Hst & Hp & Hs & Hc & Hk & Ht & Hts) Hdue Hstr.
  rewrite <- Hc in Hstr. rewrite Hb in Hs. rewrite <- Hk.
  destruct (persistWrite_spec (with_timers [] w) s st h b data str Hst Hp Hs Hstr)
    as [new Hw].
  eexists. split.
  - rewrite (fire_due_single w _ Hts Hdue). cbn [run_callback callback].
    unfold exec. by rewrite Hw.
  - done.
Qed.

Lemma tick_fires w due_ :
  write_pending w s h0 data due_ -> due_ <= now w + 1 ->
  JSON_stringify w (stored_record (config h0) data) = Some str ->
  exists w',
    tick w = (tt, w') /\
    trace w' = trace w ++ [BackendSet (key h0) str] /\ timers w' = [] /\
    now w' = now w + 1 /\ JSON_stringify w' = JSON_stringify w.
Proof using Hb.
  intros Hw Hdue Hstr. unfold tick.
  destruct (decide (due_ <= now w)) as [Hle|Hgt].
  - destruct (fire_due_fires w due_ Hw Hle Hstr) as (w1 & Heq & H1 & H2 & H3 & H4).
    eexists. split.
    + rewrite (bind_eq _ _ _ _ _ Heq). unfold bind at 1, modify at 1.
      apply fire_due_idle. simpl. rewrite H2. intros t Ht. by apply elem_of_nil in Ht.
    + simpl. rewrite H3. split; [done|]. split; [done|]. split; [lia|done].
  - assert (Hidle : fire_due w = (tt, w)).
    { apply fire_due_idle. destruct Hw as (st & h & tid & _ & _ & _ & _ & _ & _ & ->).
      intros t ->%list_elem_of_singleton. simpl. lia. }
    destruct (fire_due_fires (with_now (S (now w)) w) due_) as (w1 & Heq & H1 & H2 & H3 & H4).
    + destruct Hw as (st & h & tid & ?). by exists st, h, tid.
    + simpl. lia.
    + exact Hstr.
    + exists w1. split.
      * rewrite (bind_eq _ _ _ _ _ Hidle). unfold bind at 1, modify at 1. exact Heq.
      * simpl in *. split; [done|]. split; [done|]. split; [lia|done].
Qed.

Lemma advance_fires q : forall w due_,
  write_pending w s h0 data due_ -> due_ <= now w + q -> 0 < q ->
  JSON_stringify w (stored_record (config h0) data) = Some str ->
  exists w',
    advance q w = (tt, w') /\
    trace w' = trace w ++ [BackendSet (key h0) str] /\ timers w' = [].
Proof using Hb.
  induction q as [|q IH]; intros w due_ Hw Hdue Hq Hstr; [lia|].
  simpl.
  destruct (decide (due_ <= now w + 1)) as [Hle|Hgt].
  - destruct (tick_fires w due_ Hw Hle Hstr) as (w1 & Heq & H1 & H2 & H3 & H4).
    eexists. split.
    + rewrite (bind_eq _ _ _ _ _ Heq). apply advance_idle.
      rewrite H2. intros t Ht. by apply elem_of_nil in Ht.
    + simpl. done.
  - assert (Hidle : tick w = (tt, with_now (S (now w)) w)).
    { apply tick_idle. destruct Hw as (st & h & tid & _ & _ & _ & _ & _ & _ & ->).
      intros t ->%list_elem_of_singleton. simpl. lia. }
    destruct (IH (with_now (S (now w)) w) due_) as (w1 & Heq & H1 & H2).
    + destruct Hw as (st & h & tid & ?). by exists st, h, tid.
    + simpl. lia.
    + lia.
    + exact Hstr.
    + exists w1. split; [by rewrite (bind_eq _ _ _ _ _ Hidle)|]. done.
Qed.
End firing.

Lemma last_data_cons data g d rest :
  last_data data ((g, d) :: rest) = last_data d rest.
Proof.
  unfold last_data. simpl. destruct (map snd rest) as [|x l] eqn:E; [done|].
  clear E. revert x. induction l as [|y l IH]; intros x; [done|]. simpl in *. apply IH.
Qed.

Lemma burst_rest_pending s h0 rest : forall w data,
  (Z.of_nat (debounceTime (config h0)) <= TIMEOUT_MAX)%Z ->
  write_pending w s h0 data (now w + timer_delay (debounceTime (config h0))) ->
  Forall (fun gd : nat * JS => gd.1 < debounceTime (config h0)) rest ->
  exists w',
    forEach rest (fun gd => advance gd.1 >>> PersistHandler_setItem s gd.2) w = (tt, w') /\
    write_pending w' s h0 (last_data data rest) (now w' + timer_delay (debounceTime (config h0))) /\
    trace w' = trace w /\ JSON_stringify w' = JSON_stringify w.
Proof.
  induction rest as [|[g d] rest IH]; intros w data Hmax Hw Hall.
  - by exists w.
  - apply Forall_cons in Hall as [Hg Hall]. simpl in Hg.
    pose proof (timer_delay_ge _ Hmax) as Hge.
    destruct (advance_pending g w s h0 data _ Hw) as (w1 & E1 & Hw1 & Hn1 & Ht1 & Hj1); [lia|].
    destruct (setItem_again w1 s h0 data _ d Hw1) as (w2 & E2 & Hw2 & Hn2 & Ht2 & Hj2).
    rewrite <- Hn2 in Hw2.
    destruct (IH w2 d Hmax Hw2 Hall) as (w3 & E3 & Hw3 & Ht3 & Hj3).
    exists w3. split.
    + simpl. rewrite bind_assoc. rewrite (bind_eq _ _ _ _ _ E1).
      by rewrite (bind_eq _ _ _ _ _ E2).
    + rewrite last_data_cons. split; [done|]. split; congruence.
Qed.

(** A burst of a handler whose pending timer, if any, is the only one: after
    the quiet period the trace has gained the write of the last call, and
    no timer is left. *)
Lemma burst_alone (w : World) (s : nat) (st : IgrisMaster)
    (h : PersistHandler) (b : ActualStorage) (first : JS)
    (rest : list (nat * JS)) (quiet : nat) (str : string) :
  stores w !! s = Some st ->
  persist st = Some h ->
  storage h = jsonPersistStorage b ->
  (forall t, t ∈ timers w -> timeoutId h = Some (timer_id t)) ->
  (Z.of_nat (debounceTime (config h)) <= TIMEOUT_MAX)%Z ->
  Forall (fun gd : nat * JS => gd.1 < debounceTime (config h)) rest ->
  debounceTime (config h) <= quiet ->
  0 < quiet ->
  JSON_stringify w (stored_record (config h) (last_data first rest)) = Some str ->
  let w' := exec (burst s first rest >>> advance quiet) w in
  trace w' = trace w ++ [BackendSet (key h) str] /\
  count is_backend_write (trace w') = count is_backend_write (trace w) + 1 /\
  timers w' = [].
Proof.
  intros Hst Hp Hs Hown Hmax Hgaps Hquiet Hpos Hstr w'. subst w'.
  destruct (setItem_pending w s st h first Hst Hp Hown)
    as (w1 & E1 & Hw1 & Hn1 & Ht1 & Hj1).
  rewrite <- Hn1 in Hw1.
  destruct (burst_rest_pending s h rest w1 first Hmax Hw1 Hgaps)
    as (w2 & E2 & Hw2 & Ht2 & Hj2).
  pose proof (timer_delay_le _ _ Hquiet Hpos) as Hle.
  destruct (advance_fires s h b (last_data first rest) str Hs quiet w2 _ Hw2)
    as (w3 & E3 & Ht3 & Hts3); [lia | lia | congruence |].
  assert (E : (burst s first rest >>> advance quiet) w = (tt, w3)).
  { unfold burst. rewrite bind_assoc, (bind_eq _ _ _ _ _ E1).
    by rewrite (bind_eq _ _ _ _ _ E2). }
  unfold exec. rewrite E. cbn [snd].
  assert (Htr : trace w3 = trace w ++ [BackendSet (key h) str]) by congruence.
  split; [exact Htr|]. split; [|exact Hts3].
  by rewrite Htr, count_app.
Qed.

(** Three increments within one window of 100 ms: one write, the last
    value. *)
Example sample_three_increments :
  let w := exec (hydrate 0) (sample_world (Some (StorageInstance (sync_backend None)))) in
  let counter n := JObj (<["count" := JNum n]> ∅) in
  List.filter is_backend_write
    (trace (run [ASet 0 (Value (counter 1%Z)); ASet 0 (Value (counter 2%Z));
                 ASet 0 (Value (counter 3%Z))] w))
    = [] /\
  List.filter is_backend_write
    (trace (exec (advance 100)
              (run [ASet 0 (Value (counter 1%Z)); ASet 0 (Value (counter 2%Z));
                    ASet 0 (Value (counter 3%Z))] w)))
    = [BackendSet "counter" "{value:{count:3}}"].
Proof. split; reflexivity. Qed.

(** ** Frames: what the operations leave alone *)

Lemma store_op_ret {A} (a : A) : store_op (ret a).
Proof. intros w. split; [done|]. exists []. by rewrite app_nil_r. Qed.

Lemma store_op_gets {A} (f : World -> A) : store_op (gets f).
Proof. intros w. split; [done|]. exists []. by rewrite app_nil_r. Qed.

Lemma store_op_modify f :
  (forall w, gates (f w) = gates w) -> (forall w, heap (f w) = heap w) ->
  store_op (modify f).
Proof.
  intros Hg Hh w. simpl. split; [apply Hg|]. exists []. by rewrite app_nil_r, Hh.
Qed.

Lemma store_op_alloc c : plain c -> store_op (alloc c).
Proof. intros Hc w. split; [done|]. exists [c]. split; [done|]. by constructor. Qed.

Lemma store_op_bind {A B} (m : M A) (k : A -> M B) :
  store_op m -> (forall a, store_op (k a)) -> store_op (bind m k).
Proof.
  intros Hm Hk w. unfold bind. destruct (Hm w) as (Hg1 & new1 & Hh1 & Hp1).
  destruct (m w) as [a w1]. simpl in *.
  destruct (Hk a w1) as (Hg2 & new2 & Hh2 & Hp2).
  split; [congruence|]. exists (new1 ++ new2).
  rewrite Hh2, Hh1, app_assoc. split; [done|]. by apply Forall_app.
Qed.

Lemma store_op_forEach {A} (l : list A) (body : A -> M unit) :
  (forall x, store_op (body x)) -> store_op (forEach l body).
Proof.
  intros Hb. induction l as [|x l IH]; simpl.
  - apply store_op_ret.
  - apply store_op_bind; [apply Hb|]. intros _. apply IH.
Qed.

Create HintDb store_op.
#[local] Hint Resolve store_op_ret store_op_gets store_op_alloc store_op_forEach : store_op.

Ltac store_op_step :=
  first
    [ assumption
    | solve [ auto with store_op ]
    | apply store_op_ret
    | apply store_op_gets
    | apply store_op_bind; [ | intros ? ]
    | apply store_op_modify; [ intros ?; reflexivity | intros ?; reflexivity ]
    | apply store_op_alloc; exact I
    | apply store_op_forEach; intros ?
    | match goal with
      | |- store_op (match ?x with _ => _ end) => destruct x
      | |- store_op (if ?x then _ else _) => destruct x
      | |- store_op (let (_, _) := ?x in _) => destruct x
      end
    | solve [ auto with store_op ] ].

Ltac store_op_tac := repeat store_op_step.

Lemma store_op_emit e : store_op (emit e).
Proof. unfold emit. store_op_tac. Qed.
#[local] Hint Resolve store_op_emit : store_op.

Lemma store_op_the_store s : store_op (the_store s).
Proof. unfold the_store. store_op_tac. Qed.
Lemma store_op_the_handler s : store_op (the_handler s).
Proof. unfold the_handler. store_op_tac. Qed.
Lemma store_op_modify_store s f : store_op (modify_store s f).
Proof. unfold modify_store. store_op_tac. Qed.
Lemma store_op_modify_handler s f : store_op (modify_handler s f).
Proof. apply store_op_modify_store. Qed.
#[local] Hint Resolve store_op_the_store store_op_the_handler store_op_modify_store
  store_op_modify_handler : store_op.

Lemma store_op_setTimeout cb d : store_op (setTimeout cb d).
Proof. unfold setTimeout. store_op_tac. Qed.
Lemma store_op_clearTimeout id : store_op (clearTimeout id).
Proof. unfold clearTimeout. store_op_tac. Qed.
#[local] Hint Resolve store_op_setTimeout store_op_clearTimeout : store_op.

Lemma store_op_setItem s d : store_op (PersistHandler_setItem s d).
Proof. unfold PersistHandler_setItem. store_op_tac. Qed.
#[local] Hint Resolve store_op_setItem : store_op.

Lemma store_op_storage_getItem st k : store_op (PersistStorage_getItem st k).
Proof.
  unfold PersistStorage_getItem, jsonPersistStorage_getItem, logWarningAndReturn,
    runImmediately, external. store_op_tac.
Qed.
Lemma store_op_storage_setItem st k v : store_op (PersistStorage_setItem st k v).
Proof.
  unfold PersistStorage_setItem, jsonPersistStorage_setItem, logWarningAndReturn,
    external. store_op_tac.
Qed.
#[local] Hint Resolve store_op_storage_getItem store_op_storage_setItem : store_op.

Lemma store_op_persistWrite s d : store_op (persistWrite s d).
Proof. unfold persistWrite. store_op_tac. Qed.
#[local] Hint Resolve store_op_persistWrite : store_op.

Lemma store_op_notify s : store_op (notify s).
Proof. unfold notify, call_listener. store_op_tac. Qed.
#[local] Hint Resolve store_op_notify : store_op.

Lemma store_op_set_value s v : store_op (IgrisMaster_set_value s v).
Proof. unfold IgrisMaster_set_value. store_op_tac. Qed.
#[local] Hint Resolve store_op_set_value : store_op.

Lemma store_op_subscribe s l : store_op (IgrisMaster_subscribe s l).
Proof. unfold IgrisMaster_subscribe. store_op_tac. Qed.
Lemma store_op_unsubscribe s l : store_op (IgrisMaster_unsubscribe s l).
Proof. unfold IgrisMaster_unsubscribe. store_op_tac. Qed.
#[local] Hint Resolve store_op_subscribe store_op_unsubscribe : store_op.

Lemma store_op_subscribeStore s : store_op (subscribeStore s).
Proof. unfold subscribeStore. store_op_tac. Qed.
Lemma store_op_initializeStorage s : store_op (initializeStorage s).
Proof. unfold initializeStorage. store_op_tac. Qed.
Lemma store_op_getItem s : store_op (PersistHandler_getItem s).
Proof. unfold PersistHandler_getItem, runImmediately. store_op_tac. Qed.
Lemma store_op_hydrate_cached s : store_op (hydrate_cached s).
Proof. unfold hydrate_cached. store_op_tac. Qed.
#[local] Hint Resolve store_op_subscribeStore store_op_initializeStorage store_op_getItem
  store_op_hydrate_cached : store_op.

Lemma store_op_hydrate s : store_op (hydrate s).
Proof. unfold hydrate, runImmediately. store_op_tac. Qed.
#[local] Hint Resolve store_op_hydrate : store_op.

Lemma store_op_initializeValue s : store_op (initializeValue s).
Proof. unfold initializeValue. store_op_tac. Qed.
#[local] Hint Resolve store_op_initializeValue : store_op.
Lemma store_op_get s : store_op (IgrisMaster_get s).
Proof. unfold IgrisMaster_get. store_op_tac. Qed.
#[local] Hint Resolve store_op_get : store_op.
Lemma store_op_set s a : store_op (IgrisMaster_set s a).
Proof. unfold IgrisMaster_set. store_op_tac. Qed.
#[local] Hint Resolve store_op_set : store_op.

Lemma store_op_setupHydrator_loop ss cfg : store_op (setupHydrator_loop ss cfg).
Proof. induction ss as [|s ss IH]; simpl; store_op_tac. Qed.
#[local] Hint Resolve store_op_setupHydrator_loop : store_op.
Lemma store_op_setupHydrator ss cfg : store_op (setupHydrator ss cfg).
Proof. unfold setupHydrator, runImmediately. store_op_tac. Qed.
#[local] Hint Resolve store_op_setupHydrator : store_op.

Lemma store_op_fire_due : store_op fire_due.
Proof. unfold fire_due, run_callback. store_op_tac. Qed.
#[local] Hint Resolve store_op_fire_due : store_op.
Lemma store_op_tick : store_op tick.
Proof. unfold tick. store_op_tac. Qed.
#[local] Hint Resolve store_op_tick : store_op.
Lemma store_op_advance n : store_op (advance n).
Proof. induction n; simpl; store_op_tac. Qed.

Lemma store_op_gate_op g {A} (m : M A) : store_op m -> gate_op g m.
Proof. intros H w. destruct (H w) as [-> ?]. done. Qed.

Lemma gate_op_bind g {A B} (m : M A) (k : A -> M B) :
  gate_op g m -> (forall a, gate_op g (k a)) -> gate_op g (bind m k).
Proof.
  intros Hm Hk w. unfold bind. destruct (Hm w) as (Hg1 & new1 & Hh1 & Hp1).
  destruct (m w) as [a w1]. simpl in *.
  destruct (Hk a w1) as (Hg2 & new2 & Hh2 & Hp2).
  split.
  - intros g' Hne. by rewrite Hg2, Hg1.
  - exists (new1 ++ new2).
    rewrite Hh2, Hh1, app_assoc. split; [done|]. by apply Forall_app.
Qed.

Lemma gate_op_modify_gate g f : gate_op g (modify_gate g f).
Proof.
  intros w. simpl. split.
  - intros g' Hne. by rewrite list_lookup_alter_ne.
  - exists []. by rewrite app_nil_r.
Qed.

Ltac gate_op_step :=
  first
    [ assumption
    | apply store_op_gate_op; solve [ auto with store_op | store_op_tac ]
    | apply gate_op_modify_gate
    | apply gate_op_bind; [ | intros ? ]
    | match goal with
      | |- gate_op _ (match ?x with _ => _ end) => destruct x
      | |- gate_op _ (if ?x then _ else _) => destruct x
      end ].

Ltac gate_op_tac := repeat gate_op_step.

Lemma store_op_the_gate g : store_op (the_gate g).
Proof. unfold the_gate. store_op_tac. Qed.
#[local] Hint Resolve store_op_the_gate : store_op.

Lemma gate_op_getSnapshot g : gate_op g (getSnapshot g).
Proof. unfold getSnapshot, runImmediately. gate_op_tac. Qed.

Lemma gate_op_render g : gate_op g (render g).
Proof.
  unfold render. apply gate_op_bind; [apply gate_op_getSnapshot|]. intros ?. gate_op_tac.
Qed.

Lemma gate_op_onStoreChange g : gate_op g (onStoreChange g).
Proof.
  unfold onStoreChange. apply gate_op_bind; [apply gate_op_render|]. intros ?. gate_op_tac.
Qed.

Lemma getSnapshot_cached w g gate :
  gates w !! g = Some gate -> promiseRef gate <> RefUndefined ->
  getSnapshot g w = (isHydrated gate, w).
Proof.
  intros Hg Hr. unfold getSnapshot, bind at 1, the_gate at 1, gets. rewrite Hg.
  destruct (promiseRef gate); [done| |]; unfold bind, ret, the_gate, gets; by rewrite Hg.
Qed.

Lemma render_cached w g gate :
  gates w !! g = Some gate -> promiseRef gate <> RefUndefined ->
  let out := if isHydrated gate then Children else LoadingComponent in
  render g w = (out, with_gates (<[g := set_rendered (Some out) gate]> (gates w)) w).
Proof.
  intros Hg Hr out. unfold render.
  rewrite (bind_eq _ _ _ _ _ (getSnapshot_cached w g gate Hg Hr)).
  unfold bind, modify_gate, modify, ret. by erewrite alter_at.
Qed.

(** ** Effects of the jobs and of the actions *)

Lemma all_outcome_rejected w ps :
  all_outcome (map (promise_state w) ps) = Some Rejected ->
  Exists (rejected w) ps.
Proof.
  induction ps as [|p ps IH]; intros H; [done|].
  simpl in H. unfold rejected.
  destruct (promise_state w p) as [[v1|]|] eqn:Hp;
    destruct (all_outcome (map (promise_state w) ps)) as [[v2|]|] eqn:Hps;
    try discriminate; try (destruct v2; discriminate);
    first [ by apply Exists_cons_hd | apply Exists_cons_tl; by apply IH ].
Qed.

Lemma all_outcome_all_fulfilled w ps :
  Forall (fulfilled w) ps ->
  exists vs, all_outcome (map (promise_state w) ps) = Some (Fulfilled (JArr vs)).
Proof.
  induction 1 as [|p ps [v Hp] _ [vs IH]]; simpl; [by exists []|].
  rewrite Hp, IH. by exists (v :: vs).
Qed.

Lemma all_outcome_fulfilled w ps v :
  all_outcome (map (promise_state w) ps) = Some (Fulfilled v) ->
  Forall (fulfilled w) ps.
Proof.
  revert v. induction ps as [|p ps IH]; intros v H; [constructor|].
  simpl in H.
  destruct (promise_state w p) as [[v1|]|] eqn:Hp;
    destruct (all_outcome (map (promise_state w) ps)) as [[v2|]|] eqn:Hps;
    try discriminate; try (destruct v2; discriminate).
  constructor; [by exists v1 | by eapply IH].
Qed.

Lemma settle_after w w1 r c o new :
  heap w !! r = Some c -> heap w1 = heap w ++ new ->
  heap (exec (settle r o) w1)
    = <[r := {| cstate := Some o; cjob := cjob c |}]> (heap w) ++ new /\
  gates (exec (settle r o) w1) = gates w1.
Proof.
  intros Hr Hh. unfold exec, settle, modify. simpl. split; [|done].
  rewrite Hh. erewrite alter_at by (by apply lookup_app_l_Some).
  rewrite insert_app_l by (by eapply lookup_lt_Some). done.
Qed.

Lemma job_effect_idle r w : job_effect r w w.
Proof. exists []. split; [constructor|]. left. by rewrite app_nil_r. Qed.

Lemma job_effect_settle r w w1 c o new :
  heap w !! r = Some c -> cstate c = None -> justified w (cjob c) o ->
  heap w1 = heap w ++ new -> Forall plain new ->
  gate_effect c o w w1 ->
  job_effect r w (settle r o w1).2.
Proof.
  intros Hr Hc Hj Hh Hp Hg.
  destruct (settle_after w w1 r c o new Hr Hh) as [Hh' Hg']. unfold exec in *.
  exists new. split; [done|]. right. exists c, o. repeat split; done.
Qed.

Lemma job_effect_now r w j o :
  heap w !! r = Some {| cstate := None; cjob := j |} ->
  justified w j o ->
  match j, o with ThenOpen _ _, Fulfilled _ => False | _, _ => True end ->
  job_effect r w (settle r o w).2.
Proof.
  intros Hr Hj Hnt. eapply (job_effect_settle r w w _ o []); try done.
  - by rewrite app_nil_r.
  - unfold gate_effect. simpl. by destruct j, o.
Qed.

Lemma run_job_eq r w :
  run_job r w = match heap w !! r with
                | Some {| cstate := None; cjob := j |} => resume r j w
                | _ => (tt, w)
                end.
Proof. unfold run_job, bind, gets. by destruct (heap w !! r) as [[[]]|]. Qed.

Lemma await_eq {A} src (k : option Outcome -> M A) w :
  (let* o := outcome src in k o) w = k (promise_state w src) w.
Proof. reflexivity. Qed.

(** The reaction of a gate opens it, and the component shows its
    children. *)
Lemma open_gate_spec g w gate :
  gates w !! g = Some gate -> promiseRef gate <> RefUndefined ->
  gates ((modify_gate g (set_isHydrated true) >>> onStoreChange g) w).2 !! g
  = Some (set_rendered (Some Children) (set_isHydrated true gate)).
Proof.
  intros Hgt Hne. unfold bind at 1, modify_gate at 1, modify at 1.
  unfold onStoreChange. erewrite alter_at by done.
  assert (Hrc := render_cached
            (with_gates (<[g := set_isHydrated true gate]> (gates w)) w)
            g (set_isHydrated true gate)).
  simpl in Hrc. rewrite (bind_eq _ _ _ _ _ (Hrc ltac:(by erewrite lookup_insert_at) Hne)).
  simpl. rewrite list_insert_insert_eq. by erewrite lookup_insert_at.
Qed.

Lemma run_job_effect r w : job_effect r w (exec (run_job r) w).
Proof.
  unfold exec. rewrite run_job_eq.
  destruct (heap w !! r) as [[st j]|] eqn:Hr; [|apply job_effect_idle].
  destruct st as [o0|]; [apply job_effect_idle|].
  destruct j as [|o|item|s src|s src|src|ps|src|g src]; cbn [resume].
  - apply job_effect_idle.
  - by eapply job_effect_now.
  - rewrite await_eq. destruct (promise_state w item) as [[v|]|];
      [|by eapply job_effect_now|apply job_effect_idle].
    unfold bind, gets. by eapply job_effect_now.
  - rewrite await_eq. destruct (promise_state w src) as [[v|]|];
      [| |apply job_effect_idle].
    + unfold bind, the_store, the_handler, gets.
      destruct (stores w !! s) as [st|]; simpl;
        [destruct (persist st)|]; by eapply job_effect_now.
    + unfold bind, emit, modify.
      eapply (job_effect_settle r w _ _ (Fulfilled JNull) []); try done.
      simpl. by rewrite app_nil_r.
  - rewrite await_eq. destruct (promise_state w src) as [[v|]|];
      [|by eapply job_effect_now|apply job_effect_idle].
    destruct (store_op_set_value s v w) as (Hg & new & Hh & Hp).
    unfold bind. destruct (IgrisMaster_set_value s v w) as [[] w1]. simpl in *.
    by eapply (job_effect_settle r w w1 _ _ new).
  - rewrite await_eq. destruct (promise_state w src) as [[v|]|];
      [by eapply job_effect_now|by eapply job_effect_now|apply job_effect_idle].
  - unfold bind, gets.
    destruct (all_outcome _) as [o|] eqn:Ho; [|apply job_effect_idle].
    eapply job_effect_now; [done| |done]. destruct o; simpl.
    + eapply all_outcome_fulfilled. unfold promise_state. exact Ho.
    + by apply all_outcome_rejected.
  - rewrite await_eq. destruct (promise_state w src) as [[v|]|] eqn:Hs;
      [|by eapply job_effect_now|apply job_effect_idle].
    eapply job_effect_now; [done| |done]. simpl. by exists v.
  - rewrite await_eq. destruct (promise_state w src) as [[v|]|] eqn:Hs;
      [|by eapply job_effect_now|apply job_effect_idle].
    (* the gate opens *)
    assert (Hop : gate_op g (modify_gate g (set_isHydrated true) >>> onStoreChange g)).
    { apply gate_op_bind; [apply gate_op_modify_gate|]. intros _. apply gate_op_onStoreChange. }
    destruct (Hop w) as (Hg & new & Hh & Hp).
    pose proof (open_gate_spec g w) as Hgate.
    rewrite <- bind_assoc.
    unfold bind at 1.
    destruct ((modify_gate g (set_isHydrated true) >>> onStoreChange g) w) as [[] w1].
    simpl in Hg, Hh, Hgate.
    eapply (job_effect_settle r w w1 _ _ new); try done.
    simpl. by exists v.
Qed.

Lemma mount_effect g w :
  gates (exec (mount g) w) = gates w /\
  exists new, heap (exec (mount g) w) = heap w ++ new /\ Forall (subscription w g) new.
Proof.
  assert (Hidle : gates w = gates w /\
            exists new, heap w = heap w ++ new /\ Forall (subscription w g) new).
  { split; [done|]. exists []. by rewrite app_nil_r. }
  unfold exec. destruct (mount g w) as [[] w'] eqn:E. simpl.
  unfold mount, bind, the_gate, gets in E.
  destruct (gates w !! g) as [gate|] eqn:Hg; [|by injection E as <-].
  destruct gate as [pr ref hyd [out|]]; [|by injection E as <-].
  unfold subscribe, bind, the_gate, gets in E. rewrite Hg in E. cbn [isHydrated] in E.
  destruct hyd; [by injection E as <-|]. cbn [promiseRef] in E.
  destruct ref as [| |p]; simpl in E; injection E as <-; (split; [done|]).
  - eexists [_; _]. simpl. rewrite <- app_assoc. split; [done|].
    repeat constructor. unfold subscription. simpl. repeat split.
    intros gate p. rewrite Hg. by intros [= <-].
  - eexists [_; _]. simpl. rewrite <- app_assoc. split; [done|].
    repeat constructor. unfold subscription. simpl. repeat split.
    intros gate p. rewrite Hg. by intros [= <-].
  - eexists [_]. split; [done|].
    repeat constructor. unfold subscription. simpl. repeat split.
    intros gate p'. rewrite Hg. intros [= <-]. simpl. by intros [= <-].
Qed.

Lemma store_op_exec {A} (m : M A) w :
  store_op m ->
  gates (exec m w) = gates w /\
  exists new, heap (exec m w) = heap w ++ new /\ Forall plain new.
Proof. intros H. apply H. Qed.

Lemma step_effect_step a w : step_effect a w (exec (step a) w).
Proof.
  destruct a as [p| | | | | | | | |g|g]; cbn [step_effect step];
    try (apply store_op_exec; solve [store_op_tac]).
  - apply run_job_effect.
  - assert (H : gate_op g (render g >>> ret tt)).
    { apply gate_op_bind; [apply gate_op_render|]. intros ?. gate_op_tac. }
    apply H.
  - apply mount_effect.
Qed.

(** Every action leaves the cells of the heap in place: a cell keeps its
    job, and a settled cell keeps its outcome. *)
Lemma cell_step a w (r : pid) c :
  heap w !! r = Some c ->
  heap (exec (step a) w) !! r = Some c \/
  cstate c = None /\
  exists o, heap (exec (step a) w) !! r = Some {| cstate := Some o; cjob := cjob c |} /\
            justified w (cjob c) o.
Proof.
  intros Hr. pose proof (step_effect_step a w) as H.
  assert (Hgrow : forall new, heap (exec (step a) w) = heap w ++ new ->
                              heap (exec (step a) w) !! r = Some c).
  { intros new ->. by apply lookup_app_l_Some. }
  destruct a as [p| | | | | | | | |g|g]; cbn [step_effect] in H;
    try (destruct H as (_ & new & Hh & _); left; by eapply Hgrow).
  destruct H as (new & _ & [[Hh _]|(c0 & o & Hc0 & Hst & Hj & Hh & _)]);
    [left; by eapply Hgrow|].
  destruct (decide (r = p)) as [->|Hne].
  - right. assert (c0 = c) as ->.
    { pose proof (eq_trans (eq_sym Hr) Hc0) as E. by injection E. } split; [done|]. exists o. split; [|done].
    rewrite Hh. apply lookup_app_l_Some. apply list_lookup_insert_eq.
    by eapply lookup_lt_Some.
  - left. rewrite Hh. apply lookup_app_l_Some.
    by rewrite list_lookup_insert_ne.
Qed.

Lemma settled_step a w p o :
  promise_state w p = Some o -> promise_state (exec (step a) w) p = Some o.
Proof.
  unfold promise_state. intros H.
  destruct (heap w !! p) as [c|] eqn:Hp; [|done]. simpl in H.
  destruct (cell_step a w p c Hp) as [->|[Hn _]]; [done|congruence].
Qed.

Lemma run_snoc acts a w : run (acts ++ [a]) w = exec (step a) (run acts w).
Proof. unfold run. by rewrite fold_left_app. Qed.

Lemma run_app acts acts' w : run (acts ++ acts') w = run acts' (run acts w).
Proof. unfold run. by rewrite fold_left_app. Qed.

Lemma settled_run acts w p o :
  promise_state w p = Some o -> promise_state (run acts w) p = Some o.
Proof.
  revert w. induction acts as [|a acts IH]; intros w H; [done|].
  rewrite run_cons. apply IH. by apply settled_step.
Qed.

Lemma fulfilled_run acts w p : fulfilled w p -> fulfilled (run acts w) p.
Proof. intros [v H]. exists v. by apply settled_run. Qed.


(** ** Frames: the [hydrate] methods *)

Lemma keeps_methods_ret {A} (a : A) : keeps_methods (ret a).
Proof. done. Qed.

Lemma keeps_methods_gets {A} (f : World -> A) : keeps_methods (gets f).
Proof. done. Qed.

Lemma keeps_methods_modify f :
  (forall w, stores (f w) = stores w) -> keeps_methods (modify f).
Proof. intros H w s. unfold method_of. simpl. by rewrite H. Qed.

Lemma keeps_methods_alloc c : keeps_methods (alloc c).
Proof. done. Qed.

Lemma keeps_methods_bind {A B} (m : M A) (k : A -> M B) :
  keeps_methods m -> (forall a, keeps_methods (k a)) -> keeps_methods (bind m k).
Proof.
  intros Hm Hk w s. unfold bind. specialize (Hm w s).
  destruct (m w) as [a w1]. simpl in *. by rewrite Hk.
Qed.

Lemma keeps_methods_forEach {A} (l : list A) (body : A -> M unit) :
  (forall x, keeps_methods (body x)) -> keeps_methods (forEach l body).
Proof.
  intros Hb. induction l as [|x l IH]; simpl; [done|].
  apply keeps_methods_bind; [apply Hb|]. intros _. apply IH.
Qed.

Lemma method_of_modify_store w s f s' :
  method_of (exec (modify_store s f) w) s'
  = if decide (s' = s) then hydrate_method <$> (stores w !! s ≫= fun st => persist (f st))
    else method_of w s'.
Proof.
  unfold method_of, exec, modify_store, modify. simpl.
  destruct (decide (s' = s)) as [->|Hne].
  - rewrite list_lookup_alter_eq. by destruct (stores w !! s).
  - by rewrite list_lookup_alter_ne.
Qed.

Lemma keeps_methods_modify_store s f :
  (forall st, hydrate_method <$> persist (f st) = hydrate_method <$> persist st) ->
  keeps_methods (modify_store s f).
Proof.
  intros Hf w s'. fold (exec (modify_store s f) w). rewrite method_of_modify_store.
  destruct (decide (s' = s)) as [->|]; [|done].
  unfold method_of. destruct (stores w !! s); simpl; [apply Hf|done].
Qed.

Lemma keeps_methods_modify_handler s f :
  (forall h, hydrate_method (f h) = hydrate_method h) ->
  keeps_methods (modify_handler s f).
Proof.
  intros Hf. apply keeps_methods_modify_store. intros st. simpl.
  destruct (persist st); simpl; [by rewrite Hf|done].
Qed.

Create HintDb keeps_methods.
#[local] Hint Resolve keeps_methods_ret keeps_methods_gets keeps_methods_alloc : keeps_methods.

Ltac keeps_methods_step :=
  first
    [ assumption
    | solve [ auto with keeps_methods ]
    | apply keeps_methods_bind; [ | intros ? ]
    | apply keeps_methods_modify; intros ?; reflexivity
    | apply keeps_methods_modify_handler; intros ?; reflexivity
    | apply keeps_methods_modify_store; intros ?; simpl;
      repeat match goal with |- context [if ?x then _ else _] => destruct x end; reflexivity
    | apply keeps_methods_forEach; intros ?
    | match goal with
      | |- keeps_methods (match ?x with _ => _ end) => destruct x
      | |- keeps_methods (if ?x then _ else _) => destruct x
      end ].

Ltac keeps_methods_tac := repeat keeps_methods_step.

Lemma keeps_methods_emit e : keeps_methods (emit e).
Proof. unfold emit. keeps_methods_tac. Qed.
Lemma keeps_methods_the_store s : keeps_methods (the_store s).
Proof. done. Qed.
Lemma keeps_methods_the_handler s : keeps_methods (the_handler s).
Proof. done. Qed.
#[local] Hint Resolve keeps_methods_emit keeps_methods_the_store keeps_methods_the_handler
  : keeps_methods.

Lemma keeps_methods_setTimeout cb d : keeps_methods (setTimeout cb d).
Proof. unfold setTimeout. keeps_methods_tac. Qed.
Lemma keeps_methods_clearTimeout id : keeps_methods (clearTimeout id).
Proof. unfold clearTimeout. keeps_methods_tac. Qed.
#[local] Hint Resolve keeps_methods_setTimeout keeps_methods_clearTimeout : keeps_methods.

Lemma keeps_methods_setItem s d : keeps_methods (PersistHandler_setItem s d).
Proof. unfold PersistHandler_setItem. keeps_methods_tac. Qed.
#[local] Hint Resolve keeps_methods_setItem : keeps_methods.

Lemma keeps_methods_storage_getItem st k : keeps_methods (PersistStorage_getItem st k).
Proof.
  unfold PersistStorage_getItem, jsonPersistStorage_getItem, logWarningAndReturn,
    runImmediately, external. keeps_methods_tac.
Qed.
#[local] Hint Resolve keeps_methods_storage_getItem : keeps_methods.

Lemma keeps_methods_notify s : keeps_methods (notify s).
Proof. unfold notify, call_listener. keeps_methods_tac. Qed.
#[local] Hint Resolve keeps_methods_notify : keeps_methods.

Lemma keeps_methods_set_value s v : keeps_methods (IgrisMaster_set_value s v).
Proof. unfold IgrisMaster_set_value. keeps_methods_tac. Qed.
Lemma keeps_methods_subscribeStore s : keeps_methods (subscribeStore s).
Proof.
  unfold subscribeStore, IgrisMaster_subscribe, IgrisMaster_unsubscribe. keeps_methods_tac.
Qed.
Lemma keeps_methods_initializeStorage s : keeps_methods (initializeStorage s).
Proof. unfold initializeStorage. keeps_methods_tac. Qed.
Lemma keeps_methods_getItem s : keeps_methods (PersistHandler_getItem s).
Proof. unfold PersistHandler_getItem, runImmediately. keeps_methods_tac. Qed.
#[local] Hint Resolve keeps_methods_set_value keeps_methods_subscribeStore
  keeps_methods_initializeStorage keeps_methods_getItem : keeps_methods.

Lemma the_handler_method w s :
  the_handler s w = (stores w !! s ≫= persist, w).
Proof. reflexivity. Qed.

Lemma hydrate_cached_method w s r :
  method_of w s = Some (HydrateCached r) -> hydrate_cached s w = (r, w).
Proof.
  unfold method_of, hydrate_cached, bind, the_handler, gets.
  destruct (stores w !! s ≫= persist) as [[]|]; simpl; [|done].
  by intros [= ->].
Qed.

Lemma method_of_set_method w s m m0 :
  method_of w s = Some m0 ->
  method_of (exec (modify_handler s (set_hydrate_method m)) w) s = Some m.
Proof.
  intros H. unfold modify_handler. rewrite method_of_modify_store.
  rewrite decide_True by done. unfold method_of in H.
  destruct (stores w !! s) as [st|]; [|done]. simpl in *.
  by destruct (persist st).
Qed.

Lemma method_of_set_method_ne w s s' m :
  s' <> s ->
  method_of (exec (modify_handler s (set_hydrate_method m)) w) s' = method_of w s'.
Proof.
  intros H. unfold modify_handler. rewrite method_of_modify_store.
  by rewrite decide_False.
Qed.

Lemma hydrate_eq s w :
  hydrate s w = match method_of w s with
                | None => (None, w)
                | Some (HydrateCached r) => (r, w)
                | Some HydrateOriginal => hydrate_first s w
                end.
Proof.
  unfold hydrate, method_of, bind at 1, the_handler, gets.
  destruct (stores w !! s ≫= persist) as [h|]; simpl; [|done].
  by destruct (hydrate_method h).
Qed.

Lemma hydrate_first_handle s w :
  method_of w s = Some HydrateOriginal ->
  exists r w',
    hydrate_first s w = (r, w') /\
    (forall s', s' <> s -> method_of w' s' = method_of w s') /\
    method_of w' s = Some (HydrateCached r).
Proof.
  intros Hm.
  pose proof (keeps_methods_initializeStorage s w) as K1.
  destruct (initializeStorage s w) as [[] w1] eqn:E1. simpl in K1.
  pose proof (keeps_methods_getItem s w1) as K2.
  destruct (PersistHandler_getItem s w1) as [sv w2] eqn:E2. simpl in K2.
  assert (K12 : forall s', method_of w2 s' = method_of w s') by (intros; by rewrite K2, K1).
  clear K1 K2.
  assert (Hend : forall r w3,
            method_of w3 s = Some (HydrateCached r) ->
            (forall s', s' <> s -> method_of w3 s' = method_of w s') ->
            exists w',
              (subscribeStore s >>> hydrate_cached s) w3 = (r, w') /\
              (forall s', s' <> s -> method_of w' s' = method_of w s') /\
              method_of w' s = Some (HydrateCached r)).
  { intros r w3 H3 Hf.
    pose proof (keeps_methods_subscribeStore s w3) as K3.
    destruct (subscribeStore s w3) as [[] w4] eqn:E4. simpl in K3.
    exists w4. rewrite (bind_eq _ _ _ _ _ E4). split; [|split].
    - apply hydrate_cached_method. by rewrite K3.
    - intros s' Hne. rewrite K3. by apply Hf.
    - by rewrite K3. }
  unfold hydrate_first. rewrite (bind_eq _ _ _ _ _ E1), (bind_eq _ _ _ _ _ E2).
  destruct sv as [v|q].
  - pose proof (keeps_methods_set_value s v w2) as K3.
    destruct (IgrisMaster_set_value s v w2) as [[] w3] eqn:E3. simpl in K3.
    rewrite bind_assoc, (bind_eq _ _ _ _ _ E3).
    destruct (Hend None (exec (modify_handler s (set_hydrate_method (HydrateCached None))) w3))
      as (w' & Hw' & H1 & H2).
    + eapply method_of_set_method. by rewrite K3, K12.
    + intros s' Hne. rewrite method_of_set_method_ne by done. by rewrite K3.
    + exists None, w'. done.
  - unfold runImmediately.
    destruct (Hend (Some (length (heap w2)))
             (exec (modify_handler s
                (set_hydrate_method (HydrateCached (Some (length (heap w2))))))
                (with_heap (heap w2 ++ [pending (AwaitHydrate s q)]) w2)))
      as (w' & Hw' & H1 & H2).
    + apply (method_of_set_method _ _ _ HydrateOriginal).
      change (method_of w2 s = Some HydrateOriginal). by rewrite K12.
    + intros s' Hne. rewrite method_of_set_method_ne by done. apply K12.
    + exists (Some (length (heap w2))), w'. done.
Qed.

Lemma hydrate_handle s w :
  (forall s', s' <> s -> method_of (exec (hydrate s) w) s' = method_of w s') /\
  (method_of w s <> None ->
   method_of (exec (hydrate s) w) s = Some (HydrateCached (eval (hydrate s) w))).
Proof.
  unfold exec, eval. rewrite hydrate_eq.
  destruct (method_of w s) as [[|r]|] eqn:Hm; simpl; [|done|done].
  destruct (hydrate_first_handle s w Hm) as (r & w' & -> & H1 & H2). done.
Qed.

(** A replaced method stays, whatever is hydrated afterwards. *)
Lemma hydrate_keeps_cached s w s' r :
  method_of w s' = Some (HydrateCached r) ->
  method_of (exec (hydrate s) w) s' = Some (HydrateCached r).
Proof.
  intros H. destruct (decide (s' = s)) as [->|Hne].
  - unfold exec. rewrite hydrate_eq, H. done.
  - destruct (hydrate_handle s w) as [Hf _]. by rewrite Hf.
Qed.

(** ** The coordinator *)

Lemma methods_le_refl w : methods_le w w.
Proof. intros s. by left. Qed.

Lemma methods_le_trans w1 w2 w3 :
  methods_le w1 w2 -> methods_le w2 w3 -> methods_le w1 w3.
Proof.
  intros H12 H23 s. destruct (H12 s) as [E1|[E1 [r1 E1']]], (H23 s) as [E2|[E2 [r2 E2']]].
  - left. congruence.
  - right. split; [congruence|]. by exists r2.
  - right. split; [done|]. exists r1. congruence.
  - congruence.
Qed.

Lemma methods_le_cached w w' s r :
  methods_le w w' -> method_of w s = Some (HydrateCached r) ->
  method_of w' s = Some (HydrateCached r).
Proof. intros H Hs. destruct (H s) as [E|[E _]]; congruence. Qed.

Lemma methods_le_none w w' s :
  methods_le w w' -> method_of w s = None -> method_of w' s = None.
Proof. intros H Hs. destruct (H s) as [E|[E _]]; congruence. Qed.

Lemma methods_le_keeps {A} (m : M A) w :
  keeps_methods m -> methods_le w (exec m w).
Proof. intros H s. left. apply H. Qed.

Lemma methods_le_hydrate s w : methods_le w (exec (hydrate s) w).
Proof.
  intros s'. destruct (hydrate_handle s w) as [Hne Heq].
  destruct (decide (s' = s)) as [->|Hs]; [|left; by apply Hne].
  unfold exec in *. rewrite hydrate_eq in *.
  destruct (method_of w s) as [[|r]|] eqn:Hm; simpl; [|by left|by left].
  right. split; [done|]. eexists. by apply Heq.
Qed.

Lemma handler_method w s :
  eval (the_handler s) w = None <-> method_of w s = None.
Proof.
  unfold eval, the_handler, gets, method_of. simpl.
  by destruct (stores w !! s ≫= persist).
Qed.

Lemma handle_of_hydrate w s :
  method_of w s <> Some HydrateOriginal -> hydrate s w = (handle_of w s, w).
Proof.
  intros H. rewrite hydrate_eq. unfold handle_of.
  by destruct (method_of w s) as [[|r]|].
Qed.

(** The loop of the coordinator hydrates every container that has a
    handler, and collects the promises among the handles. *)
Lemma setupHydrator_loop_spec ss cfg w :
  exists ps wl,
    setupHydrator_loop ss cfg w = (ps, wl) /\
    methods_le w wl /\
    (forall s, s ∈ ss -> method_of wl s <> Some HydrateOriginal) /\
    ps = omap (handle_of wl) ss.
Proof.
  revert w. induction ss as [|s rest IH]; intros w.
  - exists [], w. repeat split; [apply methods_le_refl|]. intros s Hs. by apply elem_of_nil in Hs.
  - cbn [setupHydrator_loop]. rewrite (bind_eq _ _ _ _ _ (the_handler_method w s)).
    destruct (stores w !! s ≫= persist) as [h|] eqn:Hh.
    + (* a handler: the storage is injected, then [hydrate] *)
      set (inject := match config_storage (config h), cfg with
                     | None, Some fallback =>
                         modify_handler s (set_config_storage (Some fallback))
                     | _, _ => ret tt
                     end).
      assert (Kinj : keeps_methods inject).
      { subst inject. destruct (config_storage (config h)), cfg; try done.
        by apply keeps_methods_modify_handler. }
      destruct (inject w) as [[] w0] eqn:E0.
      assert (H0 : forall s', method_of w0 s' = method_of w s').
      { intros s'. specialize (Kinj w s'). by rewrite E0 in Kinj. }
      rewrite (bind_eq _ _ _ _ _ E0).
      destruct (hydrate s w0) as [r w1] eqn:E1.
      rewrite (bind_eq _ _ _ _ _ E1).
      destruct (IH w1) as (ps & wl & Eloop & Hle & Hall & Hps).
      rewrite (bind_eq _ _ _ _ _ Eloop).
      assert (Hle1 : methods_le w w1).
      { apply (methods_le_trans w w0 w1); [intros s'; left; apply H0|].
        pose proof (methods_le_hydrate s w0) as H. unfold exec in H. by rewrite E1 in H. }
      assert (Hs1 : method_of w1 s = Some (HydrateCached r)).
      { destruct (hydrate_handle s w0) as [_ Hc]. unfold exec, eval in Hc.
        rewrite E1 in Hc. apply Hc. rewrite H0. unfold method_of. by rewrite Hh. }
      assert (Hsl : method_of wl s = Some (HydrateCached r)) by (by eapply methods_le_cached).
      eexists _, wl. split; [reflexivity|]. split; [by eapply methods_le_trans|]. split.
      * intros s' [->|Hin]%elem_of_cons; [by rewrite Hsl|by apply Hall].
      * cbn [omap list_omap]. unfold handle_of at 1. rewrite Hsl, <- Hps. by destruct r.
    + destruct (IH w) as (ps & wl & Eloop & Hle & Hall & Hps).
      assert (Hsl : method_of wl s = None).
      { eapply methods_le_none; [done|]. unfold method_of. by rewrite Hh. }
      exists ps, wl. split; [done|]. split; [done|]. split.
      * intros s' [->|Hin]%elem_of_cons; [by rewrite Hsl|by apply Hall].
      * cbn [omap list_omap]. unfold handle_of at 1. by rewrite Hsl.
Qed.

Lemma justified_step a w j o : justified w j o -> justified (exec (step a) w) j o.
Proof.
  assert (Hf : forall q, fulfilled w q -> fulfilled (exec (step a) w) q).
  { intros q [v Hq]. exists v. by apply settled_step. }
  assert (Hr : forall q, rejected w q -> rejected (exec (step a) w) q).
  { intros q Hq. by apply settled_step. }
  destruct j, o; simpl; auto.
  - intros H. eapply Forall_impl; [exact H|exact Hf].
  - intros H. eapply Exists_impl; [exact H|exact Hr].
Qed.

Lemma tracked_step a w r j : tracked w r j -> tracked (exec (step a) w) r j.
Proof.
  intros (c & Hc & Hj & Hst).
  destruct (cell_step a w r c Hc) as [Hc'|(Hn & o & Hc' & Hjo)].
  - exists c. repeat split; [done..|]. intros o Ho. by apply justified_step, Hst.
  - eexists. split; [exact Hc'|]. split; [done|]. simpl. intros o' [= <-].
    apply justified_step. by rewrite <- Hj.
Qed.

Lemma tracked_run acts w r j : tracked w r j -> tracked (run acts w) r j.
Proof.
  revert w. induction acts as [|a acts IH]; intros w H; [done|].
  rewrite run_cons. by apply IH, tracked_step.
Qed.

Lemma tracked_fulfilled w r j :
  tracked w r j -> fulfilled w r -> exists v, justified w j (Fulfilled v).
Proof.
  intros (c & Hc & Hj & Hst) [v Hv]. exists v. apply Hst.
  unfold promise_state in Hv. rewrite Hc in Hv. done.
Qed.

Lemma settle_fulfilled w (r : pid) c v :
  heap w !! r = Some c -> fulfilled (settle r (Fulfilled v) w).2 r.
Proof.
  intros Hc. exists v. unfold promise_state, settle, modify. simpl.
  rewrite list_lookup_alter_eq. unfold pid in *. by rewrite Hc.
Qed.

Lemma resume_all_eq r ps w :
  resume r (PromiseAll ps) w
  = match all_outcome (map (promise_state w) ps) with
    | None => (tt, w)
    | Some o => settle r o w
    end.
Proof.
  cbn [resume]. unfold bind, gets, promise_state.
  by destruct (all_outcome _).
Qed.

(** [Promise.all] is fulfilled by its job once all its inputs are. *)
Lemma run_all_fulfilled w all ps :
  tracked w all (PromiseAll ps) -> Forall (fulfilled w) ps ->
  fulfilled (exec (run_job all) w) all.
Proof.
  intros (c & Hc & Hj & Hst) Hps. unfold exec. rewrite run_job_eq.
  unfold pid in *. rewrite Hc.
  destruct c as [[[v|]|] j]; simpl in *; subst j.
  - exists v. unfold promise_state. unfold pid in *. by rewrite Hc.
  - specialize (Hst _ eq_refl). simpl in Hst.
    apply Exists_exists in Hst as (q & Hq & Hrej).
    rewrite Forall_forall in Hps. destruct (Hps q Hq) as [v Hv].
    unfold rejected in Hrej. congruence.
  - destruct (all_outcome_all_fulfilled w ps Hps) as [vs Hvs].
    rewrite resume_all_eq, Hvs. by eapply settle_fulfilled.
Qed.

(** The promise of the coordinator is fulfilled by its job once
    [Promise.all] is. *)
Lemma run_await_fulfilled w p all :
  tracked w p (AwaitAll all) -> fulfilled w all ->
  fulfilled (exec (run_job p) w) p.
Proof.
  intros (c & Hc & Hj & Hst) [v Hall]. unfold exec. rewrite run_job_eq.
  unfold pid in *. rewrite Hc.
  destruct c as [[[v'|]|] j]; cbn [cjob cstate] in *; subst j; cbv beta iota.
  - exists v'. simpl. unfold promise_state. unfold pid in *. by rewrite Hc.
  - specialize (Hst _ eq_refl). simpl in Hst. unfold rejected in Hst. congruence.
  - cbn [resume]. rewrite await_eq, Hall.
    by eapply settle_fulfilled.
Qed.

Lemma method_of_stores w w' s : stores w' = stores w -> method_of w' s = method_of w s.
Proof. unfold method_of. by intros ->. Qed.

Lemma methods_le_handler w w' s :
  methods_le w w' -> method_of w s <> None -> method_of w' s <> None.
Proof. intros H Hs. destruct (H s) as [E|[_ [r E]]]; congruence. Qed.

Lemma omap_nil_iff {A B} (f : A -> option B) (l : list A) :
  omap f l = [] <-> forall x, x ∈ l -> f x = None.
Proof.
  induction l as [|x l IH]; simpl.
  - split; [|done]. intros _ x Hx. by apply elem_of_nil in Hx.
  - destruct (f x) eqn:Hx.
    + split; [done|]. intros H. specialize (H x (list_elem_of_here _ _)). congruence.
    + rewrite IH. split.
      * intros H y [->|Hy]%elem_of_cons; auto.
      * intros H y Hy. apply H. by apply list_elem_of_further.
Qed.

(** The coordinator: the loop, then the join of the promises it found. *)
Lemma setupHydrator_spec ss cfg w :
  exists wl,
    methods_le w wl /\
    (forall s, s ∈ ss -> method_of wl s <> Some HydrateOriginal) /\
    let ps := omap (handle_of wl) ss in
    match ps with
    | [] => setupHydrator ss cfg w = (None, wl)
    | _ =>
        exists w',
          setupHydrator ss cfg w = (Some (S (length (heap wl))), w') /\
          stores w' = stores wl /\
          heap w' = heap wl ++ [pending (PromiseAll ps);
                                pending (AwaitAll (length (heap wl)))]
    end.
Proof.
  destruct (setupHydrator_loop_spec ss cfg w) as (ps & wl & Eloop & Hle & Hall & Hps).
  exists wl. split; [done|]. split; [done|]. cbv zeta. rewrite <- Hps.
  unfold setupHydrator. rewrite (bind_eq _ _ _ _ _ Eloop).
  destruct ps as [|q ps]; [done|].
  eexists. unfold runImmediately, bind, alloc, ret. cbn [heap with_heap fst snd].
  split; [|split]; [| |].
  - f_equal. f_equal. rewrite length_app. simpl. lia.
  - done.
  - simpl. by rewrite <- app_assoc.
Qed.

Lemma tracked_pending w (r : pid) j :
  heap w !! r = Some (pending j) -> tracked w r j.
Proof. intros H. exists (pending j). by repeat split. Qed.

(** ** The join of the coordinator *)

(** One invocation of the coordinator: a container without a handler at the
    head of the list is skipped; every container with a handler has its
    [hydrate] method replaced, the handle being what [hydrate()] returns
    from then on; the invocation returns [undefined] exactly when every one
    of these handles is [undefined]; otherwise it returns one pending
    promise, which, whatever happens next, is fulfilled only when every
    handle that is a promise is fulfilled, and which is fulfilled by the
    jobs of [Promise.all] and of the [async] wrapper once they all are. *)
Lemma setupHydrator_join (stores_ : list nat) (config_ : option StorageProvider)
    (w : World) :
  let w' := exec (setupHydrator stores_ config_) w in
  let result := eval (setupHydrator stores_ config_) w in
  (forall s rest,
     eval (the_handler s) w = None ->
     setupHydrator (s :: rest) config_ w = setupHydrator rest config_ w) /\
  (forall s,
     s ∈ stores_ -> eval (the_handler s) w <> None ->
     exists r, method_of w' s = Some (HydrateCached r) /\ hydrate s w' = (r, w')) /\
  (result = None <-> forall s, s ∈ stores_ -> eval (hydrate s) w' = None) /\
  (forall p,
     result = Some p ->
     promise_state w' p = None /\
     (forall acts,
        fulfilled (run acts w') p ->
        forall s q, s ∈ stores_ -> eval (hydrate s) w' = Some q ->
                    fulfilled (run acts w') q) /\
     (exists all,
        forall acts,
          (forall s q, s ∈ stores_ -> eval (hydrate s) w' = Some q ->
                       fulfilled (run acts w') q) ->
          fulfilled (run (acts ++ [ARun all; ARun p]) w') p)).
Proof.
  intros w' result. subst w' result. unfold exec, eval.
  destruct (setupHydrator_spec stores_ config_ w) as (wl & Hle & Hall & Hres).
  cbv zeta in Hres.
  set (ps := omap (handle_of wl) stores_) in *.
  (* the world after the invocation has the methods of the one after the loop *)
  assert (Hw' : exists r w',
            setupHydrator stores_ config_ w = (r, w') /\ stores w' = stores wl /\
            (r = None <-> ps = []) /\
            (forall p, r = Some p ->
               p = S (length (heap wl)) /\
               heap w' = heap wl ++ [pending (PromiseAll ps);
                                     pending (AwaitAll (length (heap wl)))])).
  { destruct ps as [|q ps'] eqn:Eps.
    - exists None, wl. by repeat split.
    - destruct Hres as (w' & E & Hst & Hh). eexists _, w'.
      split; [exact E|]. split; [done|]. split; [done|].
      intros p [= <-]. done. }
  destruct Hw' as (r & w' & E & Hst & Hnone & Hsome). rewrite E. cbn [fst snd].
  assert (Hm : forall s, method_of w' s = method_of wl s)
    by (intros s; by apply method_of_stores).
  assert (Hhyd : forall s, s ∈ stores_ -> hydrate s w' = (handle_of wl s, w')).
  { intros s Hs. rewrite handle_of_hydrate by (rewrite Hm; by apply Hall).
    unfold handle_of. by rewrite Hm. }
  assert (Hps : forall q, q ∈ ps <->
                          exists s, s ∈ stores_ /\ (hydrate s w').1 = Some q).
  { intros q. subst ps. rewrite list_elem_of_omap. split.
    - intros (s & Hs & Hq). exists s. by rewrite Hhyd.
    - intros (s & Hs & Hq). exists s. by rewrite Hhyd in Hq. }
  split; [|split; [|split]].
  - intros s rest Hs. unfold setupHydrator. cbn [setupHydrator_loop].
    rewrite bind_assoc, (bind_eq _ _ _ _ _ (the_handler_method w s)).
    unfold eval in Hs. rewrite the_handler_method in Hs. simpl in Hs. by rewrite Hs.
  - intros s Hs Hh. rewrite Hhyd by done. rewrite Hm.
    assert (Hn : method_of wl s <> None).
    { eapply methods_le_handler; [done|]. by rewrite <- handler_method. }
    specialize (Hall s Hs). unfold handle_of.
    destruct (method_of wl s) as [[|r0]|]; [done| |done]. by exists r0.
  - rewrite Hnone. subst ps. rewrite omap_nil_iff. split.
    + intros H s Hs. rewrite Hhyd by done. by apply H.
    + intros H s Hs. specialize (H s Hs). by rewrite Hhyd in H.
  - intros p Hp. destruct (Hsome p Hp) as [-> Hheap]. clear Hsome.
    assert (Hall_cell : tracked w' (length (heap wl)) (PromiseAll ps)).
    { apply tracked_pending. rewrite Hheap. by rewrite lookup_app_r, Nat.sub_diag. }
    assert (Hp_cell : tracked w' (S (length (heap wl))) (AwaitAll (length (heap wl)))).
    { apply tracked_pending. rewrite Hheap. rewrite lookup_app_r by lia.
      by replace (S (length (heap wl)) - length (heap wl)) with 1 by lia. }
    split; [|split].
    + unfold promise_state. rewrite Hheap. rewrite lookup_app_r by lia.
      by replace (S (length (heap wl)) - length (heap wl)) with 1 by lia.
    + intros acts Hful s q Hs Hq.
      destruct (tracked_fulfilled _ _ _ (tracked_run acts _ _ _ Hp_cell) Hful) as [v Hv].
      simpl in Hv.
      destruct (tracked_fulfilled _ _ _ (tracked_run acts _ _ _ Hall_cell) Hv) as [v' Hv'].
      simpl in Hv'. rewrite Forall_forall in Hv'. apply Hv'. apply Hps. by exists s.
    + exists (length (heap wl)). intros acts Hful.
      rewrite run_app, run_cons, run_cons, run_nil.
      apply (run_await_fulfilled _ _ (length (heap wl))).
      * apply (tracked_step (ARun _)). by apply tracked_run.
      * apply (run_all_fulfilled _ _ ps); [by apply tracked_run|].
        apply Forall_forall. intros q [s [Hs Hq]]%Hps. by eapply Hful.
Qed.


(** Two containers with asynchronous backends and one without a handler:
    the promise of the coordinator is still pending when the first
    hydration is complete, and fulfilled after the second one. *)
Example sample_join_waits_for_both :
  let w := exec (setupHydrator [0; 1; 2] None) sample_pair in
  eval (setupHydrator [0; 1; 2] None) sample_pair = Some 9 /\
  map (fun s => eval (hydrate s) w) [0; 1; 2] = [Some 3; None; Some 7] /\
  promise_state (run (hydration_jobs 0 ++ [ARun 8; ARun 9]) w) 3
    = Some (Fulfilled JUndefined) /\
  promise_state (run (hydration_jobs 0 ++ [ARun 8; ARun 9]) w) 9 = None /\
  promise_state (run (hydration_jobs 0 ++ hydration_jobs 4 ++ [ARun 8; ARun 9]) w) 9
    = Some (Fulfilled JUndefined).
Proof. vm_compute. repeat split. Qed.

(** ** The gate *)

Lemma getSnapshot_first w g gate :
  gates w !! g = Some gate -> promiseRef gate = RefUndefined ->
  exists ref w0,
    ref <> RefUndefined /\ gates w0 = gates w /\
    (exists new, heap w0 = heap w ++ new /\ Forall plain new) /\
    let hyd := match ref with RefPromise _ => isHydrated gate | _ => true end in
    getSnapshot g w
    = (hyd, with_gates (<[g := set_isHydrated hyd (set_promiseRef ref gate)]> (gates w)) w0).
Proof.
  intros Hg Hu. unfold getSnapshot.
  assert (Eg : the_gate g w = (Some gate, w)) by (unfold the_gate, gets; by rewrite Hg).
  rewrite (bind_eq _ _ _ _ _ Eg).
  rewrite Hu. rewrite !bind_assoc.
  set (current := match props gate with
                  | PropsHandler HandlerVoid => ret RefNull
                  | PropsHandler (HandlerPromise o) =>
                      let* p := alloc (pending (External o)) in ret (RefPromise p)
                  | PropsStores stores_ config_ =>
                      let* r := runImmediately (setupHydrator stores_ config_) in
                      ret (match r with Some p => RefPromise p | None => RefNull end)
                  end).
  assert (Hop : store_op current).
  { subst current. unfold runImmediately. store_op_tac. }
  assert (Hne : (current w).1 <> RefUndefined).
  { subst current. destruct (props gate) as [[|o]|ss cfg]; simpl; [done..|].
    unfold runImmediately, bind. destruct (setupHydrator ss cfg w) as [[p|] w0]; done. }
  destruct (Hop w) as (Hgates & new & Hheap & Hplain).
  destruct (current w) as [ref w0] eqn:E. simpl in *.
  exists ref, w0. split; [done|]. split; [done|]. split; [by exists new|].
  rewrite (bind_eq _ _ _ _ _ E).
  destruct ref as [| |p]; [done| |];
    unfold bind, modify_gate, modify, the_gate, gets, ret; simpl; rewrite Hgates.
  - erewrite (alter_at _ (gates w)) by done.
    erewrite alter_at by (by eapply lookup_insert_at).
    rewrite list_insert_insert_eq. erewrite lookup_insert_at by done. simpl.
    f_equal.
  - erewrite (alter_at _ (gates w)) by done.
    erewrite lookup_insert_at by done. simpl. f_equal.
Qed.

Lemma render_first w g gate :
  gates w !! g = Some gate -> promiseRef gate = RefUndefined ->
  exists ref w0,
    ref <> RefUndefined /\ gates w0 = gates w /\
    (exists new, heap w0 = heap w ++ new /\ Forall plain new) /\
    render g w
    = (match ref with
       | RefPromise _ => if isHydrated gate then Children else LoadingComponent
       | _ => Children
       end,
       with_gates (<[g := evaluated ref gate]> (gates w)) w0).
Proof.
  intros Hg Hu. destruct (getSnapshot_first w g gate Hg Hu) as (ref & w0 & Hne & Hgs & Hh & E).
  exists ref, w0. split; [done|]. split; [done|]. split; [done|].
  unfold render. cbv zeta in E. rewrite (bind_eq _ _ _ _ _ E).
  unfold bind, modify_gate, modify, ret. simpl.
  erewrite alter_at by (by eapply lookup_insert_at).
  rewrite list_insert_insert_eq. f_equal.
  - by destruct ref.
Qed.

Lemma lookup_settled_heap (h new : list Cell) (r r0 : pid) c' c0 :
  (<[r := c']> h ++ new) !! r0 = Some c0 ->
  (r0 <> r /\ h !! r0 = Some c0) \/ (r0 = r /\ c0 = c') \/ c0 ∈ new.
Proof.
  intros [H|[_ H]]%lookup_app_Some.
  - destruct (decide (r0 = r)) as [->|Hne].
    + right. left. split; [done|].
      rewrite list_lookup_insert_eq in H; [congruence|].
      apply lookup_lt_Some in H. by rewrite length_insert in H.
    + left. split; [done|]. by rewrite list_lookup_insert_ne in H.
  - right. right. by eapply list_elem_of_lookup_2.
Qed.

Lemma set_rendered_same gate :
  set_rendered (rendered gate) gate = gate.
Proof. by destruct gate. Qed.

Lemma fulfilled_step a w p : fulfilled w p -> fulfilled (exec (step a) w) p.
Proof. intros [v H]. exists v. by apply settled_step. Qed.

(** Every action keeps what holds of an evaluated gate. *)
Lemma gate_inv_step a g ref w :
  gate_inv g ref w ->
  gate_inv g ref (exec (step a) w) /\
  (gate_open w g -> gate_open (exec (step a) w) g).
Proof.
  intros (gate & Hg & Href & Hne & Hren & Hhyd & Hcells).
  pose proof (step_effect_step a w) as Heff.
  set (w' := exec (step a) w) in *.
  assert (Hkeep : forall new,
            gates w' !! g = Some gate -> heap w' = heap w ++ new ->
            Forall (fun c => forall src, cjob c = ThenOpen g src ->
                               cstate c = None /\
                               forall p, ref = RefPromise p -> src = p) new ->
            gate_inv g ref w' /\ (gate_open w g -> gate_open w' g)).
  { intros new Hg' Hheap Hnew. split; [|unfold gate_open; by rewrite Hg, Hg'].
    exists gate. do 4 (split; [done|]). split.
    - destruct ref; try done. intros H. by apply fulfilled_step, Hhyd.
    - intros r0 c0 src0 H0 Hj0. rewrite Hheap in H0.
      apply lookup_app_Some in H0 as [H0|[_ H0]]; [by eapply Hcells|].
      apply list_elem_of_lookup_2 in H0. rewrite Forall_forall in Hnew.
      destruct (Hnew _ H0 _ Hj0) as [Hn Hsrc]. split; [done|]. intros v. congruence. }
  assert (Hplain : forall new, Forall plain new ->
            Forall (fun c => forall src, cjob c = ThenOpen g src ->
                               cstate c = None /\
                               forall p, ref = RefPromise p -> src = p) new).
  { intros new H. eapply Forall_impl; [exact H|]. intros c Hc src Hj. unfold plain in Hc.
    by rewrite Hj in Hc. }
  destruct a as [r| | | | | | | | |g'|g']; cbn [step_effect] in Heff;
    try (destruct Heff as (Hgates & new & Hheap & Hnew);
         apply (Hkeep new); [by rewrite Hgates|done|by apply Hplain]).
  - (* a job runs *)
    destruct Heff as (new & Hnew & [[Hheap Hgates]|(c & o & Hc & Hst & Hj & Hheap & Hgeff)]).
    { apply (Hkeep new); [by rewrite Hgates|done|by apply Hplain]. }
    assert (Hold : forall (r0 : pid) c0 src,
              heap w' !! r0 = Some c0 -> cjob c0 = ThenOpen g src ->
              (forall p, ref = RefPromise p -> src = p) /\
              (r0 <> r -> forall v, cstate c0 = Some (Fulfilled v) -> isHydrated gate = true)).
    { intros r0 c0 src H0 Hj0. rewrite Hheap in H0.
      apply lookup_settled_heap in H0 as [[Hr0 H0]|[[-> ->]|H0]].
      - destruct (Hcells r0 c0 src H0 Hj0) as [H1 H2]. split; [done|]. intros _. exact H2.
      - split; [|done]. by eapply Hcells.
      - rewrite Forall_forall in Hnew. specialize (Hnew _ H0). unfold plain in Hnew.
        by rewrite Hj0 in Hnew. }
    assert (Hcase : (exists src v, cjob c = ThenOpen g src /\ o = Fulfilled v) \/
                    (gates w' !! g = Some gate /\
                     forall src v, ~ (cjob c = ThenOpen g src /\ o = Fulfilled v))).
    { unfold gate_effect in Hgeff.
      destruct (cjob c) as [| | | | | | | |g0 src0] eqn:Hjob;
        try (right; split; [by rewrite Hgeff|by intros ?? [? ?]]).
      destruct o as [v|]; [|right; split; [by rewrite Hgeff|by intros ?? [? ?]]].
      destruct (decide (g0 = g)) as [->|Hg0]; [left; by eauto|].
      right. destruct Hgeff as [Hf _]. split; [by rewrite Hf|].
      intros ?? [[= ? ?] _]. done. }
    destruct Hcase as [(src & v & Hjob & ->)|[Hg' Hnot]].
    + (* the reaction of the gate: it opens *)
      unfold gate_effect in Hgeff. rewrite Hjob in Hgeff. destruct Hgeff as [_ Hopen].
      specialize (Hopen gate Hg ltac:(by rewrite Href)).
      split; [|intros _; unfold gate_open; by rewrite Hopen].
      eexists. split; [exact Hopen|]. simpl. do 3 (split; [done|]). split.
      * destruct ref as [| |p]; try done. intros _.
        apply fulfilled_step. rewrite Hjob in Hj. simpl in Hj.
        destruct (Hcells r c src Hc Hjob) as [Hsrc _]. by rewrite <- (Hsrc p eq_refl).
      * intros r0 c0 src0 H0 Hj0. split; [|done]. by eapply Hold.
    + split; [|unfold gate_open; by rewrite Hg, Hg'].
      exists gate. do 4 (split; [done|]). split.
      * destruct ref; try done. intros H. by apply fulfilled_step, Hhyd.
      * intros r0 c0 src0 H0 Hj0. split; [by eapply Hold|].
        destruct (decide (r0 = r)) as [->|Hr0]; [|by eapply Hold].
        intros v Hv. exfalso. rewrite Hheap in H0.
        apply lookup_settled_heap in H0 as [[? _]|[[_ ->]|H0]].
        -- done.
        -- simpl in *. eapply Hnot. split; [exact Hj0|]. by injection Hv as ->.
        -- rewrite Forall_forall in Hnew. specialize (Hnew _ H0). unfold plain in Hnew.
           by rewrite Hj0 in Hnew.
  - (* the component is evaluated *)
    destruct Heff as (Hframe & new & Hheap & Hnew).
    apply (Hkeep new); [|done|by apply Hplain].
    destruct (decide (g = g')) as [<-|Hgg]; [|by rewrite Hframe].
    subst w'. unfold exec, step.
    rewrite (bind_eq _ _ _ _ _ (render_cached w g gate Hg ltac:(by rewrite Href))).
    simpl. erewrite lookup_insert_at by done. rewrite <- Hren. by rewrite set_rendered_same.
  - (* the subscription *)
    destruct Heff as (Hgates & new & Hheap & Hnew).
    apply (Hkeep new); [by rewrite Hgates|done|].
    eapply Forall_impl; [exact Hnew|]. intros c Hc src Hj. unfold subscription in Hc.
    rewrite Hj in Hc. destruct Hc as (-> & Hn & Hsrc). split; [done|].
    intros p Hp. eapply Hsrc; [done|]. by rewrite Href.
Qed.

Lemma gate_inv_run acts g ref w :
  gate_inv g ref w ->
  gate_inv g ref (run acts w) /\ (gate_open w g -> gate_open (run acts w) g).
Proof.
  revert w. induction acts as [|a acts IH]; intros w H; [done|].
  rewrite run_cons. destruct (gate_inv_step a g ref w H) as [H1 H2].
  destruct (IH _ H1) as [H3 H4]. auto.
Qed.

(** The first evaluation of a gate runs the hydration function, caches its
    result and establishes what holds from then on. *)
Lemma render_first_inv w g pr :
  gates w !! g = Some (new_gate pr) -> unsubscribed w g ->
  exists ref,
    ref <> RefUndefined /\
    gate_inv g ref (exec (render g) w) /\
    gates (exec (render g) w) !! g = Some (evaluated ref (new_gate pr)) /\
    eval (render g) w
    = match ref with RefPromise _ => LoadingComponent | _ => Children end.
Proof.
  intros Hg Hun.
  destruct (render_first w g _ Hg eq_refl) as (ref & w0 & Hne & Hgates & (new & Hheap & Hnew) & E).
  exists ref. unfold exec, eval. rewrite E. cbn [fst snd]. split; [done|].
  assert (Hg' : gates (with_gates (<[g := evaluated ref (new_gate pr)]> (gates w)) w0) !! g
                = Some (evaluated ref (new_gate pr))).
  { simpl. by erewrite lookup_insert_at. }
  split; [|split; [done|by destruct ref]].
  exists (evaluated ref (new_gate pr)). split; [done|]. split; [done|]. split; [done|].
  split; [done|]. split; [by destruct ref|].
  intros r c src Hc Hj. exfalso. simpl in Hc. rewrite Hheap in Hc.
  apply lookup_app_Some in Hc as [Hc|[_ Hc]].
  - by eapply Hun.
  - apply list_elem_of_lookup_2 in Hc. rewrite Forall_forall in Hnew.
    specialize (Hnew _ Hc). unfold plain in Hnew. by rewrite Hj in Hnew.
Qed.

(** The subscription of a gate that waits for promise [p]. *)
Lemma mount_waiting w g gate p :
  gates w !! g = Some gate -> rendered gate <> None -> isHydrated gate = false ->
  promiseRef gate = RefPromise p ->
  mount g w = (tt, with_heap (heap w ++ [pending (ThenOpen g p)]) w).
Proof.
  intros Hg Hr Hh Hp. unfold mount, bind, the_gate, gets. rewrite Hg.
  destruct gate as [pr ref hyd [out|]]; [|done]. simpl in *. subst.
  unfold subscribe, bind, the_gate, gets. rewrite Hg. simpl.
  unfold alloc, ret. f_equal.
Qed.

(** The reaction of gate [g], run once the promise is fulfilled. *)
Lemma run_reaction w (r : pid) c g p gate :
  heap w !! r = Some c -> cstate c = None -> cjob c = ThenOpen g p ->
  fulfilled w p ->
  gates w !! g = Some gate -> promiseRef gate <> RefUndefined ->
  gates (exec (run_job r) w) !! g
  = Some (set_rendered (Some Children) (set_isHydrated true gate)).
Proof.
  intros Hc Hst Hj [v Hp] Hg Hne. unfold exec. rewrite run_job_eq.
  unfold pid in *. rewrite Hc. destruct c as [st j]. cbn [cstate cjob] in *. subst st j.
  cbn [resume]. rewrite await_eq, Hp. rewrite <- bind_assoc. unfold bind at 1.
  pose proof (open_gate_spec g w gate Hg Hne) as Hopen.
  destruct ((modify_gate g (set_isHydrated true) >>> onStoreChange g) w) as [[] w1].
  exact Hopen.
Qed.

Lemma gate_inv_cached g ref w : gate_inv g ref w -> cached_result w g = Some ref.
Proof.
  intros (gate & Hg & Href & _). unfold cached_result. by rewrite Hg, <- Href.
Qed.

(** An evaluated gate is closed and shows the placeholder, or is open and
    shows the children, its promise being fulfilled. *)
Lemma gate_inv_state g ref w :
  gate_inv g ref w ->
  (shown w g = Some LoadingComponent /\ ~ gate_open w g /\
   exists p, ref = RefPromise p) \/
  (shown w g = Some Children /\ gate_open w g /\
   forall p, ref = RefPromise p -> fulfilled w p).
Proof.
  intros (gate & Hg & Href & Hne & Hren & Hhyd & _).
  unfold gate_open, shown. rewrite Hg. simpl. rewrite Hren.
  destruct (isHydrated gate) eqn:Hh.
  - right. repeat split; try done. intros p ->. by apply Hhyd.
  - left. repeat split; try done. destruct ref as [| |p]; try done. by exists p.
Qed.

Lemma fulfilled_not_rejected w p : fulfilled w p -> rejected w p -> False.
Proof. intros [v Hv] Hr. unfold rejected in Hr. congruence. Qed.

(** While its promise is rejected, an evaluated gate shows the
    placeholder. *)
Lemma gate_inv_rejected g p w :
  gate_inv g (RefPromise p) w -> rejected w p ->
  shown w g = Some LoadingComponent /\ ~ gate_open w g.
Proof.
  intros Hinv Hrej. destruct (gate_inv_state _ _ _ Hinv) as [(Hs & Hc & _)|(_ & _ & Hf)].
  - done.
  - destruct (fulfilled_not_rejected w p); auto.
Qed.

(** Once its promise is fulfilled, the reaction of a subscribed gate opens
    it, unless an earlier reaction has. *)
Lemma gate_inv_reaction g p (r : pid) w :
  gate_inv g (RefPromise p) w -> tracked w r (ThenOpen g p) -> fulfilled w p ->
  let w' := exec (step (ARun r)) w in
  gate_open w' g /\ shown w' g = Some Children.
Proof.
  intros Hinv (c & Hc & Hj & Hst) Hful w'.
  destruct (gate_inv_step (ARun r) _ _ _ Hinv) as [Hinv' Hmono]. fold w' in Hinv', Hmono.
  destruct Hinv as (gate & Hg & Href & Hne & Hren & Hhyd & Hcells).
  destruct (cstate c) as [[v|]|] eqn:Hs.
  - assert (Hopen : gate_open w' g).
    { apply Hmono. unfold gate_open. rewrite Hg. simpl. f_equal.
      by eapply (Hcells r c p Hc Hj). }
    destruct (gate_inv_state _ _ _ Hinv') as [(_ & Hc' & _)|(Hs' & _ & _)]; done.
  - destruct (fulfilled_not_rejected w p Hful). by apply (Hst Rejected).
  - assert (Hgate := run_reaction w r c g p gate Hc Hs Hj Hful Hg ltac:(by rewrite Href)).
    subst w'. unfold gate_open, shown. cbn [step]. by rewrite Hgate.
Qed.

(** ** Claim C7 *)

(** A rejected promise settles, but the reaction of the gate is attached
    with [then] and one callback: the gate stays closed. *)
Lemma C7_rejected_promise_keeps_gate_closed :
  let pr := PropsHandler (HandlerPromise Rejected) in
  let w := run [ARender 0; AMount 0; ARun 0; ARun 1] (sample_gate pr) in
  cached_result w 0 = Some (RefPromise 0) /\
  promise_state w 0 = Some Rejected /\
  Forall (fun c => cstate c <> None) (heap w) /\
  forall acts,
    shown (run acts w) 0 = Some LoadingComponent /\ ~ gate_open (run acts w) 0.
Proof.
  intros pr w.
  assert (Hinv : gate_inv 0 (RefPromise 0) w).
  { destruct (render_first_inv (sample_gate pr) 0 pr eq_refl) as (ref & _ & Hinv & Hg & _).
    { intros r c src Hc. by destruct r. }
    assert (ref = RefPromise 0) as ->.
    { apply gate_inv_cached in Hinv. vm_compute in Hinv. by injection Hinv. }
    apply (gate_inv_run [AMount 0; ARun 0; ARun 1]) in Hinv. apply Hinv. }
  split; [reflexivity|]. split; [reflexivity|]. split.
  { vm_compute. repeat constructor; discriminate. }
  intros acts. apply (gate_inv_rejected 0 0).
  - by apply gate_inv_run.
  - by apply settled_run.
Qed.

(** Claim C7, amended. A gate caches the result of its hydration function
    at its first evaluation, for good. If the result is not a promise, the
    first evaluation shows the children, and the gate is open and shows
    them whatever happens next. If it is a promise, the first evaluation
    shows the placeholder; from then on the gate is closed and shows the
    placeholder, or it is open, shows the children and the promise is
    fulfilled; while the promise is rejected the gate shows the placeholder;
    and once the promise is fulfilled, the reaction that the subscription
    attached opens the gate. An open gate stays open. *)
Theorem C7_hydration_gate (g : nat) (pr : HydratorProps) (w : World) :
  gates w !! g = Some (new_gate pr) -> unsubscribed w g ->
  let w1 := exec (render g) w in
  exists ref,
    cached_result w1 g = Some ref /\ ref <> RefUndefined /\
    (forall acts, cached_result (run acts w1) g = Some ref) /\
    (forall acts acts',
       gate_open (run acts w1) g -> gate_open (run (acts ++ acts') w1) g) /\
    match ref with
    | RefPromise p =>
        eval (render g) w = LoadingComponent /\
        (forall acts,
           (shown (run acts w1) g = Some LoadingComponent /\
            ~ gate_open (run acts w1) g) \/
           (shown (run acts w1) g = Some Children /\
            gate_open (run acts w1) g /\ fulfilled (run acts w1) p)) /\
        (forall acts,
           rejected (run acts w1) p ->
           shown (run acts w1) g = Some LoadingComponent /\
           ~ gate_open (run acts w1) g) /\
        (forall acts,
           let w2 := run acts (exec (mount g) w1) in
           fulfilled w2 p ->
           gate_open (exec (step (ARun (length (heap w1)))) w2) g /\
           shown (exec (step (ARun (length (heap w1)))) w2) g = Some Children)
    | _ =>
        eval (render g) w = Children /\
        forall acts,
          shown (run acts w1) g = Some Children /\ gate_open (run acts w1) g
    end.
Proof.
  intros Hg Hun w1.
  destruct (render_first_inv w g pr Hg Hun) as (ref & Hne & Hinv & Hg1 & Hout).
  fold w1 in Hinv, Hg1.
  assert (Hrun : forall acts, gate_inv g ref (run acts w1)).
  { intros acts. by apply gate_inv_run. }
  exists ref. split; [by apply gate_inv_cached|]. split; [done|].
  split; [intros acts; by apply gate_inv_cached|]. split.
  { intros acts acts'. rewrite run_app. by apply (gate_inv_run acts' g ref). }
  assert (Hopen : forall acts,
            (forall p, ref <> RefPromise p) ->
            shown (run acts w1) g = Some Children /\ gate_open (run acts w1) g).
  { intros acts Hp. destruct (gate_inv_state _ _ _ (Hrun acts)) as [(_ & _ & p & ->)|(? & ? & _)].
    - by destruct (Hp p).
    - done. }
  destruct ref as [| |p]; [done|by split; [|intros acts; apply Hopen]|].
  split; [done|]. split; [|split].
  - intros acts. destruct (gate_inv_state _ _ _ (Hrun acts)) as [(? & ? & _)|(? & ? & Hf)].
    + by left.
    + right. by auto.
  - intros acts. by apply gate_inv_rejected.
  - intros acts w2 Hful.
    assert (Hmount : mount g w1
                     = (tt, with_heap (heap w1 ++ [pending (ThenOpen g p)]) w1)).
    { by eapply mount_waiting. }
    apply (gate_inv_reaction g p).
    + subst w2. apply gate_inv_run. by apply (gate_inv_step (AMount g) g (RefPromise p)).
    + subst w2. apply tracked_run, tracked_pending.
      unfold exec. rewrite Hmount. simpl. by rewrite lookup_app_r, Nat.sub_diag.
    + done.
Qed.

Lemma C7_hydration_gate_witness :
  let pr := PropsStores [0] None in
  let w := sample_gate pr in
  gates w !! 0 = Some (new_gate pr) /\ unsubscribed w 0 /\
  let w1 := exec (render 0) w in
  exists ref,
    cached_result w1 0 = Some ref /\ ref <> RefUndefined /\
    (forall acts, cached_result (run acts w1) 0 = Some ref) /\
    (forall acts acts',
       gate_open (run acts w1) 0 -> gate_open (run (acts ++ acts') w1) 0) /\
    match ref with
    | RefPromise p =>
        eval (render 0) w = LoadingComponent /\
        (forall acts,
           (shown (run acts w1) 0 = Some LoadingComponent /\
            ~ gate_open (run acts w1) 0) \/
           (shown (run acts w1) 0 = Some Children /\
            gate_open (run acts w1) 0 /\ fulfilled (run acts w1) p)) /\
        (forall acts,
           rejected (run acts w1) p ->
           shown (run acts w1) 0 = Some LoadingComponent /\
           ~ gate_open (run acts w1) 0) /\
        (forall acts,
           let w2 := run acts (exec (mount 0) w1) in
           fulfilled w2 p ->
           gate_open (exec (step (ARun (length (heap w1)))) w2) 0 /\
           shown (exec (step (ARun (length (heap w1)))) w2) 0 = Some Children)
    | _ =>
        eval (render 0) w = Children /\
        forall acts,
          shown (run acts w1) 0 = Some Children /\ gate_open (run acts w1) 0
    end.
Proof.
  intros pr w.
  assert (Hg : gates w !! 0 = Some (new_gate pr)) by reflexivity.
  assert (Hun : unsubscribed w 0).
  { intros r c src Hc. destruct r; discriminate Hc. }
  split; [exact Hg|]. split; [exact Hun|].
  exact (C7_hydration_gate 0 pr w Hg Hun).
Defined.

(** The gate of the sample container: closed while the hydration runs,
    open after the reaction to the promise of the coordinator. *)
Example sample_gate_opens :
  let w := sample_gate (PropsStores [0] None) in
  let loading := run ([ARender 0; AMount 0] ++ hydration_jobs 0 ++ [ARun 4; ARun 5]) w in
  eval (render 0) w = LoadingComponent /\
  cached_result loading 0 = Some (RefPromise 5) /\
  promise_state loading 5 = Some (Fulfilled JUndefined) /\
  shown loading 0 = Some LoadingComponent /\
  shown (run [ARun 6] loading) 0 = Some Children /\
  eval (render 0) (run [ARun 6] loading) = Children /\
  eval (render 0) (sample_gate (PropsHandler HandlerVoid)) = Children.
Proof. vm_compute. repeat split. Qed.

(** ** [shallowMerge] and [deepMerge] *)

Lemma shallowMerge_snoc objects cur :
  shallowMerge (objects ++ [cur]) = spread2 (shallowMerge objects) cur.
Proof. unfold shallowMerge. by rewrite fold_left_app. Qed.

Lemma shallowMerge_object objects : exists m, shallowMerge objects = JObj m.
Proof.
  induction objects as [|cur objects _] using rev_ind; [by exists ∅|].
  rewrite shallowMerge_snoc. by eexists.
Qed.

(** X1. [shallowMerge] of any number of operands is a plain object (the
    empty one for no operand), and each of its keys holds the value of the
    last operand that has the key as an own property; operands without own
    properties, such as [undefined], [null], numbers and booleans, count for
    nothing. *)
Theorem shallowMerge_last_wins (objects : list JS) :
  exists m,
    shallowMerge objects = JObj m /\
    (forall k v,
       m !! k = Some v <->
       exists before cur after,
         objects = before ++ cur :: after /\ own_props cur !! k = Some v /\
         Forall (fun o => own_props o !! k = None) after) /\
    (forall k, m !! k = None <-> Forall (fun o => own_props o !! k = None) objects) /\
    (forall before cur after,
       objects = before ++ cur :: after -> own_props cur = ∅ ->
       shallowMerge objects = shallowMerge (before ++ after)).
Proof.
  assert (Hnone : forall l m k, shallowMerge l = JObj m ->
            (m !! k = None <-> Forall (fun o => own_props o !! k = None) l)).
  { induction l as [|cur l IH] using rev_ind; intros m k Hm.
    - injection Hm as <-. by split; [constructor|].
    - rewrite shallowMerge_snoc in Hm. destruct (shallowMerge_object l) as [m0 Hm0].
      rewrite Hm0 in Hm. injection Hm as <-. simpl.
      rewrite lookup_union_None, Forall_app, Forall_singleton, (IH m0 k Hm0). tauto. }
  destruct (shallowMerge_object objects) as [m Hm]. exists m. split; [done|].
  split; [|split; [intros k; by apply Hnone|]].
  - revert m Hm. induction objects as [|cur l IH] using rev_ind; intros m Hm k v.
    + injection Hm as <-. rewrite lookup_empty. split; [done|].
      intros (before & c & after & H & _). by destruct before.
    + rewrite shallowMerge_snoc in Hm. destruct (shallowMerge_object l) as [m0 Hm0].
      rewrite Hm0 in Hm. injection Hm as <-. simpl.
      rewrite lookup_union_Some_raw. split.
      * intros [Hc|[Hc H0]].
        -- exists l, cur, (@nil JS). split; [done|]. split; [done|constructor].
        -- apply (IH m0 Hm0) in H0 as (before & c & after & -> & Hk & Hafter).
           exists before, c, (after ++ [cur]). rewrite <- app_assoc. split; [done|]. split; [done|].
           apply Forall_app. by split; [|constructor].
      * intros (before & c & after & Heq & Hk & Hafter).
        destruct after as [|a after _] using rev_ind.
        -- apply app_inj_tail in Heq as [-> ->]. by left.
        -- rewrite app_comm_cons, app_assoc in Heq. apply app_inj_tail in Heq as [-> ->].
           apply Forall_app in Hafter as [Hafter Ha]. rewrite Forall_singleton in Ha.
           right. split; [exact Ha|]. apply (IH m0 Hm0). by exists before, c, after.
  - intros before cur after -> Hempty.
    assert (Hcur : spread2 (shallowMerge before) cur = shallowMerge before).
    { destruct (shallowMerge_object before) as [m0 ->]. unfold spread2.
      rewrite Hempty. simpl. by rewrite (left_id_L ∅ (∪)). }
    unfold shallowMerge in *. rewrite !fold_left_app. simpl. by rewrite Hcur.
Qed.

Lemma merge_lookup target keys k :
  deepMerge_merge target (JObj keys) !! k
  = match keys !! k with
    | Some sourceValue => Some (merged_value (target !! k) sourceValue)
    | None => target !! k
    end.
Proof.
  cbn [deepMerge_merge].
  apply (map_fold_weak_ind
    (fun acc (m : gmap string JS) =>
       acc !! k = match m !! k with
                  | Some sourceValue => Some (merged_value (target !! k) sourceValue)
                  | None => target !! k
                  end)); [done|].
  intros key sv m acc Hkey IH.
  assert (Hins : forall x, <[key := x]> acc !! k
                 = if decide (key = k) then Some x else acc !! k).
  { intros x. destruct (decide (key = k)) as [->|Hne].
    - by rewrite lookup_insert_eq.
    - by rewrite lookup_insert_ne. }
  assert (Hres : (match acc !! key, sv with
                  | Some (JArr targetValue), JArr sourceItems =>
                      <[key := JArr (targetValue ++ sourceItems)]> acc
                  | Some (JObj targetValue), JObj _ =>
                      <[key := JObj (deepMerge_merge targetValue sv)]> acc
                  | _, _ => <[key := sv]> acc
                  end) = <[key := merged_value (acc !! key) sv]> acc).
  { unfold merged_value. by destruct (acc !! key) as [[]|], sv. }
  rewrite Hres, Hins.
  destruct (decide (key = k)) as [->|Hne].
  - rewrite lookup_insert_eq. rewrite Hkey in IH. by rewrite IH.
  - by rewrite lookup_insert_ne.
Qed.

Lemma deepMerge_one target source :
  deepMerge target [source] = deepMerge_merge target (JObj source).
Proof. reflexivity. Qed.

(** X2. [deepMerge(target, source)] on plain objects, key by key: a key that
    [source] lacks keeps what [target] holds; two arrays are concatenated,
    those of [target] first; two objects are merged in the same way; in
    every other case the value of [source] replaces the one of [target]. No
    key is lost. *)
Theorem deepMerge_by_key (target source : gmap string JS) :
  proto_free (JObj source) = true ->
  let result := deepMerge target [source] in
  dom result = dom target ∪ dom source /\
  (forall k, source !! k = None -> result !! k = target !! k) /\
  (forall k targetItems sourceItems,
     target !! k = Some (JArr targetItems) -> source !! k = Some (JArr sourceItems) ->
     result !! k = Some (JArr (targetItems ++ sourceItems))) /\
  (forall k targetValue sourceValue,
     target !! k = Some (JObj targetValue) -> source !! k = Some (JObj sourceValue) ->
     result !! k = Some (JObj (deepMerge targetValue [sourceValue]))) /\
  (forall k sourceValue,
     source !! k = Some sourceValue ->
     let targetValue := default JUndefined (target !! k) in
     isArray targetValue && isArray sourceValue = false ->
     isObject targetValue && isObject sourceValue = false ->
     result !! k = Some sourceValue).
Proof.
  intros _ result. subst result. rewrite deepMerge_one.
  split; [|split; [|split; [|split]]].
  - apply set_eq. intros k. rewrite elem_of_union, !elem_of_dom, merge_lookup.
    unfold is_Some. destruct (source !! k) as [sv|], (target !! k) as [tv|]; split.
    all: try (intros _; eauto; fail).
    all: try (intros [v Hv]; eauto; fail).
    all: try (intros [[v Hv]|[v Hv]]; eauto; fail).
  - intros k Hk. by rewrite merge_lookup, Hk.
  - intros k a b Ht Hs. by rewrite merge_lookup, Hs, Ht.
  - intros k t s Ht Hs. by rewrite merge_lookup, Hs, Ht.
  - intros k sv Hs tv Harr Hobj. subst tv. rewrite merge_lookup, Hs. f_equal.
    unfold merged_value. destruct (target !! k) as [[]|], sv; simpl in *; done.
Qed.

Lemma deepMerge_by_key_witness :
  let target : gmap string JS :=
    <["tags" := JArr [JStr "a"]]> (<["user" := JObj (<["name" := JStr "igris"]> ∅)]> ∅) in
  let source : gmap string JS :=
    <["tags" := JArr [JStr "b"]]> (<["user" := JObj (<["age" := JNum 3]> ∅)]> ∅) in
  proto_free (JObj source) = true /\
  let result := deepMerge target [source] in
  dom result = dom target ∪ dom source /\
  (forall k, source !! k = None -> result !! k = target !! k) /\
  (forall k targetItems sourceItems,
     target !! k = Some (JArr targetItems) -> source !! k = Some (JArr sourceItems) ->
     result !! k = Some (JArr (targetItems ++ sourceItems))) /\
  (forall k targetValue sourceValue,
     target !! k = Some (JObj targetValue) -> source !! k = Some (JObj sourceValue) ->
     result !! k = Some (JObj (deepMerge targetValue [sourceValue]))) /\
  (forall k sourceValue,
     source !! k = Some sourceValue ->
     let targetValue := default JUndefined (target !! k) in
     isArray targetValue && isArray sourceValue = false ->
     isObject targetValue && isObject sourceValue = false ->
     result !! k = Some sourceValue).
Proof.
  intros target source.
  assert (H : proto_free (JObj source) = true) by (vm_compute; reflexivity).
  split; [exact H|]. exact (deepMerge_by_key target source H).
Defined.

Lemma deepMerge_app target ss1 ss2 :
  deepMerge target (ss1 ++ ss2) = deepMerge (deepMerge target ss1) ss2.
Proof. unfold deepMerge. by rewrite fold_left_app. Qed.

(** X3. [deepMerge] at its edges: without sources, and with an empty
    source, the target comes back; into an empty target, the source comes
    out; and several sources are merged one after the other, from the
    left. *)
Theorem deepMerge_identities (target source : gmap string JS)
    (sources more : list (gmap string JS)) :
  proto_free (JObj source) = true ->
  Forall (fun s => proto_free (JObj s) = true) (sources ++ more) ->
  deepMerge target [] = target /\
  deepMerge target [∅] = target /\
  deepMerge ∅ [source] = source /\
  deepMerge target (sources ++ more) = deepMerge (deepMerge target sources) more.
Proof.
  intros _ _. split; [done|]. split; [done|]. split; [|apply deepMerge_app].
  apply map_eq. intros k. rewrite deepMerge_one, merge_lookup, lookup_empty.
  by destruct (source !! k).
Qed.

Lemma deepMerge_identities_witness :
  let target : gmap string JS := <["count" := JNum 0]> ∅ in
  let source : gmap string JS := <["count" := JNum 5]> ∅ in
  proto_free (JObj source) = true /\
  Forall (fun s => proto_free (JObj s) = true) ([source] ++ [target]) /\
  deepMerge target [] = target /\
  deepMerge target [∅] = target /\
  deepMerge ∅ [source] = source /\
  deepMerge target ([source] ++ [target]) = deepMerge (deepMerge target [source]) [target].
Proof.
  intros target source.
  assert (H : proto_free (JObj source) = true) by (vm_compute; reflexivity).
  assert (Hs : Forall (fun s => proto_free (JObj s) = true) ([source] ++ [target])).
  { repeat constructor. }
  split; [exact H|]. split; [exact Hs|].
  exact (deepMerge_identities target source [source] [target] H Hs).
Defined.

(** X4. Where no key holds an array on both sides or an object on both
    sides, [deepMerge] is [shallowMerge]. *)
Theorem deepMerge_flat (target source : gmap string JS) :
  proto_free (JObj source) = true ->
  (forall k targetValue sourceValue,
     target !! k = Some targetValue -> source !! k = Some sourceValue ->
     isArray targetValue && isArray sourceValue = false /\
     isObject targetValue && isObject sourceValue = false) ->
  JObj (deepMerge target [source]) = shallowMerge [JObj target; JObj source].
Proof.
  intros _ Hflat. rewrite deepMerge_one.
  unfold shallowMerge. cbn [fold_left]. unfold spread2. cbn [own_props]. f_equal.
  apply map_eq. intros k. rewrite merge_lookup.
  rewrite (right_id_L ∅ (∪)).
  destruct (source !! k) as [sv|] eqn:Hs.
  - symmetry. erewrite lookup_union_Some_l by done. f_equal.
    unfold merged_value. destruct (target !! k) as [tv|] eqn:Ht; [|done].
    destruct (Hflat k tv sv Ht Hs) as [Ha Ho].
    destruct tv, sv; simpl in *; done.
  - by rewrite lookup_union_r.
Qed.

Lemma deepMerge_flat_witness :
  let target : gmap string JS := <["count" := JNum 0]> (<["name" := JStr "igris"]> ∅) in
  let source : gmap string JS := <["count" := JNum 5]> ∅ in
  proto_free (JObj source) = true /\
  (forall k targetValue sourceValue,
     target !! k = Some targetValue -> source !! k = Some sourceValue ->
     isArray targetValue && isArray sourceValue = false /\
     isObject targetValue && isObject sourceValue = false) /\
  JObj (deepMerge target [source]) = shallowMerge [JObj target; JObj source].
Proof.
  intros target source.
  assert (H : proto_free (JObj source) = true) by (vm_compute; reflexivity).
  assert (Hflat : forall k targetValue sourceValue,
     target !! k = Some targetValue -> source !! k = Some sourceValue ->
     isArray targetValue && isArray sourceValue = false /\
     isObject targetValue && isObject sourceValue = false).
  { intros k tv sv Ht Hs. unfold source in Hs.
    destruct (decide (k = "count")) as [->|Hne].
    - rewrite lookup_insert_eq in Hs. injection Hs as <-.
      unfold target in Ht. rewrite lookup_insert_eq in Ht. injection Ht as <-.
      split; reflexivity.
    - rewrite lookup_insert_ne, lookup_empty in Hs by done. discriminate Hs. }
  split; [exact H|]. split; [exact Hflat|].
  exact (deepMerge_flat target source H Hflat).
Defined.

(** Tags are appended and the nested object keeps the keys of both sides. *)
Example sample_deepMerge :
  deepMerge (<["tags" := JArr [JStr "a"]]> (<["user" := JObj (<["name" := JStr "igris"]> ∅)]> ∅))
            [<["tags" := JArr [JStr "b"]]> (<["user" := JObj (<["age" := JNum 3]> ∅)]> ∅)]
  = <["tags" := JArr [JStr "a"; JStr "b"]]>
      (<["user" := JObj (<["name" := JStr "igris"]> (<["age" := JNum 3]> ∅))]> ∅).
Proof. vm_compute. reflexivity. Qed.

(** ** Listeners and [set] *)

Lemma subscribe_listeners w s l :
  listeners_of (exec (IgrisMaster_subscribe s l) w) s
  = (fun ls => if decide (l ∈ ls) then ls else ls ++ [l]) <$> listeners_of w s.
Proof.
  unfold listeners_of, exec, IgrisMaster_subscribe, modify_store, modify. simpl.
  rewrite list_lookup_alter_eq. destruct (stores w !! s) as [st|]; [|done]. simpl.
  by destruct (decide (l ∈ listeners st)).
Qed.

Lemma unsubscribe_listeners w s l :
  listeners_of (exec (IgrisMaster_unsubscribe s l) w) s
  = List.filter (fun l' => negb (bool_decide (l' = l))) <$> listeners_of w s.
Proof.
  unfold listeners_of, exec, IgrisMaster_unsubscribe, modify_store, modify. simpl.
  rewrite list_lookup_alter_eq. by destruct (stores w !! s) as [st|].
Qed.

Lemma filter_other_id (l : Listener) ls :
  l ∉ ls -> List.filter (fun l' => negb (bool_decide (l' = l))) ls = ls.
Proof.
  induction ls as [|x ls IH]; [done|]. intros [Hx Hl]%not_elem_of_cons. simpl.
  rewrite bool_decide_eq_false_2 by done. simpl. by rewrite IH.
Qed.

Lemma filter_other_not_in (l : Listener) ls :
  l ∉ List.filter (fun l' => negb (bool_decide (l' = l))) ls.
Proof.
  induction ls as [|x ls IH]; simpl; [apply not_elem_of_nil|].
  destruct (decide (x = l)) as [->|Hne].
  - by rewrite bool_decide_eq_true_2.
  - rewrite bool_decide_eq_false_2 by done. simpl. apply not_elem_of_cons. by split.
Qed.

(** X5. The listeners of a container are a set kept in order of
    subscription: subscribing a listener that is there changes nothing,
    subscribing a new one appends it, and [unsubscribe] removes the
    listener, so that subscribing and unsubscribing a new listener leaves
    the listeners as they were. *)
Theorem subscribe_unsubscribe (w : World) (s : nat) (ls : list Listener) (l : Listener) :
  listeners_of w s = Some ls ->
  NoDup ls ->
  let subscribed := exec (IgrisMaster_subscribe s l) w in
  (exists ls', listeners_of subscribed s = Some ls' /\ NoDup ls' /\ l ∈ ls' /\
               ((l ∈ ls) -> ls' = ls) /\ ((l ∉ ls) -> ls' = ls ++ [l])) /\
  listeners_of (exec (IgrisMaster_subscribe s l) subscribed) s
    = listeners_of subscribed s /\
  (exists ls', listeners_of (exec (IgrisMaster_unsubscribe s l) subscribed) s = Some ls' /\
               (l ∉ ls') /\ ((l ∉ ls) -> ls' = ls)).
Proof.
  intros Hls Hnd subscribed. subst subscribed.
  assert (Hsub : listeners_of (exec (IgrisMaster_subscribe s l) w) s
                 = Some (if decide (l ∈ ls) then ls else ls ++ [l])).
  { by rewrite subscribe_listeners, Hls. }
  split; [|split].
  - eexists. split; [exact Hsub|]. destruct (decide (l ∈ ls)) as [Hin|Hout].
    + by repeat split.
    + split; [|split; [|by split]].
      * apply NoDup_app. split; [done|]. split; [|apply NoDup_singleton].
        intros x Hx ->%list_elem_of_singleton. done.
      * apply elem_of_app. right. by apply list_elem_of_singleton.
  - rewrite subscribe_listeners, Hsub. simpl. f_equal.
    destruct (decide (l ∈ ls)) as [Hin|Hout].
    + by rewrite decide_True.
    + rewrite decide_True; [done|]. apply elem_of_app. right. by apply list_elem_of_singleton.
  - rewrite unsubscribe_listeners, Hsub. simpl. eexists. split; [done|].
    split; [apply filter_other_not_in|]. intros Hout.
    rewrite decide_False by done. rewrite List.filter_app. simpl.
    rewrite bool_decide_eq_true_2 by done. simpl.
    by rewrite app_nil_r, filter_other_id.
Qed.

Lemma subscribe_unsubscribe_witness :
  let w := sample_world None in
  listeners_of w 0 = Some [LUser 7] /\ NoDup [LUser 7] /\
  let subscribed := exec (IgrisMaster_subscribe 0 (LUser 8)) w in
  (exists ls', listeners_of subscribed 0 = Some ls' /\ NoDup ls' /\ LUser 8 ∈ ls' /\
               ((LUser 8 ∈ [LUser 7]) -> ls' = [LUser 7]) /\
               ((LUser 8 ∉ [LUser 7]) -> ls' = [LUser 7] ++ [LUser 8])) /\
  listeners_of (exec (IgrisMaster_subscribe 0 (LUser 8)) subscribed) 0
    = listeners_of subscribed 0 /\
  (exists ls', listeners_of (exec (IgrisMaster_unsubscribe 0 (LUser 8)) subscribed) 0
               = Some ls' /\
               (LUser 8 ∉ ls') /\ ((LUser 8 ∉ [LUser 7]) -> ls' = [LUser 7])).
Proof.
  intros w.
  assert (H1 : listeners_of w 0 = Some [LUser 7]) by reflexivity.
  assert (H2 : NoDup [LUser 7]) by (apply NoDup_singleton).
  split; [exact H1|]. split; [exact H2|].
  exact (subscribe_unsubscribe w 0 [LUser 7] (LUser 8) H1 H2).
Defined.

Lemma same_containers_refl w : same_containers w w.
Proof. by repeat split. Qed.

Lemma same_containers_trans w1 w2 w3 :
  same_containers w1 w2 -> same_containers w2 w3 -> same_containers w1 w3.
Proof.
  intros (H1 & H1n & H1') (H2 & H2n & H2'). split; [congruence|]. split; [congruence|].
  intros s. destruct (H1' s) as (? & ? & ?), (H2' s) as (? & ? & ?).
  repeat split; congruence.
Qed.

Lemma handler_of_method w s :
  (stores w !! s ≫= persist) = None <-> method_of w s = None.
Proof. unfold method_of. by destruct (stores w !! s ≫= persist). Qed.

Lemma setItem_effect s data w :
  exists w',
    PersistHandler_setItem s data w = (tt, w') /\ trace w' = trace w /\
    same_containers w w' /\
    match method_of w s with
    | None => timers w' = timers w
    | Some _ => exists ts t, timers w' = ts ++ [t] /\ callback t = PersistWrite s data
    end.
Proof.
  destruct (stores w !! s) as [st|] eqn:Hst.
  - destruct (persist st) as [h|] eqn:Hp.
    + eexists. split; [by eapply setItem_spec|]. split; [done|]. split.
      * split; [done|]. split; [done|]. intros s'.
        unfold listeners_of, state_of, method_of. simpl.
        destruct (decide (s' = s)) as [->|Hne].
        -- erewrite lookup_insert_at by done. rewrite Hst. simpl. by rewrite Hp.
        -- by rewrite list_lookup_insert_ne.
      * unfold method_of. rewrite Hst. simpl. rewrite Hp. simpl. by eexists _, _.
    + exists w. unfold PersistHandler_setItem, bind, the_handler, gets, method_of.
      rewrite Hst. simpl. rewrite Hp. by repeat split.
  - exists w. unfold PersistHandler_setItem, bind, the_handler, gets, method_of.
    rewrite Hst. by repeat split.
Qed.

(** Calling the listeners of a container, whatever they are. *)
Lemma forEach_listeners s v ls w :
  exists w',
    forEach ls (call_listener s v) w = (tt, w') /\
    trace w' = trace w ++ map (fun i => Notified s i v) (user_ids ls) /\
    same_containers w w' /\
    ((LPersist ∉ ls \/ method_of w s = None) -> timers w' = timers w) /\
    ((LPersist ∈ ls) -> method_of w s <> None ->
     exists t, t ∈ timers w' /\ callback t = PersistWrite s v).
Proof.
  induction ls as [|l ls IH] using rev_ind.
  - exists w. split; [done|]. split; [by rewrite app_nil_r|].
    split; [apply same_containers_refl|]. split; [done|].
    intros H. by apply elem_of_nil in H.
  - destruct IH as (w1 & E1 & Ht1 & Hs1 & Hti1 & Hin1).
    rewrite forEach_app, (bind_eq _ _ _ _ _ E1). cbn [forEach].
    assert (Hm1 : method_of w1 s = method_of w s) by apply Hs1.
    unfold user_ids. rewrite omap_app. fold (user_ids ls). cbn [omap list_omap].
    destruct l as [|i]; cbn [call_listener].
    + destruct (setItem_effect s v w1) as (w2 & E2 & Ht2 & Hs2 & Hti2).
      exists w2. unfold bind. rewrite E2. cbn [ret].
      split; [done|]. split; [by rewrite Ht2, Ht1, map_app, app_nil_r|].
      split; [by eapply same_containers_trans|]. rewrite Hm1 in Hti2. split.
      * intros [Hout|Hnone].
        -- exfalso. apply Hout, elem_of_app. right. by apply list_elem_of_singleton.
        -- rewrite Hnone in Hti2. rewrite Hti2. apply Hti1. by right.
      * intros _ Hsome. destruct (method_of w s); [|done].
        destruct Hti2 as (ts & t & -> & Hcb). exists t. split; [|done].
        apply elem_of_app. right. by apply list_elem_of_singleton.
    + exists (with_trace (trace w1 ++ [Notified s i v]) w1).
      unfold bind, emit, modify, ret. cbn [fst snd].
      split; [done|]. split; [by rewrite map_app, app_assoc, Ht1|]. split; [|split].
      * eapply same_containers_trans; [exact Hs1|]. by repeat split.
      * intros [Hout|Hnone]; simpl; apply Hti1; [left|by right].
        intros Hin. apply Hout, elem_of_app. by left.
      * intros [Hin|Hin%list_elem_of_singleton]%elem_of_app Hsome; [|done].
        simpl. by apply Hin1.
Qed.

(** The state after [set(value)]. *)
Lemma set_value_state (w : World) (s : nat) (st : IgrisMaster) (v : JS) :
  stores w !! s = Some st ->
  state_of (exec (IgrisMaster_set s (Value v)) w) s = Some v.
Proof.
  intros Hst. unfold exec. cbn [IgrisMaster_set]. unfold IgrisMaster_set_value.
  erewrite (bind_eq _ _ _ _ _ (modify_store_eq _ _ _ _ Hst)).
  set (w0 := with_stores (<[s := set_currentState v st]> (stores w)) w).
  assert (Hst0 : stores w0 !! s = Some (set_currentState v st)).
  { subst w0. simpl. by eapply lookup_insert_at. }
  unfold notify. rewrite (bind_eq _ _ _ _ _ (the_store_eq _ _ _ Hst0)).
  destruct (forEach_listeners s (currentState (set_currentState v st))
              (listeners (set_currentState v st)) w0) as (w1 & E & _ & (_ & _ & Hsame) & _).
  rewrite E. cbn [snd]. destruct (Hsame s) as (_ & Hs & _).
  rewrite Hs. unfold state_of. by rewrite Hst0.
Qed.



(** ** [get] and lazy hydration *)

Lemma initializeValue_eq w s st :
  stores w !! s = Some st ->
  initializeValue s w
  = (match persist st with
     | Some h => if skipHydrate (config h) then ret tt else (hydrate s >>> ret tt)
     | None => ret tt
     end >>>
     modify_store s (set_fetchCurrentState FetchCurrent) >>>
     let* st := the_store s in
     ret (from_option currentState JUndefined st)) w.
Proof.
  intros Hst. unfold initializeValue. rewrite (bind_eq _ _ _ _ _ (the_store_eq _ _ _ Hst)).
  by destruct st as [? ? [?|] ?].
Qed.

Lemma get_eq w s st :
  stores w !! s = Some st ->
  IgrisMaster_get s w
  = match fetchCurrentState st with
    | FetchInitialize => initializeValue s w
    | FetchCurrent => (currentState st, w)
    end.
Proof.
  intros Hst. unfold IgrisMaster_get. rewrite (bind_eq _ _ _ _ _ (the_store_eq _ _ _ Hst)).
  by destruct (fetchCurrentState st).
Qed.

(** The first read of a container, after whatever [initializeValue] did
    before it replaced [fetchCurrentState]. *)
Lemma initializeValue_finish w s st :
  stores w !! s = Some st ->
  (modify_store s (set_fetchCurrentState FetchCurrent) >>>
   let* st := the_store s in
   ret (from_option currentState JUndefined st)) w
  = (currentState st,
     with_stores (<[s := set_fetchCurrentState FetchCurrent st]> (stores w)) w).
Proof.
  intros Hst. rewrite (bind_eq _ _ _ _ _ (modify_store_eq _ _ _ _ Hst)).
  assert (Hst' : stores (with_stores (<[s := set_fetchCurrentState FetchCurrent st]> (stores w)) w)
                 !! s = Some (set_fetchCurrentState FetchCurrent st)).
  { simpl. by eapply lookup_insert_at. }
  by rewrite (bind_eq _ _ _ _ _ (the_store_eq _ _ _ Hst')).
Qed.

(** X7. A container without a handler, or whose handler has
    [skipHydrate: true], is never hydrated by a read: [get()] returns the
    state and touches neither the storage nor the state, and
    [set(updater)] applies the updater to the state as it is. *)
Theorem get_without_hydration (w : World) (s : nat) (st : IgrisMaster)
    (f : JS -> JS) :
  stores w !! s = Some st ->
  match persist st with Some h => skipHydrate (config h) = true | None => True end ->
  let w' := exec (IgrisMaster_get s) w in
  eval (IgrisMaster_get s) w = currentState st /\
  state_of w' s = Some (currentState st) /\
  listeners_of w' s = Some (listeners st) /\
  method_of w' s = method_of w s /\
  trace w' = trace w /\ heap w' = heap w /\ timers w' = timers w /\
  IgrisMaster_get s w' = (currentState st, w') /\
  state_of (exec (IgrisMaster_set s (Updater f)) w) s = Some (f (currentState st)).
Proof.
  intros Hst Hskip w'.
  assert (Hget : IgrisMaster_get s w
                 = (currentState st,
                    with_stores (<[s := set_fetchCurrentState FetchCurrent st]> (stores w)) w)).
  { rewrite (get_eq _ _ _ Hst). destruct (fetchCurrentState st) eqn:Hf.
    - rewrite (initializeValue_eq _ _ _ Hst).
      assert (Hnop : match persist st with
                     | Some h => if skipHydrate (config h) then ret tt
                                 else (hydrate s >>> ret tt)
                     | None => ret tt
                     end w = (tt, w)).
      { destruct (persist st) as [h|]; [by rewrite Hskip|done]. }
      rewrite (bind_eq _ _ _ _ _ Hnop). by apply initializeValue_finish.
    - f_equal. replace (set_fetchCurrentState FetchCurrent st) with st.
      + by rewrite list_insert_id, with_stores_id.
      + destruct st; simpl in *. by subst. }
  subst w'. unfold exec, eval. rewrite Hget. cbn [fst snd].
  set (w' := with_stores _ w).
  assert (Hst' : stores w' !! s = Some (set_fetchCurrentState FetchCurrent st)).
  { subst w'. simpl. by eapply lookup_insert_at. }
  split; [done|]. split; [by unfold state_of; rewrite Hst'|].
  split; [by unfold listeners_of; rewrite Hst'|].
  split; [by unfold method_of; rewrite Hst', Hst|].
  split; [done|]. split; [done|]. split; [done|]. split.
  - by rewrite (get_eq _ _ _ Hst').
  - cbn [IgrisMaster_set]. rewrite (bind_eq _ _ _ _ _ Hget).
    pose proof (set_value_state w' s _ (f (currentState st)) Hst') as Hs.
    exact Hs.
Qed.

Lemma get_without_hydration_witness :
  let w := exec (IgrisMaster_new sample_state None None) empty_world in
  let st := {| listeners := []; currentState := sample_state; persist := None;
               fetchCurrentState := FetchInitialize |} in
  let f := fun prev => JObj (<["count" := JNum 1]> (own_props prev)) in
  stores w !! 0 = Some st /\
  match persist st with Some h => skipHydrate (config h) = true | None => True end /\
  let w' := exec (IgrisMaster_get 0) w in
  eval (IgrisMaster_get 0) w = currentState st /\
  state_of w' 0 = Some (currentState st) /\
  listeners_of w' 0 = Some (listeners st) /\
  method_of w' 0 = method_of w 0 /\
  trace w' = trace w /\ heap w' = heap w /\ timers w' = timers w /\
  IgrisMaster_get 0 w' = (currentState st, w') /\
  state_of (exec (IgrisMaster_set 0 (Updater f)) w) 0 = Some (f (currentState st)).
Proof.
  intros w st f.
  assert (H1 : stores w !! 0 = Some st) by reflexivity.
  assert (H2 : match persist st with
               | Some h => skipHydrate (config h) = true | None => True end) by exact I.
  split; [exact H1|]. split; [exact H2|].
  exact (get_without_hydration w 0 st f H1 H2).
Defined.

Lemma count_storage_read_notified s v ids :
  count is_storage_read (map (fun i => Notified s i v) ids) = 0.
Proof. by apply count_notified. Qed.

(** What the first read of a persisted container does when its storage
    answers at once. *)
Lemma get_first_sync w s st h r :
  stores w !! s = Some st -> pristine st h ->
  fetchCurrentState st = FetchInitialize -> skipHydrate (config h) = false ->
  read_reply w h = Now r ->
  let v := hydration_value w st h in
  exists e,
    is_storage_read e = true /\
    IgrisMaster_get s w =
    (v, with_stores
          (<[s := set_fetchCurrentState FetchCurrent
                    (hydrated_store st h (resolved_storage w h) None v)]> (stores w))
          (with_trace (trace w ++ e :: map (fun i => Notified s i v) (user_ids (listeners st)))
             w)).
Proof.
  intros Hst Hpr Hf Hskip Hr v. pose proof Hpr as (Hp & _).
  rewrite (get_eq _ _ _ Hst), Hf, (initializeValue_eq _ _ _ Hst), Hp, Hskip.
  rewrite !bind_assoc. subst v. unfold hydration_value. rewrite Hr. unfold read_reply in Hr.
  destruct (resolved_storage w h) as [|b] eqn:Hres.
  - injection Hr as <-.
    exists (LogWarn "Attempted to access storage before initialization, method : getItem").
    split; [done|].
    rewrite (bind_eq _ _ _ _ _ (hydrate_sentinel_spec w s st h Hst Hpr Hres)).
    unfold ret at 1. unfold bind at 1.
    erewrite initializeValue_finish by (simpl; by eapply lookup_insert_at).
    simpl. rewrite list_insert_insert_eq. done.
  - exists (BackendGet (key h)). split; [done|].
    rewrite (bind_eq _ _ _ _ _ (hydrate_sync_spec w s st h Hst Hpr b r Hres Hr)).
    unfold ret at 1. unfold bind at 1. rewrite processStoredData_nullish.
    erewrite initializeValue_finish by (simpl; by eapply lookup_insert_at).
    simpl. rewrite list_insert_insert_eq. done.
Qed.

(** The first [get()] of a persisted container whose storage answers at
    once, the listeners only looking at the state: it returns the hydrated
    state, having read the storage once; a second [get()] returns the same
    state and does nothing; and [set(updater)] as the first access applies
    the updater to the hydrated state. *)
Lemma get_once_observed (w : World) (s : nat) (st : IgrisMaster)
    (h : PersistHandler) (r : option string) (f : JS -> JS) :
  stores w !! s = Some st -> pristine st h ->
  fetchCurrentState st = FetchInitialize -> skipHydrate (config h) = false ->
  read_reply w h = Now r ->
  let v := hydration_value w st h in
  let w' := exec (IgrisMaster_get s) w in
  eval (IgrisMaster_get s) w = v /\
  state_of w' s = Some v /\
  method_of w' s = Some (HydrateCached None) /\
  count is_storage_read (trace w') = count is_storage_read (trace w) + 1 /\
  IgrisMaster_get s w' = (v, w') /\
  state_of (exec (IgrisMaster_set s (Updater f)) w) s = Some (f v).
Proof.
  intros Hst Hpr Hf Hskip Hr v w'.
  destruct (get_first_sync w s st h r Hst Hpr Hf Hskip Hr) as (e & He & Hget).
  fold v in Hget. subst w'. unfold exec, eval. rewrite Hget. cbn [fst snd].
  set (w' := with_stores _ _).
  assert (Hst' : stores w' !! s
                 = Some (set_fetchCurrentState FetchCurrent
                           (hydrated_store st h (resolved_storage w h) None v))).
  { subst w'. simpl. by eapply lookup_insert_at. }
  split; [done|]. split; [by unfold state_of; rewrite Hst'|].
  split; [by unfold method_of; rewrite Hst'|]. split; [|split].
  - subst w'. simpl. rewrite count_app, count_cons, He, count_storage_read_notified. lia.
  - by rewrite (get_eq _ _ _ Hst').
  - cbn [IgrisMaster_set]. rewrite (bind_eq _ _ _ _ _ Hget).
    exact (set_value_state w' s _ (f v) Hst').
Qed.

(** X9. While an asynchronous hydration is in flight the container is
    usable: [hydrate()] leaves the state alone, and a [set(value)] made in
    the meantime takes effect. When the read resolves, the stored record is
    processed against the state of that moment, not the one [hydrate()] was
    called with: the hydrated state is the merge of the record into the
    value that was set meanwhile. *)
Theorem set_during_hydration (w : World) (s : nat) (st : IgrisMaster)
    (h : PersistHandler) (b : ActualStorage) (r : option string) (v : JS) :
  stores w !! s = Some st -> pristine st h ->
  resolved_storage w h = jsonPersistStorage b ->
  backend_getItem b (key h) = Later (Some r) ->
  let w1 := exec (hydrate s) w in
  let w2 := exec (IgrisMaster_set s (Value v)) w1 in
  let w3 := run (hydration_jobs (length (heap w))) w2 in
  state_of w1 s = Some (currentState st) /\
  state_of w2 s = Some v /\
  promise_state w2 (length (heap w) + 3) = None /\
  promise_state w3 (length (heap w) + 3) = Some (Fulfilled JUndefined) /\
  state_of w3 s
  = Some (processStoredData v (config h) (parseJSON (JSON_parse w) r)).
Proof.
  intros Hst Hpr Hres Hg w1 w2 w3. subst w3 w2 w1. unfold exec.
  pose proof Hpr as (Hp & Hm & Hu & Hl).
  rewrite (hydrate_async_spec w s st h Hst Hpr b _ Hres Hg). cbn [snd].
  set (w1 := with_stores _ _).
  assert (Hst1 : stores w1 !! s
                 = Some (hydrated_store st h (jsonPersistStorage b)
                           (Some (length (heap w) + 3)) (currentState st))).
  { subst w1. simpl. by eapply lookup_insert_at. }
  split; [by unfold state_of; rewrite Hst1|].
  cbn [IgrisMaster_set].
  rewrite (set_value_subscribed_spec w1 s _ (hydrated_handler h (jsonPersistStorage b)
             (Some (length (heap w) + 3))) (listeners st) v Hst1 eq_refl eq_refl Hl).
  cbn [snd]. set (w2 := with_stores _ _).
  assert (Hst2 : stores w2 !! s
                 = Some (map_persist (set_timeoutId (Some (next_timer w1)))
                           (set_currentState v
                              (hydrated_store st h (jsonPersistStorage b)
                                 (Some (length (heap w) + 3)) (currentState st))))).
  { subst w2. simpl. by eapply lookup_insert_at. }
  split; [by unfold state_of; rewrite Hst2|].
  split.
  { unfold promise_state. subst w2 w1. simpl. by rewrite lookup_tail. }
  unfold hydration_jobs. subst w2 w1.
  job run_external_spec.
  job run_parse_spec.
  job run_process_spec.
  job run_hydrate_spec.
  rewrite run_nil, to_raw_of_raw. split.
  - unfold promise_state. simpl. by rewrite lookup_tail.
  - unfold state_of. simpl. by erewrite lookup_insert_at.
Qed.

Lemma set_during_hydration_witness :
  let b := async_backend (Some (Some "{value:{count:5},version:0}")) in
  let p := Some (StorageInstance b) in
  let w := sample_world p in
  let v := JObj (<["count" := JNum 1]> (<["draft" := JBool true]> ∅)) in
  stores w !! 0 = Some (sample_store p) /\ pristine (sample_store p) (sample_handler p) /\
  resolved_storage w (sample_handler p) = jsonPersistStorage b /\
  backend_getItem b (key (sample_handler p))
    = Later (Some (Some "{value:{count:5},version:0}")) /\
  let w1 := exec (hydrate 0) w in
  let w2 := exec (IgrisMaster_set 0 (Value v)) w1 in
  let w3 := run (hydration_jobs (length (heap w))) w2 in
  state_of w1 0 = Some (currentState (sample_store p)) /\
  state_of w2 0 = Some v /\
  promise_state w2 (length (heap w) + 3) = None /\
  promise_state w3 (length (heap w) + 3) = Some (Fulfilled JUndefined) /\
  state_of w3 0
  = Some (processStoredData v (config (sample_handler p))
            (parseJSON (JSON_parse w) (Some "{value:{count:5},version:0}"))).
Proof.
  intros b p w v.
  assert (H1 : stores w !! 0 = Some (sample_store p)) by reflexivity.
  assert (H2 : pristine (sample_store p) (sample_handler p)).
  { repeat split; try reflexivity. simpl. apply not_elem_of_cons.
    split; [discriminate | apply not_elem_of_nil]. }
  assert (H3 : resolved_storage w (sample_handler p) = jsonPersistStorage b) by reflexivity.
  assert (H4 : backend_getItem b (key (sample_handler p))
               = Later (Some (Some "{value:{count:5},version:0}"))) by reflexivity.
  split; [exact H1|]. split; [exact H2|]. split; [exact H3|]. split; [exact H4|].
  exact (set_during_hydration w 0 (sample_store p) (sample_handler p) b _ v H1 H2 H3 H4).
Defined.

(** The update made during the hydration of the sample container keeps its
    own key, and loses [count] to the stored record. *)
Example sample_set_during_hydration :
  let b := async_backend (Some (Some "{value:{count:5},version:0}")) in
  let w := sample_world (Some (StorageInstance b)) in
  let v := JObj (<["count" := JNum 1]> (<["draft" := JBool true]> ∅)) in
  state_of (run (hydration_jobs 0) (exec (hydrate 0 >>> IgrisMaster_set 0 (Value v)) w)) 0
  = Some (JObj (<["count" := JNum 5]> (<["draft" := JBool true]> ∅))).
Proof. vm_compute. reflexivity. Qed.

(** ** The subscription of the handler *)

Lemma without_idem l ls : without l (without l ls ++ [l]) = without l ls.
Proof.
  unfold without. rewrite List.filter_app. simpl.
  rewrite bool_decide_eq_true_2 by done. simpl. rewrite app_nil_r.
  apply filter_other_id, filter_other_not_in.
Qed.

Lemma user_ids_without ls : user_ids (without LPersist ls ++ [LPersist]) = user_ids ls.
Proof.
  unfold user_ids. rewrite omap_app. simpl. rewrite app_nil_r. unfold without.
  induction ls as [|[|i] ls IH]; simpl; [done|done|]. f_equal. exact IH.
Qed.

Lemma subscribeStore_eq w s st h :
  stores w !! s = Some st -> persist st = Some h ->
  match unsubscribeStore h with
  | None => LPersist ∉ listeners st
  | Some l => l = LPersist
  end ->
  subscribeStore s w =
  (tt, with_stores
         (<[s := map_persist (set_unsubscribeStore (Some LPersist))
                   (set_listeners (without LPersist (listeners st) ++ [LPersist]) st)]>
            (stores w)) w).
Proof.
  intros Hst Hp Hu. destruct (unsubscribeStore h) as [l|] eqn:Hunsub.
  - subst l. unfold subscribeStore.
    rewrite (bind_eq _ _ _ _ _ (the_handler_eq _ _ _ _ Hst Hp)). rewrite Hunsub.
    unfold IgrisMaster_unsubscribe.
    rewrite (bind_eq _ _ _ _ _ (modify_store_eq _ _ _ _ Hst)).
    unfold IgrisMaster_subscribe.
    set (st1 := set_listeners _ st).
    assert (Hst1 : stores (with_stores (<[s := st1]> (stores w)) w) !! s = Some st1).
    { simpl. by eapply lookup_insert_at. }
    rewrite (bind_eq _ _ _ _ _ (modify_store_eq _ _ _ _ Hst1)). subst st1.
    cbn [listeners set_listeners]. fold (without LPersist (listeners st)). rewrite decide_False by apply filter_other_not_in.
    fold (without LPersist (listeners st)).
    erewrite modify_handler_eq by (simpl; by eapply lookup_insert_at).
    simpl. by rewrite !list_insert_insert_eq.
  - rewrite (subscribeStore_spec w s st h Hst Hp Hunsub Hu).
    unfold without. by rewrite filter_other_id.
Qed.

(** X10. [subscribeStore] registers the listener of the handler once,
    however often it runs: the old registration is dropped first, the
    listener ends up last, the listeners of the application keep their
    order, and a second call changes nothing. *)
Theorem subscribeStore_once (w : World) (s : nat) (st : IgrisMaster) (h : PersistHandler) :
  stores w !! s = Some st -> persist st = Some h ->
  match unsubscribeStore h with
  | None => LPersist ∉ listeners st
  | Some l => l = LPersist
  end ->
  let w' := exec (subscribeStore s) w in
  listeners_of w' s = Some (without LPersist (listeners st) ++ [LPersist]) /\
  user_ids (without LPersist (listeners st) ++ [LPersist]) = user_ids (listeners st) /\
  state_of w' s = state_of w s /\ trace w' = trace w /\
  subscribeStore s w' = (tt, w').
Proof.
  intros Hst Hp Hu w'. subst w'. unfold exec.
  rewrite (subscribeStore_eq w s st h Hst Hp Hu). cbn [snd].
  set (w' := with_stores _ w).
  assert (Hst' : stores w' !! s
                 = Some (map_persist (set_unsubscribeStore (Some LPersist))
                           (set_listeners (without LPersist (listeners st) ++ [LPersist]) st))).
  { subst w'. simpl. by eapply lookup_insert_at. }
  split; [by unfold listeners_of; rewrite Hst'|]. split; [|split; [|split; [done|]]].
  - apply user_ids_without.
  - unfold state_of. by rewrite Hst', Hst.
  - erewrite (subscribeStore_eq w' s _ _ Hst'); [|by simpl; rewrite Hp|done].
    f_equal. subst w'. apply world_ext; simpl; try reflexivity.
    rewrite list_insert_insert_eq. f_equal. rewrite without_idem.
    destruct st as [ls cs [h'|] fc]; simpl in *; [|done]. by destruct h'.
Qed.

Lemma subscribeStore_once_witness :
  let p := Some (StorageInstance (sync_backend None)) in
  let w := exec (hydrate 0 >>> IgrisMaster_subscribe 0 (LUser 8)) (sample_world p) in
  let h := hydrated_handler (sample_handler p) (jsonPersistStorage (sync_backend None)) None in
  let st := {| listeners := [LUser 7; LPersist; LUser 8]; currentState := sample_state;
               persist := Some h; fetchCurrentState := FetchInitialize |} in
  stores w !! 0 = Some st /\ persist st = Some h /\
  match unsubscribeStore h with
  | None => LPersist ∉ listeners st
  | Some l => l = LPersist
  end /\
  let w' := exec (subscribeStore 0) w in
  listeners_of w' 0 = Some (without LPersist (listeners st) ++ [LPersist]) /\
  user_ids (without LPersist (listeners st) ++ [LPersist]) = user_ids (listeners st) /\
  state_of w' 0 = state_of w 0 /\ trace w' = trace w /\
  subscribeStore 0 w' = (tt, w').
Proof.
  intros p w h st.
  assert (H1 : stores w !! 0 = Some st) by reflexivity.
  assert (H2 : persist st = Some h) by reflexivity.
  assert (H3 : match unsubscribeStore h with
               | None => LPersist ∉ listeners st
               | Some l => l = LPersist
               end) by reflexivity.
  split; [exact H1|]. split; [exact H2|]. split; [exact H3|].
  exact (subscribeStore_once w 0 st h H1 H2 H3).
Defined.

(** ** Hydration and writes with the default configuration *)

(** X11. With the default configuration, no [merge] and no [migrate], a
    completed hydration leaves the state alone when the stored document is
    falsy ([null], [0], [false], the empty string), and otherwise leaves a
    plain object: the own properties of the [value] of the record over
    those of the state, whether or not state and value are objects. *)
Theorem default_hydration (w : World) (s : nat) (st : IgrisMaster)
    (h : PersistHandler) (r : option string) :
  stores w !! s = Some st -> pristine st h ->
  merge (config h) = None -> migrate (config h) = None ->
  read_reply w h = Now r \/ read_reply w h = Later (Some r) ->
  let d := parseJSON (JSON_parse w) r in
  state_of (completed_hydration w s h) s
  = Some (if falsy d then currentState st
          else JObj (own_props (get_prop "value" d) ∪ own_props (currentState st))).
Proof.
  intros Hst Hpr Hmerge Hmig Hr d.
  destruct (completed_hydration_spec w s st h Hst Hpr) as (Hs & _).
  rewrite Hs. f_equal. unfold hydration_value.
  assert (Hv : processStoredData (currentState st) (config h) d
               = if falsy d then currentState st
                 else JObj (own_props (get_prop "value" d) ∪ own_props (currentState st))).
  { unfold processStoredData. destruct (falsy d); [done|]. rewrite Hmerge, Hmig. simpl.
    destruct (version_differs _ _); unfold shallowMerge; simpl; unfold spread2; simpl;
      by rewrite (right_id_L ∅ (∪)). }
  by destruct Hr as [-> | ->].
Qed.

Lemma default_hydration_witness :
  let p := Some (StorageInstance (sync_backend (Some "{value:{count:5},version:0}"))) in
  let w := sample_world p in
  stores w !! 0 = Some (sample_store p) /\ pristine (sample_store p) (sample_handler p) /\
  merge (config (sample_handler p)) = None /\ migrate (config (sample_handler p)) = None /\
  (read_reply w (sample_handler p) = Now (Some "{value:{count:5},version:0}") \/
   read_reply w (sample_handler p) = Later (Some (Some "{value:{count:5},version:0}"))) /\
  let d := parseJSON (JSON_parse w) (Some "{value:{count:5},version:0}") in
  state_of (completed_hydration w 0 (sample_handler p)) 0
  = Some (if falsy d then currentState (sample_store p)
          else JObj (own_props (get_prop "value" d) ∪ own_props (currentState (sample_store p)))).
Proof.
  intros p w.
  assert (H1 : stores w !! 0 = Some (sample_store p)) by reflexivity.
  assert (H2 : pristine (sample_store p) (sample_handler p)).
  { repeat split; try reflexivity. simpl. apply not_elem_of_cons.
    split; [discriminate | apply not_elem_of_nil]. }
  assert (H3 : merge (config (sample_handler p)) = None) by reflexivity.
  assert (H4 : migrate (config (sample_handler p)) = None) by reflexivity.
  assert (H5 : read_reply w (sample_handler p) = Now (Some "{value:{count:5},version:0}") \/
               read_reply w (sample_handler p)
               = Later (Some (Some "{value:{count:5},version:0}"))) by (left; reflexivity).
  split; [exact H1|]. split; [exact H2|]. split; [exact H3|]. split; [exact H4|].
  split; [exact H5|].
  exact (default_hydration w 0 (sample_store p) (sample_handler p) _ H1 H2 H3 H4 H5).
Defined.

(** X12. A debounced write is not early, when [debounceTime] is a delay
    that the host keeps (at most [TIMEOUT_MAX]): while less than
    [debounceTime] milliseconds have passed since [setItem], nothing has
    reached the storage and the write is still pending, due [debounceTime]
    milliseconds after the call. *)
Theorem write_waits (w : World) (s : nat) (st : IgrisMaster) (h : PersistHandler)
    (data : JS) (elapsed : nat) :
  stores w !! s = Some st -> persist st = Some h ->
  (forall t, t ∈ timers w -> timeoutId h = Some (timer_id t)) ->
  (Z.of_nat (debounceTime (config h)) <= TIMEOUT_MAX)%Z ->
  elapsed < debounceTime (config h) ->
  let w' := exec (PersistHandler_setItem s data >>> advance elapsed) w in
  trace w' = trace w /\ now w' = now w + elapsed /\
  write_pending w' s h data (now w + debounceTime (config h)).
Proof.
  intros Hst Hp Hown Hmax Hlt w'. subst w'.
  assert (Hd : timer_delay (debounceTime (config h)) = debounceTime (config h)).
  { destruct (timer_delay_cases (debounceTime (config h))) as [(-> & _)|(_ & [?|?])]; lia. }
  destruct (setItem_pending w s st h data Hst Hp Hown) as (w1 & E1 & Hw1 & Hn1 & Ht1 & _).
  rewrite Hd in Hw1.
  destruct (advance_pending elapsed w1 s h data _ Hw1) as (w2 & E2 & Hw2 & Hn2 & Ht2 & _);
    [lia|].
  unfold exec. rewrite (bind_eq _ _ _ _ _ E1), E2. cbn [snd].
  split; [congruence|]. split; [lia|done].
Qed.

Lemma write_waits_witness :
  let p := Some (StorageInstance (sync_backend None)) in
  let w := sample_world p in
  stores w !! 0 = Some (sample_store p) /\ persist (sample_store p) = Some (sample_handler p) /\
  (forall t, t ∈ timers w -> timeoutId (sample_handler p) = Some (timer_id t)) /\
  (Z.of_nat (debounceTime (config (sample_handler p))) <= TIMEOUT_MAX)%Z /\
  99 < debounceTime (config (sample_handler p)) /\
  let w' := exec (PersistHandler_setItem 0 sample_state >>> advance 99) w in
  trace w' = trace w /\ now w' = now w + 99 /\
  write_pending w' 0 (sample_handler p) sample_state
    (now w + debounceTime (config (sample_handler p))).
Proof.
  intros p w.
  assert (H1 : stores w !! 0 = Some (sample_store p)) by reflexivity.
  assert (H2 : persist (sample_store p) = Some (sample_handler p)) by reflexivity.
  assert (H3 : forall t, t ∈ timers w -> timeoutId (sample_handler p) = Some (timer_id t)).
  { intros t Ht. by apply elem_of_nil in Ht. }
  assert (Hmax : (Z.of_nat (debounceTime (config (sample_handler p))) <= TIMEOUT_MAX)%Z)
    by (by vm_compute).
  assert (H4 : 99 < debounceTime (config (sample_handler p))) by (simpl; lia).
  split; [exact H1|]. split; [exact H2|]. split; [exact H3|]. split; [exact Hmax|].
  split; [exact H4|].
  exact (write_waits w 0 (sample_store p) (sample_handler p) sample_state 99
           H1 H2 H3 Hmax H4).
Defined.

Lemma persistWrite_outcome w s st h data :
  stores w !! s = Some st -> persist st = Some h ->
  persistWrite s data w
  = (tt, with_heap (heap w ++ (write_outcome w h data).2)
           (with_trace (trace w ++ (write_outcome w h data).1) w)).
Proof.
  intros Hst Hp. unfold persistWrite, write_outcome.
  rewrite (bind_eq _ _ _ _ _ (the_handler_eq _ _ _ _ Hst Hp)).
  unfold stored_record.
  destruct (storage h) as [|b]; cbn [PersistStorage_setItem].
  - unfold logWarningAndReturn, bind, emit, modify, ret. simpl. f_equal.
    apply world_ext; simpl; try reflexivity. by rewrite app_nil_r.
  - unfold jsonPersistStorage_setItem, bind at 1 2 3, gets at 1.
    destruct (JSON_stringify w _) as [str|].
    + unfold bind at 1, emit at 1, modify at 1. cbn [trace with_trace].
      destruct (backend_setItem b (key h) str) as [[]|o];
        unfold bind, alloc, ret; simpl; f_equal; apply world_ext; simpl; try reflexivity.
      by rewrite <- app_assoc.
    + unfold bind, alloc, ret. simpl. f_equal.
      apply world_ext; simpl; try reflexivity. by rewrite app_nil_r.
Qed.

Section firing_any.

Context (s : nat) (h0 : PersistHandler) (data : JS).

Lemma write_outcome_same w w' h :
  storage h = storage h0 -> config h = config h0 -> key h = key h0 ->
  JSON_stringify w' = JSON_stringify w -> heap w' = heap w ->
  write_outcome w' h data = write_outcome w h0 data.
Proof. unfold write_outcome. by intros -> -> -> -> ->. Qed.

Lemma fire_due_writes w due_ :
  write_pending w s h0 data due_ -> due_ <= now w ->
  fire_due w = (tt, written h0 data w).
Proof.
  intros (st & h & tid & Hst & Hp & Hs & Hc & Hk & Ht & Hts) Hdue.
  rewrite (fire_due_single w _ Hts Hdue). cbn [run_callback callback].
  unfold exec. erewrite persistWrite_outcome by (simpl; eassumption).
  rewrite (write_outcome_same w _ h Hs Hc Hk) by done. cbn [snd]. unfold written.
  f_equal.
Qed.

Lemma tick_writes w due_ :
  write_pending w s h0 data due_ -> due_ <= now w + 1 ->
  tick w = (tt, with_now (S (now w)) (written h0 data w)).
Proof.
  intros Hw Hdue. unfold tick.
  destruct (decide (due_ <= now w)) as [Hle|Hgt].
  - rewrite (bind_eq _ _ _ _ _ (fire_due_writes w due_ Hw Hle)).
    unfold bind at 1, modify at 1.
    apply fire_due_idle. simpl. intros t Ht. by apply elem_of_nil in Ht.
  - assert (Hf : fire_due w = (tt, w)).
    { apply fire_due_idle. destruct Hw as (st & h & tid & _ & _ & _ & _ & _ & _ & ->).
      intros t ->%list_elem_of_singleton. simpl. lia. }
    assert (Hw1 : write_pending (with_now (S (now w)) w) s h0 data due_).
    { destruct Hw as (st & h & tid & ?). by exists st, h, tid. }
    rewrite (bind_eq _ _ _ _ _ Hf). unfold bind at 1, modify at 1.
    rewrite (fire_due_writes _ due_ Hw1) by (simpl; lia).
    f_equal.
Qed.

Lemma advance_writes q : forall w due_,
  write_pending w s h0 data due_ -> due_ <= now w + q -> 0 < q ->
  advance q w = (tt, with_now (now w + q) (written h0 data w)).
Proof.
  induction q as [|q IH]; intros w due_ Hw Hdue Hq; [lia|].
  cbn [advance].
  destruct (decide (due_ <= now w + 1)) as [Hle|Hgt].
  - rewrite (bind_eq _ _ _ _ _ (tick_writes w due_ Hw Hle)).
    rewrite advance_idle.
    + f_equal. apply world_ext; simpl; try reflexivity. lia.
    + simpl. intros t Ht. by apply elem_of_nil in Ht.
  - assert (Hidle : tick w = (tt, with_now (S (now w)) w)).
    { apply tick_idle. destruct Hw as (st & h & tid & _ & _ & _ & _ & _ & _ & ->).
      intros t ->%list_elem_of_singleton. simpl. lia. }
    assert (Hw1 : write_pending (with_now (S (now w)) w) s h0 data due_).
    { destruct Hw as (st & h & tid & ?). by exists st, h, tid. }
    rewrite (bind_eq _ _ _ _ _ Hidle).
    rewrite (IH (with_now (S (now w)) w) due_ Hw1) by (simpl; lia).
    f_equal. apply world_ext; simpl; try reflexivity. lia.
Qed.

End firing_any.

(** X13. What a debounced write does once [debounceTime] has passed, for
    each state of the storage. On the uninitialized storage it only logs
    the warning of the sentinel. When [JSON.stringify] throws, nothing is
    written and nothing is logged: [setItem] of the adapter is [async], so
    the error is a rejected promise that the [catch] around the call never
    sees. Otherwise the serialized record goes to the backend under the key
    of the handler. No timer is left in any case. *)
Theorem debounced_write_outcome (w : World) (s : nat) (st : IgrisMaster)
    (h : PersistHandler) (data : JS) (quiet : nat) :
  stores w !! s = Some st -> persist st = Some h ->
  (forall t, t ∈ timers w -> timeoutId h = Some (timer_id t)) ->
  debounceTime (config h) <= quiet -> 0 < quiet ->
  let w' := exec (PersistHandler_setItem s data >>> advance quiet) w in
  timers w' = [] /\
  match storage h with
  | UninitializedStorage =>
      trace w' = trace w ++
        [LogWarn "Attempted to access storage before initialization, method : setItem"] /\
      heap w' = heap w
  | jsonPersistStorage b =>
      match JSON_stringify w (stored_record (config h) data) with
      | None => trace w' = trace w /\ heap w' = heap w ++ [settled Rejected]
      | Some str =>
          trace w' = trace w ++ [BackendSet (key h) str] /\
          exists p, heap w' = heap w ++ p /\
                    (forall r, backend_setItem b (key h) str = Now r ->
                               p = [settled (Fulfilled JUndefined)])
      end
  end.
Proof.
  intros Hst Hp Hown Hquiet Hpos w'. subst w'.
  destruct (setItem_pending w s st h data Hst Hp Hown) as (w1 & E1 & Hw1 & Hn1 & Ht1 & Hj1).
  assert (Hh1 : heap w1 = heap w).
  { rewrite (setItem_spec w s st h data Hst Hp) in E1. by injection E1 as <-. }
  unfold exec. rewrite (bind_eq _ _ _ _ _ E1).
  pose proof (timer_delay_le _ _ Hquiet Hpos) as Hle.
  rewrite (advance_writes s h data quiet w1 _ Hw1) by lia. cbn [snd].
  assert (Hout : write_outcome w1 h data = write_outcome w h data).
  { unfold write_outcome. by rewrite Hj1, Hh1. }
  unfold written. rewrite Hout, Ht1, Hh1. simpl. split; [done|].
  unfold write_outcome.
  destruct (storage h) as [|b]; simpl; [by rewrite app_nil_r|].
  destruct (JSON_stringify w _) as [str|]; simpl; [|by rewrite app_nil_r].
  split; [done|]. eexists. split; [done|]. by intros r ->.
Qed.

Lemma debounced_write_outcome_witness :
  let p := Some (StorageInstance (sync_backend None)) in
  let w := exec (hydrate 0) (sample_world p) in
  let h := hydrated_handler (sample_handler p) (jsonPersistStorage (sync_backend None)) None in
  let st := hydrated_store (sample_store p) (sample_handler p)
              (jsonPersistStorage (sync_backend None)) None sample_state in
  let data := JObj (<["count" := JNum 3]> ∅) in
  stores w !! 0 = Some st /\ persist st = Some h /\
  (forall t, t ∈ timers w -> timeoutId h = Some (timer_id t)) /\
  debounceTime (config h) <= 100 /\ 0 < 100 /\
  let w' := exec (PersistHandler_setItem 0 data >>> advance 100) w in
  timers w' = [] /\
  match storage h with
  | UninitializedStorage =>
      trace w' = trace w ++
        [LogWarn "Attempted to access storage before initialization, method : setItem"] /\
      heap w' = heap w
  | jsonPersistStorage b =>
      match JSON_stringify w (stored_record (config h) data) with
      | None => trace w' = trace w /\ heap w' = heap w ++ [settled Rejected]
      | Some str =>
          trace w' = trace w ++ [BackendSet (key h) str] /\
          exists p, heap w' = heap w ++ p /\
                    (forall r, backend_setItem b (key h) str = Now r ->
                               p = [settled (Fulfilled JUndefined)])
      end
  end.
Proof.
  intros p w h st data.
  assert (H1 : stores w !! 0 = Some st) by reflexivity.
  assert (H2 : persist st = Some h) by reflexivity.
  assert (H3 : forall t, t ∈ timers w -> timeoutId h = Some (timer_id t)).
  { intros t Ht. by apply elem_of_nil in Ht. }
  assert (H4 : debounceTime (config h) <= 100) by (simpl; lia).
  assert (H5 : 0 < 100) by lia.
  split; [exact H1|]. split; [exact H2|]. split; [exact H3|]. split; [exact H4|].
  split; [exact H5|].
  exact (debounced_write_outcome w 0 st h data 100 H1 H2 H3 H4 H5).
Defined.



(** ** State containers *)

Lemma isObject_plain item : isObject item = true <-> exists m, item = JObj m.
Proof.
  split; [|by intros [m ->]].
  destruct item; unfold isObject; simpl; rewrite ?andb_false_r; try done. by eauto.
Qed.

Lemma IgrisState_merge_cases currentState_ storeState :
  IgrisState_merge currentState_ storeState
  = match currentState_, storeState with
    | JObj current, JObj stored => JObj (stored ∪ current)
    | _, _ => storeState
    end.
Proof.
  unfold IgrisState_merge.
  destruct (isObject storeState) eqn:Hs.
  - apply isObject_plain in Hs as [ms ->].
    destruct (isObject currentState_) eqn:Hc.
    + apply isObject_plain in Hc as [mc ->]. simpl.
      unfold shallowMerge, spread2. simpl. by rewrite (right_id_L ∅ (∪)).
    + simpl. by destruct currentState_.
  - simpl. by destruct storeState, currentState_.
Qed.

Lemma IgrisState_new_spec w initialState c n o :
  IgrisState_new initialState (Some (String c n)) (Some o) w
  = (length (stores w),
     with_stores (stores w ++ [new_state_store initialState (String c n) o]) w).
Proof.
  unfold IgrisState_new, IgrisMaster_new.
  unfold bind at 1 2 3 4 5, ret at 1 2, gets at 1, modify at 1. cbn [fst snd].
  unfold the_handler, gets. cbn [stores with_stores].
  rewrite lookup_app_r, Nat.sub_diag by done. cbn -[PersistHandler_new].
  destruct (opt_merge o) as [m|] eqn:Hm; cbn [PersistHandler_new config merge]; rewrite Hm.
  - unfold bind, ret. f_equal. apply world_ext; simpl; try reflexivity.
    unfold new_state_store. rewrite Hm. simpl. repeat f_equal.
    unfold set_config_merge, PersistHandler_new. simpl. by rewrite Hm.
  - unfold bind, ret, modify_handler, modify_store, modify. simpl. f_equal.
    apply world_ext; simpl; try reflexivity.
    erewrite alter_at by (by rewrite lookup_app_r, Nat.sub_diag).
    rewrite insert_app_r_alt, Nat.sub_diag by done. simpl.
    unfold new_state_store. by rewrite Hm.
Qed.

(** X15. A state container ([createState], [IgrisState]) replaces the
    default merge, unless the user configured one: its first read, on a
    storage that answers at once, yields the stored value itself when the
    state or the stored value is not a plain object (a number stays a
    number), and the shallow merge of the stored value into the state when
    both are. A falsy document leaves the initial state. *)
Theorem IgrisState_hydrates (w : World) (initialState : JS) (name : string)
    (o : PersistOptions) (b : ActualStorage) (r : option string) :
  name <> EmptyString ->
  opt_merge o = None -> opt_migrate o = None ->
  default false (opt_skipHydrate o) = false ->
  opt_storage o = Some (StorageInstance b) ->
  backend_getItem b name = Now r ->
  let s := length (stores w) in
  let w0 := exec (IgrisState_new initialState (Some name) (Some o)) w in
  let d := parseJSON (JSON_parse w) r in
  let v := if falsy d then initialState
           else match initialState, get_prop "value" d with
                | JObj current, JObj stored => JObj (stored ∪ current)
                | _, _ => get_prop "value" d
                end in
  eval (IgrisState_new initialState (Some name) (Some o)) w = s /\
  eval (IgrisMaster_get s) w0 = v /\
  state_of (exec (IgrisMaster_get s) w0) s = Some v.
Proof.
  intros Hname Hmerge Hmig Hskip Hstor Hb s w0 d v. subst w0. unfold exec, eval.
  destruct name as [|c n]; [done|]. clear Hname.
  rewrite IgrisState_new_spec. cbn [fst snd]. split; [done|].
  set (st := new_state_store initialState (String c n) o).
  set (w0 := with_stores _ w).
  assert (Hst : stores w0 !! s = Some st).
  { subst w0 s. simpl. by rewrite lookup_app_r, Nat.sub_diag. }
  set (h := set_config_merge (Some (default IgrisState_merge (opt_merge o)))
              (PersistHandler_new (String c n) o)).
  assert (Hpr : pristine st h).
  { repeat split. apply not_elem_of_nil. }
  assert (Hr : read_reply w0 h = Now r).
  { unfold read_reply, resolved_storage. subst h. simpl. rewrite Hstor. simpl. exact Hb. }
  destruct (get_first_sync w0 s st h r Hst Hpr eq_refl Hskip Hr) as (e & _ & Hget).
  assert (Hv : hydration_value w0 st h = v).
  { unfold hydration_value. rewrite Hr. subst v d. simpl.
    unfold processStoredData. destruct (falsy _); [done|].
    simpl. rewrite Hmerge, Hmig. simpl.
    destruct (version_differs _ _); apply IgrisState_merge_cases. }
  rewrite Hv in Hget. rewrite Hget. cbn [fst snd]. split; [done|].
  unfold state_of. simpl. by erewrite lookup_insert_at.
Qed.

Lemma IgrisState_hydrates_witness :
  let b := sync_backend (Some "{value:{count:5},version:0}") in
  let o := sample_options (Some (StorageInstance b)) in
  let w := empty_world in
  "counter" <> EmptyString /\
  opt_merge o = None /\ opt_migrate o = None /\
  default false (opt_skipHydrate o) = false /\
  opt_storage o = Some (StorageInstance b) /\
  backend_getItem b "counter" = Now (Some "{value:{count:5},version:0}") /\
  let s := length (stores w) in
  let w0 := exec (IgrisState_new (JNum 0) (Some "counter") (Some o)) w in
  let d := parseJSON (JSON_parse w) (Some "{value:{count:5},version:0}") in
  let v := if falsy d then JNum 0
           else match JNum 0, get_prop "value" d with
                | JObj current, JObj stored => JObj (stored ∪ current)
                | _, _ => get_prop "value" d
                end in
  eval (IgrisState_new (JNum 0) (Some "counter") (Some o)) w = s /\
  eval (IgrisMaster_get s) w0 = v /\
  state_of (exec (IgrisMaster_get s) w0) s = Some v.
Proof.
  intros b o w.
  assert (H0 : "counter" <> EmptyString) by discriminate.
  assert (H1 : opt_merge o = None) by reflexivity.
  assert (H2 : opt_migrate o = None) by reflexivity.
  assert (H3 : default false (opt_skipHydrate o) = false) by reflexivity.
  assert (H4 : opt_storage o = Some (StorageInstance b)) by reflexivity.
  assert (H5 : backend_getItem b "counter"
               = Now (Some "{value:{count:5},version:0}")) by reflexivity.
  split; [exact H0|]. split; [exact H1|]. split; [exact H2|]. split; [exact H3|]. split; [exact H4|].
  split; [exact H5|].
  exact (IgrisState_hydrates w (JNum 0) "counter" o b _ H0 H1 H2 H3 H4 H5).
Defined.

(** A counter kept as a number: the state container restores the stored
    number, where the plain container with the default merge is left with
    an empty object. *)
Example sample_number_state :
  let b := sync_backend (Some "5") in
  let o := sample_options (Some (StorageInstance b)) in
  let host := {| stores := []; gates := []; heap := []; timers := []; now := 0;
                 next_timer := 0; trace := [];
                 JSON_parse := fun _ =>
                   Some (JObj (<["value" := JNum 5]> (<["version" := JNum 1]> ∅)));
                 JSON_stringify := sample_stringify; localStorage := None |} in
  eval (IgrisState_new (JNum 0) (Some "n") (Some o) >>> IgrisMaster_get 0) host = JNum 5 /\
  eval (IgrisMaster_new (JNum 0) (Some "n") (Some o) >>> IgrisMaster_get 0) host = JObj ∅.
Proof. vm_compute. split; reflexivity. Qed.

(** ** The coordinator, invoked again *)

Lemma undisturbed_refl w : undisturbed w w.
Proof. by repeat split. Qed.

Lemma undisturbed_trans w1 w2 w3 : undisturbed w1 w2 -> undisturbed w2 w3 -> undisturbed w1 w3.
Proof.
  intros (H1 & H1t & H1') (H2 & H2t & H2'). split; [congruence|]. split; [congruence|].
  intros s. destruct (H1' s) as (? & ? & ? & ?), (H2' s) as (? & ? & ? & ?).
  repeat split; congruence.
Qed.

Lemma undisturbed_stores w w' :
  stores w' = stores w -> trace w' = trace w -> timers w' = timers w -> undisturbed w w'.
Proof.
  intros Hs Ht Hti. split; [done|]. split; [done|]. intros s.
  unfold listeners_of, state_of, storage_of, method_of. by rewrite Hs.
Qed.

(** Injecting the fallback storage changes the configuration only. *)
Lemma inject_undisturbed w s p :
  undisturbed w (exec (modify_handler s (set_config_storage p)) w) /\
  heap (exec (modify_handler s (set_config_storage p)) w) = heap w.
Proof.
  split; [|done]. split; [done|]. split; [done|]. intros s'.
  unfold listeners_of, state_of, storage_of, method_of, exec, modify_handler,
    modify_store, modify. simpl.
  destruct (decide (s' = s)) as [->|Hne].
  - rewrite list_lookup_alter_eq. destruct (stores w !! s) as [st|]; [|done]. simpl.
    by destruct (persist st).
  - by rewrite list_lookup_alter_ne.
Qed.

Lemma handle_of_method w w' s :
  method_of w' s = method_of w s -> handle_of w' s = handle_of w s.
Proof. unfold handle_of. by intros ->. Qed.

Lemma omap_ext_in {A B} (f g : A -> option B) (l : list A) :
  (forall x, x ∈ l -> f x = g x) -> omap f l = omap g l.
Proof.
  induction l as [|x l IH]; intros H; [done|]. cbn [omap list_omap].
  rewrite (H x (list_elem_of_here _ _)), IH; [done|].
  intros y Hy. apply H. by apply list_elem_of_further.
Qed.

(** The loop of the coordinator on containers that have been hydrated. *)
Lemma setupHydrator_loop_hydrated ss cfg w :
  (forall s, s ∈ ss -> method_of w s <> Some HydrateOriginal) ->
  exists wl,
    setupHydrator_loop ss cfg w = (omap (handle_of w) ss, wl) /\
    undisturbed w wl /\ heap wl = heap w.
Proof.
  revert w. induction ss as [|s rest IH]; intros w Hall.
  - exists w. split; [done|]. split; [apply undisturbed_refl|done].
  - cbn [setupHydrator_loop]. rewrite (bind_eq _ _ _ _ _ (the_handler_method w s)).
    assert (Hrest : forall s', s' ∈ rest -> method_of w s' <> Some HydrateOriginal).
    { intros s' Hs'. apply Hall. by apply list_elem_of_further. }
    destruct (stores w !! s ≫= persist) as [h|] eqn:Hh.
    + set (inject := match config_storage (config h), cfg with
                     | None, Some fallback =>
                         modify_handler s (set_config_storage (Some fallback))
                     | _, _ => ret tt
                     end).
      assert (Hinj : undisturbed w (exec inject w) /\ heap (exec inject w) = heap w).
      { subst inject. destruct (config_storage (config h)), cfg;
          try (split; [apply undisturbed_refl|done]). apply inject_undisturbed. }
      destruct Hinj as [Hq Hheap]. unfold exec in Hq, Hheap.
      destruct (inject w) as [[] w0] eqn:E0. cbn [snd] in Hq, Hheap.
      rewrite (bind_eq _ _ _ _ _ E0).
      assert (Hm0 : forall s', method_of w0 s' = method_of w s') by (intros s'; apply Hq).
      assert (Hs : method_of w0 s <> Some HydrateOriginal).
      { rewrite Hm0. apply Hall, list_elem_of_here. }
      rewrite (bind_eq _ _ _ _ _ (handle_of_hydrate w0 s Hs)).
      destruct (IH w0) as (wl & Eloop & Hql & Hhl).
      { intros s' Hs'. rewrite Hm0. by apply Hrest. }
      rewrite (bind_eq _ _ _ _ _ Eloop). exists wl. split; [|split].
      * unfold ret. f_equal. cbn [omap list_omap].
        rewrite (handle_of_method w w0 s (Hm0 s)).
        assert (Ho : omap (handle_of w0) rest = omap (handle_of w) rest).
        { apply omap_ext_in. intros s' _. apply handle_of_method, Hm0. }
        rewrite Ho. by destruct (handle_of w s).
      * by eapply undisturbed_trans.
      * congruence.
    + destruct (IH w Hrest) as (wl & Eloop & Hql & Hhl).
      exists wl. split; [|done]. rewrite Eloop. f_equal. cbn [omap list_omap].
      assert (Hn : handle_of w s = None).
      { unfold handle_of, method_of. by rewrite Hh. }
      by rewrite Hn.
Qed.

(** X16. A second invocation of the coordinator, on the same containers and
    with any fallback storage, hydrates nothing again: no storage is read
    and no listener is called (the trace is as it was), no write is
    scheduled, and every container keeps its state, its listeners, its
    storage object and its cached [hydrate]. It returns [undefined] exactly
    when the first invocation did; otherwise it returns a new pending
    promise, the join of the same hydration promises. *)
Theorem setupHydrator_again (stores_ : list nat)
    (config_ config' : option StorageProvider) (w : World) :
  let w1 := exec (setupHydrator stores_ config_) w in
  let w2 := exec (setupHydrator stores_ config') w1 in
  let ps := omap (fun s => eval (hydrate s) w1) stores_ in
  trace w2 = trace w1 /\ timers w2 = timers w1 /\
  (forall s, listeners_of w2 s = listeners_of w1 s /\ state_of w2 s = state_of w1 s /\
             storage_of w2 s = storage_of w1 s /\ method_of w2 s = method_of w1 s) /\
  match eval (setupHydrator stores_ config_) w,
        eval (setupHydrator stores_ config') w1 with
  | None, None => heap w2 = heap w1
  | Some p, Some p' =>
      p < p' /\
      heap w2 = heap w1 ++ [pending (PromiseAll ps); pending (AwaitAll (length (heap w1)))] /\
      p' = S (length (heap w1))
  | _, _ => False
  end.
Proof.
  intros w1 w2 ps.
  destruct (setupHydrator_spec stores_ config_ w) as (wl & Hle & Hall & Hres).
  cbv zeta in Hres.
  (* the first invocation *)
  assert (H1 : stores w1 = stores wl /\
               (eval (setupHydrator stores_ config_) w = None <->
                omap (handle_of wl) stores_ = []) /\
               forall p, eval (setupHydrator stores_ config_) w = Some p ->
                         S p = length (heap w1)).
  { subst w1. unfold exec, eval. destruct (omap (handle_of wl) stores_) as [|q qs] eqn:Eps.
    - rewrite Hres. by repeat split.
    - destruct Hres as (w' & -> & Hst & Hheap). cbn [fst snd].
      split; [done|]. split; [done|]. intros p [= <-]. rewrite Hheap, length_app. simpl. lia. }
  destruct H1 as (Hst1 & Hnone1 & Hsome1).
  assert (Hm1 : forall s, method_of w1 s = method_of wl s)
    by (intros s; by apply method_of_stores).
  assert (Hcached : forall s, s ∈ stores_ -> method_of w1 s <> Some HydrateOriginal).
  { intros s Hs. rewrite Hm1. by apply Hall. }
  assert (Hps : ps = omap (handle_of w1) stores_).
  { subst ps. apply omap_ext_in. intros s Hs. unfold eval.
    by rewrite handle_of_hydrate by (by apply Hcached). }
  assert (Hps1 : omap (handle_of wl) stores_ = ps).
  { rewrite Hps. apply omap_ext_in. intros s _. symmetry. apply handle_of_method, Hm1. }
  rewrite Hps1 in Hnone1.
  (* the second one *)
  destruct (setupHydrator_loop_hydrated stores_ config' w1 Hcached)
    as (wl2 & Eloop & (Htr & Hti & Hcont) & Hheap).
  rewrite <- Hps in Eloop.
  assert (E2 : setupHydrator stores_ config' w1
               = match ps with
                 | [] => (None, wl2)
                 | _ => (Some (S (length (heap w1))),
                         with_heap (heap w1 ++ [pending (PromiseAll ps);
                                                pending (AwaitAll (length (heap w1)))]) wl2)
                 end).
  { unfold setupHydrator. rewrite (bind_eq _ _ _ _ _ Eloop).
    destruct ps as [|q qs]; [done|].
    unfold runImmediately, bind, alloc, ret. cbn [heap with_heap fst snd].
    rewrite Hheap. f_equal.
    - f_equal. rewrite length_app. simpl. lia.
    - apply world_ext; simpl; try reflexivity. by rewrite <- app_assoc. }
  assert (Hw2 : trace w2 = trace wl2 /\ timers w2 = timers wl2 /\ stores w2 = stores wl2).
  { subst w2. unfold exec. rewrite E2. by destruct ps. }
  destruct Hw2 as (Htr2 & Hti2 & Hst2).
  split; [congruence|]. split; [congruence|]. split.
  { intros s. destruct (Hcont s) as (? & ? & ? & ?).
    unfold listeners_of, state_of, storage_of, method_of in *. rewrite Hst2. done. }
  subst w2. unfold exec at 1 2. unfold eval in *. rewrite E2.
  destruct (setupHydrator stores_ config_ w).1 as [p|] eqn:Er.
  - destruct ps as [|q qs] eqn:Eqs.
    + destruct Hnone1 as [_ H]. by specialize (H eq_refl).
    + cbn [fst snd]. specialize (Hsome1 p eq_refl). split; [lia|]. done.
  - destruct Hnone1 as [H _]. rewrite (H eq_refl). exact Hheap.
Qed.

(** The two asynchronous containers: the second invocation joins the
    promises of the first, and reads no storage. *)
Example sample_second_invocation :
  let w1 := exec (setupHydrator [0; 1; 2] None) sample_pair in
  let w2 := exec (setupHydrator [0; 1; 2] None) w1 in
  eval (setupHydrator [0; 1; 2] None) sample_pair = Some 9 /\
  eval (setupHydrator [0; 1; 2] None) w1 = Some 11 /\
  heap w2 !! 10 = Some (pending (PromiseAll [3; 7])) /\
  count is_storage_read (trace w1) = 2 /\
  count is_storage_read (trace w2) = 2.
Proof. vm_compute. repeat split. Qed.

(** ** The gate, evaluated again *)

(** X17. Once a gate has been evaluated, evaluating it again, at any later
    time, changes nothing at all: the hydration function is not run again,
    the realm is left as it is, and the output is what the gate shows. And
    once the gate is open, its subscription attaches no reaction. *)
Theorem render_again (g : nat) (pr : HydratorProps) (w : World) (acts : list Action) :
  gates w !! g = Some (new_gate pr) -> unsubscribed w g ->
  let w1 := run acts (exec (render g) w) in
  exec (render g) w1 = w1 /\
  Some (eval (render g) w1) = shown w1 g /\
  (gate_open w1 g -> exec (mount g) w1 = w1).
Proof.
  intros Hg Hun w1.
  destruct (render_first_inv w g pr Hg Hun) as (ref & Hne & Hinv & _).
  apply (gate_inv_run acts) in Hinv as [Hinv _]. fold w1 in Hinv.
  destruct Hinv as (gate & Hg1 & Href & _ & Hren & _).
  assert (Hr : promiseRef gate <> RefUndefined) by (by rewrite Href).
  pose proof (render_cached w1 g gate Hg1 Hr) as E. cbv zeta in E.
  unfold exec, eval. rewrite E. cbn [fst snd]. rewrite <- Hren, set_rendered_same.
  split; [|split].
  - rewrite list_insert_id by done. by destruct w1.
  - unfold shown. by rewrite Hg1.
  - unfold gate_open. rewrite Hg1. intros [= Hopen].
    unfold mount, bind, the_gate, gets. rewrite Hg1.
    destruct gate as [pr' ref' hyd [out|]]; [|done]. simpl in *. subst hyd.
    unfold subscribe, bind, the_gate, gets. by rewrite Hg1.
Qed.

Lemma render_again_witness :
  let pr := PropsStores [0] None in
  let w := sample_gate pr in
  let acts := [AMount 0; ARun 0; ARun 1] in
  gates w !! 0 = Some (new_gate pr) /\ unsubscribed w 0 /\
  let w1 := run acts (exec (render 0) w) in
  exec (render 0) w1 = w1 /\
  Some (eval (render 0) w1) = shown w1 0 /\
  (gate_open w1 0 -> exec (mount 0) w1 = w1).
Proof.
  intros pr w acts.
  assert (Hg : gates w !! 0 = Some (new_gate pr)) by reflexivity.
  assert (Hun : unsubscribed w 0).
  { intros r c src Hc. destruct r; discriminate Hc. }
  split; [exact Hg|]. split; [exact Hun|].
  exact (render_again 0 pr w acts Hg Hun).
Defined.

(** ** The fallback storage of the coordinator *)

Lemma leaves_store_ret s {A} (a : A) : leaves_store s (ret a).
Proof. done. Qed.

Lemma leaves_store_gets s {A} (f : World -> A) : leaves_store s (gets f).
Proof. done. Qed.

Lemma leaves_store_alloc s c : leaves_store s (alloc c).
Proof. done. Qed.

Lemma leaves_store_modify s f :
  (forall w, stores (f w) = stores w) -> leaves_store s (modify f).
Proof. intros H w. simpl. by rewrite H. Qed.

Lemma leaves_store_modify_store s s' f : s <> s' -> leaves_store s (modify_store s' f).
Proof. intros H w. simpl. by rewrite list_lookup_alter_ne. Qed.

Lemma leaves_store_bind s {A B} (m : M A) (k : A -> M B) :
  leaves_store s m -> (forall a, leaves_store s (k a)) -> leaves_store s (bind m k).
Proof.
  intros Hm Hk w. unfold bind. specialize (Hm w).
  destruct (m w) as [a w1]. simpl in *. by rewrite Hk.
Qed.

Lemma leaves_store_forEach s {A} (l : list A) (body : A -> M unit) :
  (forall x, leaves_store s (body x)) -> leaves_store s (forEach l body).
Proof.
  intros Hb. induction l as [|x l IH]; simpl; [done|].
  apply leaves_store_bind; [apply Hb|]. intros _. apply IH.
Qed.

Ltac leaves_store_step :=
  first
    [ assumption
    | apply leaves_store_ret
    | apply leaves_store_gets
    | apply leaves_store_alloc
    | apply leaves_store_bind; [ | intros ? ]
    | apply leaves_store_modify; intros ?; reflexivity
    | apply leaves_store_modify_store; assumption
    | apply leaves_store_forEach; intros ?
    | match goal with
      | |- leaves_store _ (match ?x with _ => _ end) => destruct x
      | |- leaves_store _ (if ?x then _ else _) => destruct x
      end ].

Ltac leaves_store_tac := repeat leaves_store_step.

(** [hydrate()] of one container leaves the other containers alone. *)
Lemma leaves_store_hydrate s s' : s <> s' -> leaves_store s (hydrate s').
Proof.
  intros H.
  unfold hydrate, initializeStorage, PersistHandler_getItem, PersistStorage_getItem,
    jsonPersistStorage_getItem, logWarningAndReturn, runImmediately,
    IgrisMaster_set_value, notify, call_listener, PersistHandler_setItem, setTimeout,
    clearTimeout, subscribeStore, IgrisMaster_subscribe, IgrisMaster_unsubscribe,
    hydrate_cached, modify_handler, the_handler, the_store, emit.
  leaves_store_tac.
Qed.

Lemma bind_ret_snd {A B} (m : M A) (f : A -> B) w :
  (bind m (fun a => ret (f a)) w).2 = (m w).2.
Proof. unfold bind, ret. by destruct (m w). Qed.

(** The handler that the first [hydrate()] leaves. *)
Lemma hydrate_pristine_handler w s st h :
  stores w !! s = Some st -> pristine st h ->
  exists r,
    (stores (exec (hydrate s) w) !! s ≫= persist)
    = Some (hydrated_handler h (resolved_storage w h) r).
Proof.
  intros Hst Hpr. unfold exec.
  destruct (resolved_storage w h) as [|b] eqn:Hres.
  - rewrite (hydrate_sentinel_spec w s st h Hst Hpr Hres). exists None. simpl.
    by erewrite lookup_insert_at.
  - destruct (backend_getItem b (key h)) as [r|o] eqn:Hb.
    + rewrite (hydrate_sync_spec w s st h Hst Hpr b r Hres Hb). exists None. simpl.
      by erewrite lookup_insert_at.
    + rewrite (hydrate_async_spec w s st h Hst Hpr b o Hres Hb). eexists. simpl.
      by erewrite lookup_insert_at.
Qed.

(** The loop of the coordinator leaves a container alone that is not in
    the list, or that has been hydrated with a storage provider in its
    configuration. *)
Lemma setupHydrator_loop_leaves ss cfg s w :
  s ∉ ss \/
  (method_of w s <> Some HydrateOriginal /\ (method_of w s <> None -> provider_of w s <> None)) ->
  stores (exec (setupHydrator_loop ss cfg) w) !! s = stores w !! s.
Proof.
  revert w. induction ss as [|s0 rest IH]; intros w Hs; [done|].
  unfold exec. cbn [setupHydrator_loop].
  rewrite (bind_eq _ _ _ _ _ (the_handler_method w s0)).
  destruct (decide (s0 = s)) as [->|Hne].
  - (* the container itself: hydrated before *)
    destruct Hs as [Hs|[Hm Hp]]; [by destruct Hs; apply list_elem_of_here|].
    destruct (stores w !! s ≫= persist) as [h|] eqn:Hh.
    + assert (Hc : config_storage (config h) <> None).
      { unfold provider_of in Hp. rewrite Hh in Hp. apply Hp.
        unfold method_of. by rewrite Hh. }
      destruct (config_storage (config h)) as [own|] eqn:Hown; [|done].
      unfold bind at 1, ret at 1.
      rewrite (bind_eq _ _ _ _ _ (handle_of_hydrate w s Hm)).
      rewrite bind_ret_snd. apply IH. by right.
    + apply IH. right. done.
  - (* another container *)
    assert (Hrest : forall w1, stores w1 !! s = stores w !! s ->
              stores (exec (setupHydrator_loop rest cfg) w1) !! s = stores w !! s).
    { intros w1 H1. rewrite <- H1. apply IH.
      destruct Hs as [Hs|Hs]; [left; by apply not_elem_of_cons in Hs as [_ ?]|right].
      unfold method_of, provider_of in *. by rewrite H1. }
    destruct (stores w !! s0 ≫= persist) as [h|] eqn:Hh; [|by apply Hrest].
    set (inject := match config_storage (config h), cfg with
                   | None, Some fallback =>
                       modify_handler s0 (set_config_storage (Some fallback))
                   | _, _ => ret tt
                   end).
    assert (Hinj : leaves_store s inject).
    { subst inject. destruct (config_storage (config h)), cfg; try done.
      apply leaves_store_modify_store. done. }
    specialize (Hinj w). destruct (inject w) as [[] w0] eqn:E0. cbn [snd] in Hinj.
    rewrite (bind_eq _ _ _ _ _ E0).
    pose proof (leaves_store_hydrate s s0 ltac:(done) w0) as Hhyd.
    destruct (hydrate s0 w0) as [r w1] eqn:E1. cbn [snd] in Hhyd.
    rewrite (bind_eq _ _ _ _ _ E1).
    rewrite bind_ret_snd. apply Hrest. congruence.
Qed.



(** ** New containers *)

(** X19. Creating a container touches no storage and no other container.
    With [persist] and a non-empty [name] the container gets a handler on
    which nothing has run yet: uninitialized storage, no subscription, and
    hydration enabled unless [skipHydrate] is set. The delay of its writes
    is 100 ms when the options have no [debounceTime], 1 ms when the key is
    there and holds [undefined] (the spread of the constructor lets it
    override the default), and otherwise what the host makes of the value
    given. With [persist] but without a name, or with an empty one, an
    error is logged and the container has no handler, so that [get()]
    returns the initial state without reading anything. *)
Theorem IgrisMaster_new_lazy (w : World) (initialState : JS) (name : option string)
    (persistOptions : option PersistOptions) :
  let s := length (stores w) in
  let w1 := exec (IgrisMaster_new initialState name persistOptions) w in
  eval (IgrisMaster_new initialState name persistOptions) w = s /\
  (forall s', s' < s -> stores w1 !! s' = stores w !! s') /\
  state_of w1 s = Some initialState /\ listeners_of w1 s = Some [] /\
  heap w1 = heap w /\ timers w1 = timers w /\
  match persistOptions, name with
  | Some o, Some (String c n) =>
      trace w1 = trace w /\
      exists st h,
        stores w1 !! s = Some st /\ pristine st h /\
        key h = String c n /\ storage h = UninitializedStorage /\ timeoutId h = None /\
        timer_delay (debounceTime (config h))
        = match opt_debounceTime o with
          | Absent => 100
          | Undefined => 1
          | Given d => timer_delay d
          end /\
        skipHydrate (config h) = default false (opt_skipHydrate o)
  | Some o, _ =>
      trace w1 = trace w ++ [LogError "Persist not configured"] /\
      method_of w1 s = None /\
      eval (IgrisMaster_get s) w1 = initialState /\
      trace (exec (IgrisMaster_get s) w1) = trace w1 /\
      heap (exec (IgrisMaster_get s) w1) = heap w
  | None, _ => trace w1 = trace w /\ method_of w1 s = None
  end.
Proof.
  intros s w1.
  assert (E : exists p tr,
            IgrisMaster_new initialState name persistOptions w
            = (s, with_stores (stores w ++ [{| listeners := []; currentState := initialState;
                                               persist := p;
                                               fetchCurrentState := FetchInitialize |}])
                    (with_trace tr w)) /\
            match persistOptions, name with
            | Some o, Some (String c n) =>
                p = Some (PersistHandler_new (String c n) o) /\ tr = trace w
            | Some o, _ => p = None /\ tr = trace w ++ [LogError "Persist not configured"]
            | None, _ => p = None /\ tr = trace w
            end).
  { unfold IgrisMaster_new.
    destruct persistOptions as [o|]; [destruct name as [[|c n]|]|];
      eexists _, _; (split; [reflexivity|]); simpl; split; try reflexivity;
      by rewrite ?with_trace_id. }
  destruct E as (p & tr & E & Hcase). subst w1. unfold exec, eval. rewrite E. cbn [fst snd].
  assert (Hs : forall A (x : A) (l : list A), (l ++ [x]) !! length l = Some x).
  { intros A x l. by rewrite lookup_app_r, Nat.sub_diag. }
  split; [done|]. split.
  { intros s' Hlt. simpl. by rewrite lookup_app_l. }
  unfold state_of, listeners_of, method_of. cbn [stores with_stores with_trace].
  subst s. rewrite !Hs. simpl. do 4 (split; [done|]).
  assert (Hget : forall tr',
            let w1 := with_stores (stores w ++ [{| listeners := []; currentState := initialState;
                                                   persist := None;
                                                   fetchCurrentState := FetchInitialize |}])
                        (with_trace tr' w) in
            eval (IgrisMaster_get (length (stores w))) w1 = initialState /\
            trace (exec (IgrisMaster_get (length (stores w))) w1) = tr' /\
            heap (exec (IgrisMaster_get (length (stores w))) w1) = heap w).
  { intros tr' w1.
    assert (Hst : stores w1 !! length (stores w)
                  = Some {| listeners := []; currentState := initialState; persist := None;
                            fetchCurrentState := FetchInitialize |}) by apply Hs.
    unfold exec, eval. rewrite (get_eq _ _ _ Hst). cbn [fetchCurrentState].
    rewrite (initializeValue_eq _ _ _ Hst). cbn [persist]. unfold bind at 1, ret at 1.
    by rewrite (initializeValue_finish _ _ _ Hst). }
  destruct persistOptions as [o|]; [destruct name as [[|c n]|]|]; destruct Hcase as [-> ->].
  - split; [done|]. split; [done|].
    apply Hget.
  - split; [done|]. eexists _, _. split; [reflexivity|]. simpl.
    repeat split; [apply not_elem_of_nil|].
    cbn [PersistHandler_new config debounceTime]. destruct (opt_debounceTime o); reflexivity.
  - split; [done|]. split; [done|].
    apply Hget.
  - done.
Qed.

(** ** Debounced writes among the writes of other containers *)

Lemma timers_frame_refl w : timers_frame w w.
Proof. by repeat split. Qed.

Lemma timers_frame_trans w1 w2 w3 :
  timers_frame w1 w2 -> timers_frame w2 w3 -> timers_frame w1 w3.
Proof. intros (? & ? & ? & ? & ?) (? & ? & ? & ? & ?). repeat split; congruence. Qed.

Lemma writes_under_app k t1 t2 :
  writes_under k (t1 ++ t2) = writes_under k t1 ++ writes_under k t2.
Proof. apply List.filter_app. Qed.

Lemma filter_filter_comm {A} (p q : A -> bool) (l : list A) :
  List.filter p (List.filter q l) = List.filter q (List.filter p l).
Proof.
  induction l as [|x l IH]; [done|]. simpl.
  destruct (q x) eqn:Hq, (p x) eqn:Hp; simpl; rewrite ?Hq, ?Hp, IH; done.
Qed.

Lemma filter_elem_of {A} (p : A -> bool) (l : list A) x :
  x ∈ List.filter p l <-> x ∈ l /\ p x = true.
Proof. rewrite !list_elem_of_In. apply List.filter_In. Qed.

(** The events of a write do not depend on the heap. *)
Lemma write_events_same w w' h h0 data :
  storage h = storage h0 -> config h = config h0 -> key h = key h0 ->
  JSON_stringify w' = JSON_stringify w ->
  (write_outcome w' h data).1 = (write_outcome w h0 data).1.
Proof.
  unfold write_outcome. intros -> -> -> ->.
  destruct (storage h0); [done|]. by destruct (JSON_stringify w _).
Qed.

(** A write of a container with another key adds nothing under [k]. *)
Lemma persistWrite_other w s' d k :
  (forall h', stores w !! s' ≫= persist = Some h' -> key h' <> k) ->
  exists w',
    persistWrite s' d w = (tt, w') /\ timers_frame w w' /\
    writes_under k (trace w') = writes_under k (trace w).
Proof.
  intros Hk. destruct (stores w !! s') as [st'|] eqn:Hst'.
  - destruct (persist st') as [h'|] eqn:Hp'.
    + eexists. split; [by eapply persistWrite_outcome|]. split; [done|].
      simpl. rewrite writes_under_app.
      assert (Hkey : key h' <> k) by (apply Hk; simpl; by rewrite Hp').
      assert (He : writes_under k (write_outcome w h' d).1 = []).
      { unfold write_outcome. destruct (storage h'); [done|].
        destruct (JSON_stringify w _); [|done]. simpl.
        by rewrite (proj2 (String.eqb_neq _ _) Hkey). }
      by rewrite He, app_nil_r.
    + exists w. unfold persistWrite, bind, the_handler, gets. rewrite Hst'. simpl.
      rewrite Hp'. split; [done|]. split; [apply timers_frame_refl|done].
  - exists w. unfold persistWrite, bind, the_handler, gets. rewrite Hst'.
    split; [done|]. split; [apply timers_frame_refl|done].
Qed.

Section among.

Context (s : nat) (h0 : PersistHandler) (data : JS).

Lemma handler_like_frame w w' : stores w' = stores w -> handler_like s h0 w -> handler_like s h0 w'.
Proof. intros Hs (st & h & H). exists st, h. by rewrite Hs. Qed.

Lemma own_writes_frame w w' :
  JSON_stringify w' = JSON_stringify w -> own_writes h0 data w' = own_writes h0 data w.
Proof. intros H. unfold own_writes. by rewrite (write_events_same w w' h0 h0 data). Qed.

Lemma other_key_frame w w' k t :
  stores w' = stores w -> other_key w k t -> other_key w' k t.
Proof. unfold other_key. intros ->. done. Qed.

(** The write of [data] by the handler of [s]. *)
Lemma persistWrite_own w :
  handler_like s h0 w ->
  exists w',
    persistWrite s data w = (tt, w') /\ timers_frame w w' /\
    writes_under (key h0) (trace w') = writes_under (key h0) (trace w) ++ own_writes h0 data w.
Proof.
  intros (st & h & Hst & Hp & Hs & Hc & Hk).
  eexists. split; [by eapply persistWrite_outcome|]. split; [done|].
  simpl. rewrite writes_under_app. unfold own_writes.
  by rewrite (write_events_same w w h h0 data).
Qed.

(** The callbacks of the timers [ts], in order: each write of [s] among
    them leaves its events, the others leave nothing under the key. *)
Lemma run_callbacks ts : forall w,
  handler_like s h0 w ->
  (forall t, t ∈ ts -> timer_of s t = true -> callback t = PersistWrite s data) ->
  (forall t, t ∈ ts -> timer_of s t = false -> other_key w (key h0) t) ->
  exists w',
    forEach ts run_callback w = (tt, w') /\ timers_frame w w' /\
    writes_under (key h0) (trace w')
    = writes_under (key h0) (trace w)
      ++ mjoin (replicate (length (List.filter (timer_of s) ts)) (own_writes h0 data w)).
Proof.
  induction ts as [|t ts IH]; intros w Hh Hown Hother.
  - exists w. split; [done|]. split; [apply timers_frame_refl|]. simpl. by rewrite app_nil_r.
  - assert (Hstep : exists w1,
              run_callback t w = (tt, w1) /\ timers_frame w w1 /\
              writes_under (key h0) (trace w1)
              = writes_under (key h0) (trace w)
                ++ (if timer_of s t then own_writes h0 data w else [])).
    { destruct (timer_of s t) eqn:Ht.
      - unfold run_callback. rewrite (Hown t (list_elem_of_here _ _) Ht).
        by apply persistWrite_own.
      - specialize (Hother t (list_elem_of_here _ _) Ht). unfold other_key in Hother.
        unfold run_callback. destruct (callback t) as [s' d].
        destruct (persistWrite_other w s' d (key h0) Hother) as (w1 & E & Hf & Hw).
        exists w1. by rewrite app_nil_r. }
    destruct Hstep as (w1 & E1 & Hf1 & Hw1).
    pose proof Hf1 as (Hs1 & _ & _ & _ & Hj1).
    destruct (IH w1) as (w2 & E2 & Hf2 & Hw2).
    + by eapply handler_like_frame.
    + intros t' Ht'. apply Hown. by apply list_elem_of_further.
    + intros t' Ht' Hn. eapply other_key_frame; [done|].
      apply Hother; [by apply list_elem_of_further|done].
    + exists w2. split; [|split].
      * cbn [forEach]. by rewrite (bind_eq _ _ _ _ _ E1).
      * by eapply timers_frame_trans.
      * rewrite Hw2, Hw1, (own_writes_frame w w1 Hj1). cbn [List.filter].
        destruct (timer_of s t); simpl; by rewrite <- ?app_assoc, ?app_nil_r.
Qed.

Lemma fire_due_among w :
  sorted_out s h0 data w ->
  exists w',
    fire_due w = (tt, w') /\
    stores w' = stores w /\ now w' = now w /\ next_timer w' = next_timer w /\
    JSON_stringify w' = JSON_stringify w /\
    timers w' = List.filter (fun x => negb (due x <=? now w)) (timers w) /\
    writes_under (key h0) (trace w')
    = writes_under (key h0) (trace w)
      ++ mjoin (replicate
                  (length (List.filter (timer_of s)
                             (List.filter (fun x => due x <=? now w) (timers w))))
                  (own_writes h0 data w)).
Proof.
  intros (Hh & Hown & Hother).
  set (w0 := with_timers (List.filter (fun x => negb (due x <=? now w)) (timers w)) w).
  destruct (run_callbacks (List.filter (fun x => due x <=? now w) (timers w)) w0)
    as (w' & E & (Hs & Ht & Hn & Hnt & Hj) & Hw).
  - by apply (handler_like_frame w).
  - intros t [Ht _]%filter_elem_of. by apply Hown.
  - intros t [Ht _]%filter_elem_of Hn. apply (other_key_frame w); [done|]. by apply Hother.
  - exists w'. split.
    + unfold fire_due, bind at 1 2 3, gets, modify. cbn [fst snd]. exact E.
    + repeat split; done.
Qed.

Lemma filter_due_own (p : Timer -> bool) ts own :
  List.filter (timer_of s) ts = [own] ->
  List.filter (timer_of s) (List.filter p ts) = if p own then [own] else [].
Proof. intros H. rewrite filter_filter_comm, H. simpl. by destruct (p own). Qed.

Lemma filter_due_none (p : Timer -> bool) ts :
  List.filter (timer_of s) ts = [] -> List.filter (timer_of s) (List.filter p ts) = [].
Proof. intros H. by rewrite filter_filter_comm, H. Qed.

Lemma write_among_sorted w due_ : write_among w s h0 data due_ -> sorted_out s h0 data w.
Proof.
  intros (st & h & tid & Hst & Hp & Hs & Hc & Hk & Ht & Hts & Hother).
  split; [by exists st, h|]. split; [|done].
  intros t Hin Hof.
  assert (Hin' : t ∈ List.filter (timer_of s) (timers w)) by (by apply filter_elem_of).
  rewrite Hts in Hin'. by apply list_elem_of_singleton in Hin' as ->.
Qed.

Lemma none_among_sorted w : none_among w s h0 -> sorted_out s h0 data w.
Proof.
  intros (st & h & Hst & Hp & Hs & Hc & Hk & Hts & Hother).
  split; [by exists st, h|]. split; [|by auto].
  intros t Hin Hof.
  assert (Hin' : t ∈ List.filter (timer_of s) (timers w)) by (by apply filter_elem_of).
  rewrite Hts in Hin'. by apply elem_of_nil in Hin'.
Qed.

(** Frames of the two invariants. *)
Lemma write_among_frame w w' due_ p :
  stores w' = stores w -> timers w' = List.filter p (timers w) ->
  (forall t, timer_of s t = true -> t ∈ timers w -> p t = true) ->
  write_among w s h0 data due_ -> write_among w' s h0 data due_.
Proof.
  intros Hs Ht Hp (st & h & tid & Hst & Hpe & Hst' & Hc & Hk & Hid & Hts & Hother).
  exists st, h, tid. rewrite Hs, Ht. repeat split; try done.
  - rewrite (filter_due_own p _ _ Hts).
    assert (Hin : {| timer_id := tid; due := due_; callback := PersistWrite s data |}
                  ∈ List.filter (timer_of s) (timers w))
      by (rewrite Hts; apply list_elem_of_here).
    apply filter_elem_of in Hin as [Hin Hof]. by rewrite (Hp _ Hof Hin).
  - intros t [Hin _]%filter_elem_of Hn. apply (other_key_frame w); [done|]. by apply Hother.
Qed.

Lemma none_among_frame w w' p :
  stores w' = stores w -> timers w' = List.filter p (timers w) ->
  none_among w s h0 -> none_among w' s h0.
Proof.
  intros Hs Ht (st & h & Hst & Hpe & Hst' & Hc & Hk & Hts & Hother).
  exists st, h. rewrite Hs, Ht. repeat split; try done.
  - by apply filter_due_none.
  - intros t [Hin _]%filter_elem_of. apply (other_key_frame w); [done|]. by apply Hother.
Qed.

Lemma filter_true {A} (l : list A) : List.filter (fun _ => true) l = l.
Proof. induction l as [|x l IH]; simpl; by rewrite ?IH. Qed.

Lemma write_among_now w n due_ :
  write_among w s h0 data due_ -> write_among (with_now n w) s h0 data due_.
Proof.
  apply (write_among_frame w _ due_ (fun _ => true)); [done| |done].
  simpl. by rewrite filter_true.
Qed.

Lemma none_among_now w n : none_among w s h0 -> none_among (with_now n w) s h0.
Proof.
  apply (none_among_frame w _ (fun _ => true)); [done|]. simpl. by rewrite filter_true.
Qed.

(** While the write of [s] is not due, firing leaves it pending. *)
Lemma fire_due_keeps w due_ :
  write_among w s h0 data due_ -> now w < due_ ->
  exists w',
    fire_due w = (tt, w') /\ write_among w' s h0 data due_ /\ now w' = now w /\
    JSON_stringify w' = JSON_stringify w /\
    writes_under (key h0) (trace w') = writes_under (key h0) (trace w).
Proof.
  intros Hw Hlt.
  destruct (fire_due_among w (write_among_sorted _ _ Hw))
    as (w' & E & Hs & Hn & Hnt & Hj & Ht & Htr).
  pose proof Hw as (st & h & tid & _ & _ & _ & _ & _ & _ & Hts & _).
  exists w'. split; [done|]. split; [|split; [done|split; [done|]]].
  - eapply (write_among_frame w); [done|exact Ht| |done].
    intros t Hof Hin.
    assert (Hin' : t ∈ List.filter (timer_of s) (timers w)) by (by apply filter_elem_of).
    rewrite Hts in Hin'. apply list_elem_of_singleton in Hin' as ->. simpl.
    destruct (Nat.leb_spec due_ (now w)); [lia|done].
  - rewrite Htr, (filter_due_own _ _ _ Hts). simpl.
    destruct (Nat.leb_spec due_ (now w)); [lia|]. simpl. by rewrite app_nil_r.
Qed.

(** Once it is due, firing runs it. *)
Lemma fire_due_delivers w due_ :
  write_among w s h0 data due_ -> due_ <= now w ->
  exists w',
    fire_due w = (tt, w') /\ none_among w' s h0 /\ now w' = now w /\
    JSON_stringify w' = JSON_stringify w /\
    writes_under (key h0) (trace w') = writes_under (key h0) (trace w) ++ own_writes h0 data w.
Proof.
  intros Hw Hle.
  destruct (fire_due_among w (write_among_sorted _ _ Hw))
    as (w' & E & Hs & Hn & Hnt & Hj & Ht & Htr).
  pose proof Hw as (st & h & tid & Hst & Hp & Hst' & Hc & Hk & _ & Hts & Hother).
  exists w'. split; [done|]. split; [|split; [done|split; [done|]]].
  - exists st, h. rewrite Hs, Ht. repeat split; try done.
    + rewrite (filter_due_own _ _ _ Hts). simpl.
      by destruct (Nat.leb_spec due_ (now w)); [|lia].
    + intros t [Hin Hdue]%filter_elem_of. apply (other_key_frame w); [done|].
      apply Hother; [done|]. destruct (timer_of s t) eqn:Hof; [|done].
      assert (Hin' : t ∈ List.filter (timer_of s) (timers w)) by (by apply filter_elem_of).
      rewrite Hts in Hin'. apply list_elem_of_singleton in Hin' as ->. simpl in Hdue.
      destruct (Nat.leb_spec due_ (now w)); [done|lia].
  - rewrite Htr, (filter_due_own _ _ _ Hts). simpl.
    destruct (Nat.leb_spec due_ (now w)); [|lia]. simpl. by rewrite app_nil_r.
Qed.

(** With no write of [s] pending, firing leaves nothing under its key. *)
Lemma fire_due_none w :
  none_among w s h0 ->
  exists w',
    fire_due w = (tt, w') /\ none_among w' s h0 /\ now w' = now w /\
    JSON_stringify w' = JSON_stringify w /\
    writes_under (key h0) (trace w') = writes_under (key h0) (trace w).
Proof using data h0 s.
  intros Hw.
  destruct (fire_due_among w (none_among_sorted _ Hw))
    as (w' & E & Hs & Hn & Hnt & Hj & Ht & Htr).
  pose proof Hw as (st & h & _ & _ & _ & _ & _ & Hts & _).
  exists w'. split; [done|]. split; [|split; [done|split; [done|]]].
  - by eapply (none_among_frame w).
  - rewrite Htr, (filter_due_none _ _ Hts). simpl. by rewrite app_nil_r.
Qed.

Lemma tick_none w :
  none_among w s h0 ->
  exists w',
    tick w = (tt, w') /\ none_among w' s h0 /\ now w' = now w + 1 /\
    JSON_stringify w' = JSON_stringify w /\
    writes_under (key h0) (trace w') = writes_under (key h0) (trace w).
Proof using data h0 s.
  intros Hw. unfold tick.
  destruct (fire_due_none w Hw) as (w1 & E1 & Hw1 & Hn1 & Hj1 & Ht1).
  destruct (fire_due_none (with_now (S (now w1)) w1) (none_among_now _ _ Hw1))
    as (w2 & E2 & Hw2 & Hn2 & Hj2 & Ht2).
  exists w2. split.
  - rewrite (bind_eq _ _ _ _ _ E1). unfold bind at 1, modify at 1. exact E2.
  - simpl in *. split; [done|]. split; [lia|]. split; congruence.
Qed.

Lemma advance_none q : forall w,
  none_among w s h0 ->
  exists w',
    advance q w = (tt, w') /\ none_among w' s h0 /\
    writes_under (key h0) (trace w') = writes_under (key h0) (trace w).
Proof using data h0 s.
  induction q as [|q IH]; intros w Hw; [by exists w|].
  destruct (tick_none w Hw) as (w1 & E1 & Hw1 & _ & _ & Ht1).
  destruct (IH w1 Hw1) as (w2 & E2 & Hw2 & Ht2).
  exists w2. split; [|split; [done|congruence]].
  cbn [advance]. by rewrite (bind_eq _ _ _ _ _ E1).
Qed.

Lemma tick_keeps w due_ :
  write_among w s h0 data due_ -> now w + 1 < due_ ->
  exists w',
    tick w = (tt, w') /\ write_among w' s h0 data due_ /\ now w' = now w + 1 /\
    JSON_stringify w' = JSON_stringify w /\
    writes_under (key h0) (trace w') = writes_under (key h0) (trace w).
Proof.
  intros Hw Hlt. unfold tick.
  destruct (fire_due_keeps w due_ Hw) as (w1 & E1 & Hw1 & Hn1 & Hj1 & Ht1); [lia|].
  destruct (fire_due_keeps (with_now (S (now w1)) w1) due_ (write_among_now _ _ _ Hw1))
    as (w2 & E2 & Hw2 & Hn2 & Hj2 & Ht2); [simpl; lia|].
  exists w2. split.
  - rewrite (bind_eq _ _ _ _ _ E1). unfold bind at 1, modify at 1. exact E2.
  - simpl in *. split; [done|]. split; [lia|]. split; congruence.
Qed.

Lemma advance_keeps g : forall w due_,
  write_among w s h0 data due_ -> now w + g < due_ ->
  exists w',
    advance g w = (tt, w') /\ write_among w' s h0 data due_ /\ now w' = now w + g /\
    JSON_stringify w' = JSON_stringify w /\
    writes_under (key h0) (trace w') = writes_under (key h0) (trace w).
Proof.
  induction g as [|g IH]; intros w due_ Hw Hlt.
  - exists w. split; [done|]. split; [done|]. split; [lia|done].
  - destruct (tick_keeps w due_ Hw) as (w1 & E1 & Hw1 & Hn1 & Hj1 & Ht1); [lia|].
    destruct (IH w1 due_ Hw1) as (w2 & E2 & Hw2 & Hn2 & Hj2 & Ht2); [lia|].
    exists w2. split; [|split; [done|split; [lia|split; congruence]]].
    cbn [advance]. by rewrite (bind_eq _ _ _ _ _ E1).
Qed.

Lemma tick_delivers w due_ :
  write_among w s h0 data due_ -> due_ <= now w + 1 ->
  exists w',
    tick w = (tt, w') /\ none_among w' s h0 /\
    writes_under (key h0) (trace w') = writes_under (key h0) (trace w) ++ own_writes h0 data w.
Proof.
  intros Hw Hle. unfold tick.
  destruct (decide (due_ <= now w)) as [Hd|Hd].
  - destruct (fire_due_delivers w due_ Hw Hd) as (w1 & E1 & Hw1 & Hn1 & Hj1 & Ht1).
    destruct (fire_due_none (with_now (S (now w1)) w1) (none_among_now _ _ Hw1))
      as (w2 & E2 & Hw2 & Hn2 & Hj2 & Ht2).
    exists w2. split.
    + rewrite (bind_eq _ _ _ _ _ E1). unfold bind at 1, modify at 1. exact E2.
    + simpl in *. split; [done|congruence].
  - destruct (fire_due_keeps w due_ Hw) as (w1 & E1 & Hw1 & Hn1 & Hj1 & Ht1); [lia|].
    destruct (fire_due_delivers (with_now (S (now w1)) w1) due_ (write_among_now _ _ _ Hw1))
      as (w2 & E2 & Hw2 & Hn2 & Hj2 & Ht2); [simpl; lia|].
    exists w2. split.
    + rewrite (bind_eq _ _ _ _ _ E1). unfold bind at 1, modify at 1. exact E2.
    + simpl in *. split; [done|].
      rewrite Ht2, Ht1. f_equal. by apply own_writes_frame.
Qed.

(** A quiet period that reaches the due time delivers the write, once. *)
Lemma advance_delivers q : forall w due_,
  write_among w s h0 data due_ -> due_ <= now w + q -> 0 < q ->
  exists w',
    advance q w = (tt, w') /\ none_among w' s h0 /\
    writes_under (key h0) (trace w') = writes_under (key h0) (trace w) ++ own_writes h0 data w.
Proof.
  induction q as [|q IH]; intros w due_ Hw Hle Hq; [lia|].
  cbn [advance].
  destruct (decide (due_ <= now w + 1)) as [Hd|Hd].
  - destruct (tick_delivers w due_ Hw Hd) as (w1 & E1 & Hw1 & Ht1).
    destruct (advance_none q w1 Hw1) as (w2 & E2 & Hw2 & Ht2).
    exists w2. split; [by rewrite (bind_eq _ _ _ _ _ E1)|]. split; [done|congruence].
  - destruct (tick_keeps w due_ Hw) as (w1 & E1 & Hw1 & Hn1 & Hj1 & Ht1); [lia|].
    destruct (IH w1 due_ Hw1) as (w2 & E2 & Hw2 & Ht2); [lia|lia|].
    exists w2. split; [by rewrite (bind_eq _ _ _ _ _ E1)|]. split; [done|].
    rewrite Ht2, Ht1. f_equal. by apply own_writes_frame.
Qed.

End among.

Lemma filter_filter_nil {A} (p q : A -> bool) (l : list A) :
  (forall x, x ∈ l -> p x = true -> q x = false) ->
  List.filter p (List.filter q l) = [].
Proof.
  induction l as [|x l IH]; intros H; [done|]. simpl.
  assert (IH' : List.filter p (List.filter q l) = []).
  { apply IH. intros y Hy. apply H. by apply list_elem_of_further. }
  destruct (q x) eqn:Hq; [|done]. simpl.
  destruct (p x) eqn:Hp; [|done].
  specialize (H x (list_elem_of_here _ _) Hp). congruence.
Qed.

Lemma cleared_elem_of tid ts t : t ∈ cleared tid ts -> t ∈ ts.
Proof. destruct tid; simpl; [|done]. by intros [? _]%filter_elem_of. Qed.

(** [setItem] among the writes of other containers: the pending write of
    the handler is replaced by one of [data]. *)
Lemma setItem_among w s st h data :
  stores w !! s = Some st -> persist st = Some h ->
  (forall t, t ∈ timers w -> timer_of s t = true -> timeoutId h = Some (timer_id t)) ->
  (forall t, t ∈ timers w -> timer_of s t = false -> other_key w (key h) t) ->
  exists w',
    PersistHandler_setItem s data w = (tt, w') /\
    write_among w' s h data (now w + timer_delay (debounceTime (config h))) /\
    now w' = now w /\ trace w' = trace w /\ JSON_stringify w' = JSON_stringify w.
Proof.
  intros Hst Hp Hown Hother. eexists. split; [by apply setItem_spec|].
  split; [|done].
  exists (map_persist (set_timeoutId (Some (next_timer w))) st),
         (set_timeoutId (Some (next_timer w)) h), (next_timer w).
  split; [by eapply lookup_insert_at|]. split; [simpl; by rewrite Hp|].
  do 4 (split; [done|]). cbn [stores with_stores with_next_timer with_timers timers]. split.
  - rewrite List.filter_app. cbn [List.filter timer_of callback]. rewrite Nat.eqb_refl.
    assert (Hnil : List.filter (timer_of s) (cleared (timeoutId h) (timers w)) = []).
    { destruct (timeoutId h) as [tid|] eqn:Htid; simpl.
      - apply filter_filter_nil. intros t Hin Hof.
        specialize (Hown t Hin Hof). injection Hown as ->. by rewrite Nat.eqb_refl.
      - rewrite <- (filter_true (timers w)). apply filter_filter_nil.
        intros t Hin Hof. by specialize (Hown t Hin Hof). }
    by rewrite Hnil.
  - intros t [Hin|Hin%list_elem_of_singleton]%elem_of_app Hof.
    + apply cleared_elem_of in Hin. specialize (Hother t Hin Hof).
      unfold other_key, timer_of in *. destruct (callback t) as [s' d].
      apply Nat.eqb_neq in Hof. cbn [stores with_stores]. by rewrite list_lookup_insert_ne.
    + subst t. unfold timer_of in Hof. cbn [callback] in Hof.
      by rewrite Nat.eqb_refl in Hof.
Qed.

Lemma setItem_among_again w s h0 data0 due0 data :
  write_among w s h0 data0 due0 ->
  exists w',
    PersistHandler_setItem s data w = (tt, w') /\
    write_among w' s h0 data (now w + timer_delay (debounceTime (config h0))) /\
    now w' = now w /\ trace w' = trace w /\ JSON_stringify w' = JSON_stringify w.
Proof.
  intros (st & h & tid & Hst & Hp & Hs & Hc & Hk & Ht & Hts & Hother).
  destruct (setItem_among w s st h data Hst Hp)
    as (w' & Heq & (st' & h' & tid' & H') & Hrest).
  { intros t Hin Hof.
    assert (Hin' : t ∈ List.filter (timer_of s) (timers w)) by (by apply filter_elem_of).
    rewrite Hts in Hin'. apply list_elem_of_singleton in Hin' as ->. by rewrite Ht. }
  { rewrite Hk. exact Hother. }
  exists w'. split; [exact Heq|]. split; [|exact Hrest].
  destruct H' as (A1 & A2 & A3 & A4 & A5 & A6 & A7 & A8).
  exists st', h', tid'. rewrite <- Hc, <- Hk.
  repeat split; try done; congruence.
Qed.

(** The rest of a burst: each call comes before the pending write is due,
    and replaces it. *)
Lemma burst_rest_among s h0 rest : forall w data,
  (Z.of_nat (debounceTime (config h0)) <= TIMEOUT_MAX)%Z ->
  write_among w s h0 data (now w + timer_delay (debounceTime (config h0))) ->
  Forall (fun gd : nat * JS => gd.1 < debounceTime (config h0)) rest ->
  exists w',
    forEach rest (fun gd => advance gd.1 >>> PersistHandler_setItem s gd.2) w = (tt, w') /\
    write_among w' s h0 (last_data data rest)
      (now w' + timer_delay (debounceTime (config h0))) /\
    writes_under (key h0) (trace w') = writes_under (key h0) (trace w) /\
    JSON_stringify w' = JSON_stringify w.
Proof.
  induction rest as [|[g d] rest IH]; intros w data Hmax Hw Hall.
  - by exists w.
  - apply Forall_cons in Hall as [Hg Hall]. simpl in Hg.
    pose proof (timer_delay_ge _ Hmax) as Hge.
    destruct (advance_keeps s h0 data g w _ Hw) as (w1 & E1 & Hw1 & Hn1 & Hj1 & Ht1); [lia|].
    destruct (setItem_among_again w1 s h0 data _ d Hw1) as (w2 & E2 & Hw2 & Hn2 & Ht2 & Hj2).
    rewrite <- Hn2 in Hw2.
    destruct (IH w2 d Hmax Hw2 Hall) as (w3 & E3 & Hw3 & Ht3 & Hj3).
    exists w3. split.
    + simpl. rewrite bind_assoc. rewrite (bind_eq _ _ _ _ _ E1).
      by rewrite (bind_eq _ _ _ _ _ E2).
    + rewrite last_data_cons. split; [done|]. split; congruence.
Qed.

(** ** Claim C2 *)

Lemma own_writes_record h b data w str :
  storage h = jsonPersistStorage b ->
  JSON_stringify w (stored_record (config h) data) = Some str ->
  own_writes h data w = [BackendSet (key h) str].
Proof.
  intros Hs Hstr. unfold own_writes, write_outcome. rewrite Hs.
  rewrite Hstr. simpl. by rewrite String.eqb_refl.
Qed.



Lemma long_delay_spec : Z.of_nat long_delay = 2147483648%Z.
Proof. unfold long_delay. by rewrite Z2Nat.id. Qed.

(** With a [debounceTime] above [TIMEOUT_MAX] the timer of a write is due
    after one millisecond: two calls that are [gap] milliseconds apart are
    written both. *)
Lemma long_delay_burst w s st h b first second gap quiet str1 str2 :
  stores w !! s = Some st -> persist st = Some h ->
  storage h = jsonPersistStorage b -> timers w = [] ->
  (TIMEOUT_MAX < Z.of_nat (debounceTime (config h)))%Z ->
  0 < gap -> 0 < quiet ->
  JSON_stringify w (stored_record (config h) first) = Some str1 ->
  JSON_stringify w (stored_record (config h) second) = Some str2 ->
  trace (exec (burst s first [(gap, second)] >>> advance quiet) w)
  = trace w ++ [BackendSet (key h) str1; BackendSet (key h) str2].
Proof.
  intros Hst Hp Hs Hts Hlong Hgap Hquiet Hstr1 Hstr2.
  pose proof (timer_delay_long _ Hlong) as Hd.
  assert (Hout : forall w0 h1 data str,
            storage h1 = jsonPersistStorage b -> config h1 = config h -> key h1 = key h ->
            JSON_stringify w0 = JSON_stringify w ->
            JSON_stringify w (stored_record (config h) data) = Some str ->
            (write_outcome w0 h1 data).1 = [BackendSet (key h) str]).
  { intros w0 h1 data str H1 H2 H3 H4 H5. unfold write_outcome.
    by rewrite H1, H2, H3, H4, H5. }
  (* the first call, and its write after one millisecond *)
  destruct (setItem_pending w s st h first Hst Hp) as (w1 & E1 & Hw1 & Hn1 & Ht1 & Hj1).
  { rewrite Hts. intros t Ht. by apply elem_of_nil in Ht. }
  rewrite Hd in Hw1.
  pose proof (advance_writes s h first gap w1 _ Hw1 ltac:(lia) Hgap) as E2.
  set (w2 := with_now (now w1 + gap) (written h first w1)) in E2.
  pose proof Hw1 as (st1 & h1 & tid1 & Hst1 & Hp1 & Hs1 & Hc1 & Hk1 & _).
  (* the second call *)
  destruct (setItem_pending w2 s st1 h1 second Hst1 Hp1) as (w3 & E3 & Hw3 & Hn3 & Ht3 & Hj3).
  { intros t Ht. by apply elem_of_nil in Ht. }
  rewrite Hc1, Hd in Hw3.
  pose proof (advance_writes s h1 second quiet w3 _ Hw3 ltac:(lia) Hquiet) as E4.
  assert (E : (burst s first [(gap, second)] >>> advance quiet) w
              = (tt, with_now (now w3 + quiet) (written h1 second w3))).
  { unfold burst. rewrite bind_assoc, (bind_eq _ _ _ _ _ E1). cbn [forEach].
    rewrite !bind_assoc. cbn [fst snd]. rewrite (bind_eq _ _ _ _ _ E2).
    rewrite (bind_eq _ _ _ _ _ E3). unfold bind at 1, ret at 1. exact E4. }
  unfold exec. rewrite E. cbn [snd]. unfold written. simpl.
  rewrite Ht3. subst w2. unfold written. simpl. rewrite Ht1.
  rewrite (Hout w1 h first str1), (Hout w3 h1 second str2); try done.
  - by rewrite <- app_assoc.
  - by rewrite Hs1.
  - rewrite Hj3. simpl. done.
Qed.


(** ** The coordinator, container by container *)

Lemma appends_events_ret {A} (a : A) : appends_events (ret a).
Proof. intros w. repeat split. exists []. by rewrite app_nil_r. Qed.

Lemma appends_events_gets {A} (f : World -> A) : appends_events (gets f).
Proof. intros w. repeat split. exists []. by rewrite app_nil_r. Qed.

Lemma appends_events_alloc c : appends_events (alloc c).
Proof. intros w. repeat split. exists []. simpl. by rewrite app_nil_r. Qed.

Lemma appends_events_emit e : appends_events (emit e).
Proof. intros w. repeat split. by exists [e]. Qed.

Lemma appends_events_modify f :
  (forall w, localStorage (f w) = localStorage w) ->
  (forall w, JSON_parse (f w) = JSON_parse w) ->
  (forall w, trace (f w) = trace w) ->
  appends_events (modify f).
Proof.
  intros Hl Hj Ht w. simpl. split; [apply Hl|]. split; [apply Hj|].
  exists []. by rewrite app_nil_r.
Qed.

Lemma appends_events_bind {A B} (m : M A) (k : A -> M B) :
  appends_events m -> (forall a, appends_events (k a)) -> appends_events (bind m k).
Proof.
  intros Hm Hk w. unfold bind. destruct (Hm w) as (Hl1 & Hj1 & new1 & Ht1).
  destruct (m w) as [a w1]. simpl in *.
  destruct (Hk a w1) as (Hl2 & Hj2 & new2 & Ht2).
  split; [congruence|]. split; [congruence|].
  exists (new1 ++ new2). by rewrite Ht2, Ht1, app_assoc.
Qed.

Lemma appends_events_forEach {A} (l : list A) (body : A -> M unit) :
  (forall x, appends_events (body x)) -> appends_events (forEach l body).
Proof.
  intros Hb. induction l as [|x l IH]; simpl; [apply appends_events_ret|].
  apply appends_events_bind; [apply Hb|]. intros _. apply IH.
Qed.

Ltac appends_events_step :=
  first
    [ assumption
    | apply appends_events_ret
    | apply appends_events_gets
    | apply appends_events_alloc
    | apply appends_events_emit
    | apply appends_events_bind; [ | intros ? ]
    | apply appends_events_modify; intros ?; reflexivity
    | apply appends_events_forEach; intros ?
    | match goal with
      | |- appends_events (match ?x with _ => _ end) => destruct x
      | |- appends_events (if ?x then _ else _) => destruct x
      end ].

Ltac appends_events_tac := repeat appends_events_step.

Lemma appends_events_hydrate s : appends_events (hydrate s).
Proof.
  unfold hydrate, initializeStorage, PersistHandler_getItem, PersistStorage_getItem,
    jsonPersistStorage_getItem, logWarningAndReturn, runImmediately,
    IgrisMaster_set_value, notify, call_listener, PersistHandler_setItem, setTimeout,
    clearTimeout, subscribeStore, IgrisMaster_subscribe, IgrisMaster_unsubscribe,
    hydrate_cached, modify_handler, modify_store, the_handler, the_store.
  appends_events_tac.
Qed.

Lemma appends_events_loop ss cfg : appends_events (setupHydrator_loop ss cfg).
Proof.
  induction ss as [|s rest IH]; cbn [setupHydrator_loop]; [apply appends_events_ret|].
  pose proof (appends_events_hydrate s).
  unfold modify_handler, modify_store, the_handler. appends_events_tac.
Qed.

(** What the statements read off the host is the same in two worlds with
    the same host. *)
Lemma same_host w w0 st h :
  localStorage w0 = localStorage w -> JSON_parse w0 = JSON_parse w ->
  resolved_storage w0 h = resolved_storage w h /\
  read_reply w0 h = read_reply w h /\
  read_event w0 h = read_event w h /\
  hydration_value w0 st h = hydration_value w st h /\
  state_on_return w0 st h = state_on_return w st h.
Proof.
  intros Hl Hj.
  assert (H1 : resolved_storage w0 h = resolved_storage w h)
    by (unfold resolved_storage; by rewrite Hl).
  assert (H2 : read_reply w0 h = read_reply w h) by (unfold read_reply; by rewrite H1).
  assert (H3 : hydration_value w0 st h = hydration_value w st h)
    by (unfold hydration_value; by rewrite H2, Hj).
  repeat split; try done.
  - unfold read_event. by rewrite H1.
  - unfold state_on_return. by rewrite H2, H3.
Qed.

(** The first [hydrate()] of a container, in one statement for its three
    paths. *)
Lemma hydrate_pristine_store w s st h :
  stores w !! s = Some st -> pristine st h ->
  exists r rest,
    eval (hydrate s) w = r /\
    stores (exec (hydrate s) w)
    = <[s := hydrated_store st h (resolved_storage w h) r (state_on_return w st h)]>
        (stores w) /\
    (r = None <-> exists x, read_reply w h = Now x) /\
    trace (exec (hydrate s) w) = trace w ++ read_event w h :: rest.
Proof.
  intros Hst Hpr. unfold exec, eval, state_on_return, hydration_value, read_event, read_reply.
  destruct (resolved_storage w h) as [|b] eqn:Hres.
  - rewrite (hydrate_sentinel_spec w s st h Hst Hpr Hres). eexists _, _. simpl.
    repeat split; try done. by exists None.
  - destruct (backend_getItem b (key h)) as [r|o] eqn:Hb.
    + rewrite (hydrate_sync_spec w s st h Hst Hpr b r Hres Hb). eexists _, _. simpl.
      rewrite processStoredData_nullish. repeat split; try done. by exists r.
    + rewrite (hydrate_async_spec w s st h Hst Hpr b o Hres Hb). eexists _, _. simpl.
      repeat split; try done. by intros [x Hx].
Qed.

(** The loop of the coordinator leaves a container alone that it has
    hydrated, the fallback storage having no place to go. *)
Lemma setupHydrator_loop_keeps ss cfg s w :
  method_of w s <> Some HydrateOriginal ->
  cfg = None \/ (method_of w s <> None -> provider_of w s <> None) ->
  stores (exec (setupHydrator_loop ss cfg) w) !! s = stores w !! s.
Proof.
  intros Hm [->|Hp]; [|apply setupHydrator_loop_leaves; by right].
  revert w Hm. induction ss as [|s0 rest IH]; intros w Hm; [done|].
  unfold exec. cbn [setupHydrator_loop].
  rewrite (bind_eq _ _ _ _ _ (the_handler_method w s0)).
  destruct (stores w !! s0 ≫= persist) as [h|] eqn:Hh; [|by apply IH].
  assert (Hinj : (match config_storage (config h), @None StorageProvider with
                  | None, Some fallback =>
                      modify_handler s0 (set_config_storage (Some fallback))
                  | _, _ => ret tt
                  end) w = (tt, w)) by (by destruct (config_storage (config h))).
  rewrite (bind_eq _ _ _ _ _ Hinj).
  destruct (decide (s0 = s)) as [->|Hne].
  - rewrite (bind_eq _ _ _ _ _ (handle_of_hydrate w s Hm)).
    rewrite bind_ret_snd. by apply IH.
  - pose proof (leaves_store_hydrate s s0 ltac:(done) w) as Hhyd.
    destruct (hydrate s0 w) as [r w1] eqn:E1. cbn [snd] in Hhyd.
    rewrite (bind_eq _ _ _ _ _ E1), bind_ret_snd.
    rewrite <- Hhyd. apply IH. unfold method_of. by rewrite Hhyd.
Qed.

(** A container without a handler can be taken out of the list, wherever
    it stands. *)
Lemma setupHydrator_loop_skip before s after cfg w :
  eval (the_handler s) w = None ->
  setupHydrator_loop (before ++ s :: after) cfg w
  = setupHydrator_loop (before ++ after) cfg w.
Proof.
  revert w. induction before as [|a before IH]; intros w Hs.
  - cbn [app setupHydrator_loop].
    rewrite (bind_eq _ _ _ _ _ (the_handler_method w s)).
    unfold eval in Hs. rewrite the_handler_method in Hs. simpl in Hs. by rewrite Hs.
  - cbn [app setupHydrator_loop].
    rewrite !(bind_eq _ _ _ _ _ (the_handler_method w a)).
    destruct (stores w !! a ≫= persist) as [h|] eqn:Hh; [|by apply IH].
    set (inject := match config_storage (config h), cfg with
                   | None, Some fallback =>
                       modify_handler a (set_config_storage (Some fallback))
                   | _, _ => ret tt
                   end).
    assert (Hinj : keeps_methods inject).
    { subst inject. destruct (config_storage (config h)), cfg;
        try apply keeps_methods_ret. by apply keeps_methods_modify_handler. }
    specialize (Hinj w s). destruct (inject w) as [[] w0] eqn:E0. cbn [snd] in Hinj.
    rewrite !(bind_eq _ _ _ _ _ E0).
    pose proof (methods_le_hydrate a w0) as Hle. unfold exec in Hle.
    destruct (hydrate a w0) as [r w1] eqn:E1. cbn [snd] in Hle.
    rewrite !(bind_eq _ _ _ _ _ E1).
    unfold bind. rewrite IH; [done|].
    apply handler_method. eapply methods_le_none; [exact Hle|].
    rewrite Hinj. by apply handler_method.
Qed.

(** The loop of the coordinator on a container that nothing has hydrated
    yet: the container is left as its first [hydrate()] leaves it, the
    handler having the fallback storage when it had none, and the read of
    its storage is in the trace. *)
Lemma setupHydrator_loop_pristine cfg s st h w ss w0 :
  s ∈ ss -> stores w0 !! s = Some st -> pristine st h ->
  localStorage w0 = localStorage w -> JSON_parse w0 = JSON_parse w ->
  let h1 := injected cfg h in
  let wl := exec (setupHydrator_loop ss cfg) w0 in
  exists r pre post,
    stores wl !! s
    = Some (hydrated_store st h1 (resolved_storage w h1) r (state_on_return w st h1)) /\
    (r = None <-> exists x, read_reply w h1 = Now x) /\
    trace wl = trace w0 ++ pre ++ read_event w h1 :: post.
Proof.
  intros Hin Hst Hpr Hl Hj h1 wl. subst wl.
  revert w0 Hin Hst Hl Hj. induction ss as [|s0 rest IH]; intros w0 Hin Hst Hl Hj.
  { by apply elem_of_nil in Hin. }
  unfold exec. cbn [setupHydrator_loop].
  rewrite (bind_eq _ _ _ _ _ (the_handler_method w0 s0)).
  destruct (decide (s0 = s)) as [->|Hne].
  - (* the container is hydrated here *)
    clear IH. rewrite Hst. pose proof Hpr as (Hp & Hm & Hu & Hnl).
    cbn [mbind option_bind]. rewrite Hp.
    set (inject := match config_storage (config h), cfg with
                   | None, Some fallback =>
                       modify_handler s (set_config_storage (Some fallback))
                   | _, _ => ret tt
                   end).
    assert (E0 : exists st0,
              inject w0 = (tt, with_stores (<[s := st0]> (stores w0)) w0) /\
              pristine st0 h1 /\ listeners st0 = listeners st /\
              currentState st0 = currentState st /\
              fetchCurrentState st0 = fetchCurrentState st).
    { subst inject h1. unfold injected.
      destruct (config_storage (config h)) as [own|] eqn:Hown; [|destruct cfg as [fb|]].
      - exists st. split; [|done].
        unfold ret. f_equal. rewrite list_insert_id by done. by destruct w0.
      - exists (map_persist (set_config_storage (Some fb)) st). split.
        + by apply modify_handler_eq.
        + repeat split; try done. simpl. by rewrite Hp.
      - exists st. split; [|done].
        unfold ret. f_equal. rewrite list_insert_id by done. by destruct w0. }
    destruct E0 as (st0 & E0 & Hpr0 & Hls & Hcs & Hfs). rewrite (bind_eq _ _ _ _ _ E0).
    set (w00 := with_stores (<[s := st0]> (stores w0)) w0).
    assert (Hst0 : stores w00 !! s = Some st0) by (by eapply lookup_insert_at).
    destruct (same_host w w00 st0 h1 Hl Hj) as (Hrs & Hrr & Hre & _ & Hsr).
    destruct (hydrate_pristine_store w00 s st0 h1 Hst0 Hpr0)
      as (r & post1 & Hr & Hstores & Hnone & Htrace).
    rewrite Hrs, Hsr in Hstores. rewrite Hrr in Hnone. rewrite Hre in Htrace.
    unfold exec, eval in *.
    destruct (hydrate s w00) as [r0 w1] eqn:E1. cbn [fst snd] in *. subst r0.
    rewrite (bind_eq _ _ _ _ _ E1), bind_ret_snd.
    assert (Hs1 : stores w1 !! s
                  = Some (hydrated_store st h1 (resolved_storage w h1) r
                            (state_on_return w st h1))).
    { rewrite Hstores. erewrite lookup_insert_at by exact Hst0. f_equal.
      unfold hydrated_store, state_on_return, hydration_value. by rewrite Hls, Hcs, Hfs. }
    assert (Hkeep : stores (exec (setupHydrator_loop rest cfg) w1) !! s = stores w1 !! s).
    { apply setupHydrator_loop_keeps.
      - unfold method_of. by rewrite Hs1.
      - unfold provider_of. rewrite Hs1. simpl. subst h1. unfold injected.
        destruct (config_storage (config h)) as [own|] eqn:Hown; [right|destruct cfg].
        + intros _. by rewrite Hown.
        + by right.
        + by left. }
    destruct (appends_events_loop rest cfg w1) as (_ & _ & post2 & Hpost).
    unfold exec in Hkeep. exists r, [], (post1 ++ post2).
    split; [by rewrite Hkeep|]. split; [done|].
    rewrite Hpost, Htrace. simpl. by rewrite <- app_assoc.
  - (* another container first *)
    assert (Hin' : s ∈ rest) by (by apply elem_of_cons in Hin as [?|?]).
    destruct (stores w0 !! s0 ≫= persist) as [h'|] eqn:Hh'; [|by apply IH].
    set (inject := match config_storage (config h'), cfg with
                   | None, Some fallback =>
                       modify_handler s0 (set_config_storage (Some fallback))
                   | _, _ => ret tt
                   end).
    assert (Hinj : leaves_store s inject /\ appends_events inject).
    { subst inject. destruct (config_storage (config h')), cfg;
        try (split; [done|apply appends_events_ret]).
      split; [by apply leaves_store_modify_store|].
      unfold modify_handler, modify_store. appends_events_tac. }
    destruct Hinj as [Hinj1 Hinj2]. specialize (Hinj1 w0).
    destruct (Hinj2 w0) as (Hl0 & Hj0 & new0 & Ht0).
    destruct (inject w0) as [[] w00] eqn:E0. cbn [snd] in *.
    rewrite (bind_eq _ _ _ _ _ E0).
    pose proof (leaves_store_hydrate s s0 ltac:(done) w00) as Hhyd.
    destruct (appends_events_hydrate s0 w00) as (Hl1 & Hj1 & new1 & Ht1).
    destruct (hydrate s0 w00) as [r0 w1] eqn:E1. cbn [snd] in *.
    rewrite (bind_eq _ _ _ _ _ E1), bind_ret_snd.
    destruct (IH w1 Hin' ltac:(congruence) ltac:(congruence) ltac:(congruence))
      as (r & pre & post & H1 & H2 & H3).
    exists r, (new0 ++ new1 ++ pre), post. split; [done|]. split; [done|].
    unfold exec in H3. rewrite H3, Ht1, Ht0. by rewrite <- !app_assoc.
Qed.

(** ** Claim C6 *)

(** The containers and the trace after an invocation are those after its
    loop. *)
Lemma setupHydrator_after_loop ss cfg w :
  stores (exec (setupHydrator ss cfg) w) = stores (exec (setupHydrator_loop ss cfg) w) /\
  trace (exec (setupHydrator ss cfg) w) = trace (exec (setupHydrator_loop ss cfg) w).
Proof.
  unfold exec, setupHydrator, bind.
  destruct (setupHydrator_loop ss cfg w) as [[|q ps] wl]; done.
Qed.



(** ** Listeners that call nothing back *)

Lemma bind_ok_some {A B} (m : M (option A)) (k : A -> M (option B)) w a w' :
  m w = (Some a, w') -> bind_ok m k w = k a w'.
Proof. unfold bind_ok, bind. by intros ->. Qed.

Lemma bind_ok_none {A B} (m : M (option A)) (k : A -> M (option B)) w w' :
  m w = (None, w') -> bind_ok m k w = (None, w').
Proof. unfold bind_ok, bind. by intros ->. Qed.

Lemma bind_ret_some {A} (m : M A) w :
  (m >>> ret (Some tt)) w = (Some tt, exec m w).
Proof. unfold bind, ret, exec. by destruct (m w). Qed.

(** Listeners that call nothing back are the listeners that only look at
    the state. *)
Lemma call_listener_cb_quiet user s v l w :
  (forall i, l = LUser i -> user i = ret (Some tt)) ->
  call_listener_cb user s v l w = (Some tt, exec (call_listener s v l) w).
Proof.
  intros Hq. destruct l as [|i]; cbn [call_listener_cb call_listener].
  - apply bind_ret_some.
  - rewrite (Hq i eq_refl). apply bind_ret_some.
Qed.

Lemma call_listener_same s v l w :
  same_containers w (exec (call_listener s v l) w).
Proof.
  destruct (forEach_listeners s v [l] w) as (w' & E & _ & Hs & _).
  cbn [forEach] in E. unfold exec.
  assert (E' : call_listener s v l w = (tt, w')).
  { revert E. unfold bind, ret. destruct (call_listener s v l w) as [[] w1]. done. }
  by rewrite E'.
Qed.

Lemma notify_cb_quiet user s ls v :
  (forall i, LUser i ∈ ls -> user i = ret (Some tt)) ->
  forall fuel i w,
    listeners_of w s = Some ls -> state_of w s = Some v ->
    length ls - i < fuel ->
    notify_cb user s fuel i w
    = (Some tt, exec (forEach (drop i ls) (call_listener s v)) w).
Proof.
  intros Hq. induction fuel as [|fuel IH]; intros i w Hls Hv Hfuel; [lia|].
  cbn [notify_cb]. unfold listeners_of, state_of in Hls, Hv.
  destruct (stores w !! s) as [st|] eqn:Hst; [|done].
  injection Hls as Hls. injection Hv as Hv.
  rewrite (bind_eq _ _ _ _ _ (the_store_eq _ _ _ Hst)). cbv beta iota. rewrite Hls, Hv.
  destruct (ls !! i) as [l|] eqn:Hl.
  - rewrite (drop_S _ _ _ Hl). cbn [forEach].
    erewrite bind_ok_some; last first.
    { apply call_listener_cb_quiet. intros j ->. apply Hq.
      by eapply list_elem_of_lookup_2. }
    destruct (call_listener_same s v l w) as (_ & _ & Hsame).
    destruct (Hsame s) as (Hl' & Hv' & _).
    rewrite IH.
    + unfold exec, bind. by destruct (call_listener s v l w) as [[] w1].
    + rewrite Hl'. unfold listeners_of. rewrite Hst. simpl. by rewrite Hls.
    + rewrite Hv'. unfold state_of. rewrite Hst. simpl. by rewrite Hv.
    + apply lookup_lt_Some in Hl. lia.
  - apply lookup_ge_None in Hl. by rewrite drop_ge.
Qed.

(** [set] with listeners that call nothing back. *)
Lemma set_value_cb_quiet user s v w :
  (forall st i, stores w !! s = Some st -> LUser i ∈ listeners st ->
                user i = ret (Some tt)) ->
  IgrisMaster_set_value_cb user s v w = (Some tt, exec (IgrisMaster_set_value s v) w).
Proof.
  intros Hq. unfold IgrisMaster_set_value_cb, IgrisMaster_set_value, exec.
  destruct (stores w !! s) as [st|] eqn:Hst.
  - rewrite !(bind_eq _ _ _ _ _ (modify_store_eq _ _ _ _ Hst)).
    set (w1 := with_stores _ w).
    assert (Hst1 : stores w1 !! s = Some (set_currentState v st)).
    { subst w1. simpl. by eapply lookup_insert_at. }
    unfold notify. rewrite !(bind_eq _ _ _ _ _ (the_store_eq _ _ _ Hst1)).
    cbn [from_option set_currentState listeners currentState].
    rewrite (notify_cb_quiet user s (listeners st) v).
    + by rewrite drop_0.
    + intros i Hi. by eapply Hq.
    + unfold listeners_of. by rewrite Hst1.
    + unfold state_of. by rewrite Hst1.
    + lia.
  - assert (Hm : modify_store s (set_currentState v) w = (tt, w)).
    { unfold modify_store, modify. f_equal.
      assert (Ha : alter (set_currentState v) s (stores w) = stores w).
      { apply list_eq. intros j. destruct (decide (j = s)) as [->|Hne].
        - by rewrite list_lookup_alter_eq, Hst.
        - by rewrite list_lookup_alter_ne. }
      by rewrite Ha, with_stores_id. }
    rewrite !(bind_eq _ _ _ _ _ Hm). unfold notify, the_store, gets, bind.
    rewrite Hst. cbn [notify_cb from_option length]. unfold the_store, gets, bind.
    by rewrite Hst.
Qed.

(** The first [hydrate()] of a container whose listeners call nothing
    back, or whose storage does not answer at once. *)
Lemma hydrate_cb_quiet user w s st h :
  stores w !! s = Some st -> pristine st h ->
  (forall x, read_reply w h = Now x ->
             forall i, LUser i ∈ listeners st -> user i = ret (Some tt)) ->
  hydrate_cb user s w = (Some (eval (hydrate s) w), exec (hydrate s) w).
Proof.
  intros Hst Hpr Hq. pose proof Hpr as (Hp & Hm & Hu & Hl).
  unfold hydrate_cb, eval, exec. rewrite hydrate_eq.
  unfold method_of. rewrite Hst. cbn [mbind option_bind]. rewrite Hp.
  cbn [fmap option_fmap option_map]. rewrite Hm.
  rewrite (bind_eq _ _ _ _ _ (the_handler_eq _ _ _ _ Hst Hp)). rewrite Hm.
  unfold hydrate_first.
  rewrite !(bind_eq _ _ _ _ _ (initializeStorage_spec _ _ _ _ Hst Hp)).
  set (w1 := with_stores _ w).
  destruct (PersistHandler_getItem s w1) as [[v|p] w2] eqn:Hget.
  - (* the storage has answered *)
    rewrite !(bind_eq _ _ _ _ _ Hget).
    assert (Hw2 : stores w2 = stores w1).
    { clear Hq. revert Hget. unfold PersistHandler_getItem, PersistStorage_getItem,
        jsonPersistStorage_getItem, logWarningAndReturn, runImmediately, the_handler,
        the_store, gets, bind, emit, modify, alloc, ret.
      simpl. erewrite lookup_insert_at by done. simpl. rewrite Hp. simpl.
      destruct (resolved_storage w h) as [|b]; simpl.
      - erewrite lookup_insert_at by done. by intros [= _ <-].
      - destruct (backend_getItem b (key h)); simpl.
        + erewrite lookup_insert_at by done. by intros [= _ <-].
        + done. }
    assert (Hnow : exists x, read_reply w h = Now x).
    { clear Hq. revert Hget. unfold read_reply, PersistHandler_getItem, PersistStorage_getItem,
        jsonPersistStorage_getItem, logWarningAndReturn, runImmediately, the_handler,
        the_store, gets, bind, emit, modify, alloc, ret.
      simpl. erewrite lookup_insert_at by done. simpl. rewrite Hp. simpl.
      destruct (resolved_storage w h) as [|b]; simpl; [by exists None|].
      destruct (backend_getItem b (key h)) as [x|o]; simpl; [by exists x|].
      done. }
    destruct Hnow as [x Hx].
    assert (Hset : IgrisMaster_set_value_cb user s v w2
                   = (Some tt, exec (IgrisMaster_set_value s v) w2)).
    { apply set_value_cb_quiet. intros st2 i Hst2 Hi. apply (Hq x Hx i).
      rewrite Hw2 in Hst2. subst w1. simpl in Hst2.
      erewrite lookup_insert_at in Hst2 by done. injection Hst2 as <-.
      by destruct st. }
    unfold bind_ok at 1. unfold bind at 1.
    unfold bind_ok at 1. unfold bind at 1. rewrite Hset.
    unfold exec, bind, ret.
    destruct (IgrisMaster_set_value s v w2) as [[] w3]. cbn [fst snd].
    destruct (modify_handler s (set_hydrate_method (HydrateCached None)) w3) as [[] w4].
    destruct (subscribeStore s w4) as [[] w5].
    by destruct (hydrate_cached s w5).
  - (* the storage has returned a promise *)
    rewrite !(bind_eq _ _ _ _ _ Hget).
    unfold bind_ok, runImmediately, bind, ret.
    destruct (alloc (pending (AwaitHydrate s p)) w2) as [hp w3].
    destruct (modify_handler s (set_hydrate_method (HydrateCached (Some hp))) w3) as [[] w4].
    destruct (subscribeStore s w4) as [[] w5].
    by destruct (hydrate_cached s w5).
Qed.

(** ** A cached handle stays *)

Section keeps_cached.

Context (s : nat) (r : option pid).

Lemma keeps_cached_methods {A} (m : M A) : keeps_methods m -> keeps_cached s r m.
Proof. intros H w Hm. by rewrite H. Qed.

Lemma keeps_cached_leaves {A} (m : M A) : leaves_store s m -> keeps_cached s r m.
Proof. intros H w Hm. unfold method_of in *. by rewrite H. Qed.

Lemma keeps_cached_ret {A} (a : A) : keeps_cached s r (ret a).
Proof. by intros w Hm. Qed.

Lemma keeps_cached_gets {A} (f : World -> A) : keeps_cached s r (gets f).
Proof. by intros w Hm. Qed.

Lemma keeps_cached_alloc c : keeps_cached s r (alloc c).
Proof. by intros w Hm. Qed.

Lemma keeps_cached_modify f :
  (forall w, stores (f w) = stores w) -> keeps_cached s r (modify f).
Proof. intros Hf. apply keeps_cached_methods. by apply keeps_methods_modify. Qed.

Lemma keeps_cached_modify_store s' f :
  (forall st, hydrate_method <$> persist (f st) = hydrate_method <$> persist st) ->
  keeps_cached s r (modify_store s' f).
Proof. intros Hf. apply keeps_cached_methods. by apply keeps_methods_modify_store. Qed.

Lemma keeps_cached_modify_handler s' f :
  (forall h, hydrate_method (f h) = hydrate_method h) ->
  keeps_cached s r (modify_handler s' f).
Proof. intros Hf. apply keeps_cached_methods. by apply keeps_methods_modify_handler. Qed.

Lemma keeps_cached_modify_other s' f :
  s' <> s -> keeps_cached s r (modify_handler s' f).
Proof. intros Hne. apply keeps_cached_leaves. by apply leaves_store_modify_store. Qed.

Lemma keeps_cached_bind {A B} (m : M A) (k : A -> M B) :
  keeps_cached s r m -> (forall a, keeps_cached s r (k a)) -> keeps_cached s r (bind m k).
Proof.
  intros Hm Hk w H. unfold bind. specialize (Hm w H).
  destruct (m w) as [a w1]. simpl in *. by apply Hk.
Qed.

Lemma keeps_cached_bind_ok {A B} (m : M (option A)) (k : A -> M (option B)) :
  keeps_cached s r m -> (forall a, keeps_cached s r (k a)) ->
  keeps_cached s r (bind_ok m k).
Proof.
  intros Hm Hk. apply keeps_cached_bind; [done|].
  intros [a|]; [apply Hk|apply keeps_cached_ret].
Qed.

Lemma keeps_cached_forEach {A} (l : list A) (body : A -> M unit) :
  (forall x, keeps_cached s r (body x)) -> keeps_cached s r (forEach l body).
Proof.
  intros Hb. induction l as [|x l IH]; simpl; [apply keeps_cached_ret|].
  apply keeps_cached_bind; [apply Hb|]. intros _. apply IH.
Qed.

Ltac keeps_cached_step :=
  first
    [ solve [ auto 1 ]
    | apply keeps_cached_ret
    | apply keeps_cached_gets
    | apply keeps_cached_alloc
    | apply keeps_cached_bind; [ | intros ? ]
    | apply keeps_cached_bind_ok; [ | intros ? ]
    | apply keeps_cached_modify; intros ?; reflexivity
    | apply keeps_cached_modify_handler; intros ?; reflexivity
    | apply keeps_cached_modify_store; intros ?; simpl;
      repeat match goal with |- context [if ?x then _ else _] => destruct x end; reflexivity
    | apply keeps_cached_modify_other; assumption
    | apply keeps_cached_forEach; intros ?
    | match goal with
      | |- keeps_cached _ _ (match ?x with _ => _ end) => destruct x
      | |- keeps_cached _ _ (if ?x then _ else _) => destruct x
      | |- keeps_cached _ _ (let (_, _) := ?x in _) => destruct x
      end ].

Ltac keeps_cached_tac := repeat keeps_cached_step.

Lemma keeps_cached_emit e : keeps_cached s r (emit e).
Proof. unfold emit. keeps_cached_tac. Qed.

Lemma keeps_cached_setItem s' d : keeps_cached s r (PersistHandler_setItem s' d).
Proof. apply keeps_cached_methods, keeps_methods_setItem. Qed.

Lemma keeps_cached_set_value s' v : keeps_cached s r (IgrisMaster_set_value s' v).
Proof. apply keeps_cached_methods, keeps_methods_set_value. Qed.

Lemma keeps_cached_subscribeStore s' : keeps_cached s r (subscribeStore s').
Proof. apply keeps_cached_methods, keeps_methods_subscribeStore. Qed.

Lemma keeps_cached_initializeStorage s' : keeps_cached s r (initializeStorage s').
Proof. apply keeps_cached_methods, keeps_methods_initializeStorage. Qed.

Lemma keeps_cached_getItem s' : keeps_cached s r (PersistHandler_getItem s').
Proof. apply keeps_cached_methods, keeps_methods_getItem. Qed.

Lemma keeps_cached_hydrate_cached s' : keeps_cached s r (hydrate_cached s').
Proof. unfold hydrate_cached, the_handler. keeps_cached_tac. Qed.

(** [hydrate()] of the container itself returns the handle, and the one of
    another container does not touch it. *)
Lemma keeps_cached_hydrate s' : keeps_cached s r (hydrate s').
Proof.
  intros w Hm. destruct (decide (s' = s)) as [->|Hne].
  - by rewrite hydrate_eq, Hm.
  - unfold method_of in *. by rewrite leaves_store_hydrate.
Qed.

Lemma keeps_cached_get s' : keeps_cached s r (IgrisMaster_get s').
Proof.
  pose proof keeps_cached_hydrate.
  unfold IgrisMaster_get, initializeValue, the_store. keeps_cached_tac.
Qed.

Lemma keeps_cached_set s' a : keeps_cached s r (IgrisMaster_set s' a).
Proof.
  pose proof keeps_cached_get. pose proof keeps_cached_set_value.
  unfold IgrisMaster_set. keeps_cached_tac.
Qed.

Lemma keeps_cached_setupHydrator_loop ss cfg : keeps_cached s r (setupHydrator_loop ss cfg).
Proof.
  pose proof keeps_cached_hydrate.
  induction ss as [|s' ss IH]; cbn [setupHydrator_loop]; unfold the_handler;
    keeps_cached_tac.
Qed.

Lemma keeps_cached_setupHydrator ss cfg : keeps_cached s r (setupHydrator ss cfg).
Proof.
  pose proof keeps_cached_setupHydrator_loop.
  unfold setupHydrator, runImmediately. keeps_cached_tac.
Qed.

Lemma keeps_cached_getSnapshot g : keeps_cached s r (getSnapshot g).
Proof.
  pose proof keeps_cached_setupHydrator.
  unfold getSnapshot, runImmediately, modify_gate, the_gate. keeps_cached_tac.
Qed.

Lemma keeps_cached_render g : keeps_cached s r (render g).
Proof.
  pose proof keeps_cached_getSnapshot.
  unfold render, modify_gate. keeps_cached_tac.
Qed.

Lemma keeps_cached_run_job p : keeps_cached s r (run_job p).
Proof.
  pose proof keeps_cached_render. pose proof keeps_cached_set_value.
  pose proof keeps_cached_emit.
  unfold run_job, resume, onStoreChange, outcome, settle, modify_gate, the_store,
    the_handler.
  keeps_cached_tac.
Qed.

Lemma keeps_cached_tick : keeps_cached s r tick.
Proof.
  pose proof keeps_cached_emit.
  unfold tick, fire_due, run_callback, persistWrite, PersistStorage_setItem,
    jsonPersistStorage_setItem, logWarningAndReturn, the_handler.
  keeps_cached_tac.
Qed.

(** Whatever happens to a realm, where listeners only look at the state. *)
Lemma keeps_cached_step a : keeps_cached s r (step a).
Proof.
  pose proof keeps_cached_hydrate. pose proof keeps_cached_get.
  pose proof keeps_cached_set. pose proof keeps_cached_setItem.
  pose proof keeps_cached_setupHydrator. pose proof keeps_cached_render.
  pose proof keeps_cached_run_job. pose proof keeps_cached_tick.
  destruct a; cbn [step];
    unfold IgrisMaster_subscribe, IgrisMaster_unsubscribe, mount, subscribe,
      Promise_resolve, the_gate;
    keeps_cached_tac.
Qed.

(** *** With listeners that call back *)

Section user.

Context (user : nat -> M (option unit)).

Hypothesis Huser : forall id, keeps_cached s r (user id).

Lemma keeps_cached_notify_cb s' fuel i : keeps_cached s r (notify_cb user s' fuel i).
Proof using Huser.
  pose proof keeps_cached_emit. pose proof keeps_cached_setItem.
  revert i. induction fuel as [|fuel IH]; intros i; cbn [notify_cb];
    unfold call_listener_cb, the_store; keeps_cached_tac.
Qed.

Lemma keeps_cached_set_value_cb s' v :
  keeps_cached s r (IgrisMaster_set_value_cb user s' v).
Proof using Huser.
  pose proof keeps_cached_notify_cb.
  unfold IgrisMaster_set_value_cb, the_store. keeps_cached_tac.
Qed.

Lemma keeps_cached_hydrate_cb s' : keeps_cached s r (hydrate_cb user s').
Proof using Huser.
  destruct (decide (s' = s)) as [->|Hne].
  - intros w Hm. unfold hydrate_cb, bind, the_handler, gets.
    pose proof Hm as Hm'. unfold method_of in Hm'.
    destruct (stores w !! s ≫= persist) as [h|]; simpl in *; [|done].
    injection Hm' as ->. done.
  - pose proof keeps_cached_set_value_cb. pose proof keeps_cached_initializeStorage.
    pose proof keeps_cached_getItem. pose proof keeps_cached_subscribeStore.
    pose proof keeps_cached_hydrate_cached.
    unfold hydrate_cb, runImmediately, the_handler. keeps_cached_tac.
Qed.

Lemma keeps_cached_get_cb s' : keeps_cached s r (IgrisMaster_get_cb user s').
Proof using Huser.
  pose proof keeps_cached_hydrate_cb.
  unfold IgrisMaster_get_cb, initializeValue_cb, the_store. keeps_cached_tac.
Qed.

Lemma keeps_cached_set_cb s' a : keeps_cached s r (IgrisMaster_set_cb user s' a).
Proof using Huser.
  pose proof keeps_cached_get_cb. pose proof keeps_cached_set_value_cb.
  unfold IgrisMaster_set_cb. keeps_cached_tac.
Qed.

End user.

Lemma keeps_cached_calls invoke body :
  (forall c, keeps_cached s r (invoke c)) -> keeps_cached s r (calls invoke body).
Proof.
  intros H. induction body as [|c body IH]; cbn [calls]; keeps_cached_tac.
Qed.

Lemma keeps_cached_invoke behaviour depth c : keeps_cached s r (invoke behaviour depth c).
Proof.
  revert c. induction depth as [|depth IH]; intros c; cbn [invoke]; [apply keeps_cached_ret|].
  assert (Huser : forall id, keeps_cached s r
                    (calls (invoke behaviour depth) (behaviour id)))
    by (intros id; by apply keeps_cached_calls).
  pose proof (keeps_cached_get_cb _ Huser). pose proof (keeps_cached_set_cb _ Huser).
  pose proof (keeps_cached_hydrate_cb _ Huser).
  destruct c; keeps_cached_tac.
Qed.

Lemma keeps_cached_perform behaviour o : keeps_cached s r (perform behaviour o).
Proof.
  pose proof keeps_cached_step. pose proof (keeps_cached_invoke behaviour).
  destruct o; cbn [perform]; keeps_cached_tac.
Qed.

Lemma run_ops_cached behaviour ops w :
  method_of w s = Some (HydrateCached r) ->
  method_of (run_ops behaviour ops w) s = Some (HydrateCached r).
Proof.
  revert w. induction ops as [|o ops IH]; intros w Hm; [done|].
  unfold run_ops. cbn [fold_left]. apply IH. by apply keeps_cached_perform.
Qed.

End keeps_cached.

(** A call of [hydrate()] on a handler that has its handle. *)
Lemma hydrate_cb_cached user w s r :
  method_of w s = Some (HydrateCached r) -> hydrate_cb user s w = (Some r, w).
Proof.
  intros Hm. unfold hydrate_cb, bind, the_handler, gets. unfold method_of in Hm.
  destruct (stores w !! s ≫= persist) as [h|]; simpl in *; [|done].
  by injection Hm as ->.
Qed.

(** ** A listener that reads the container while it hydrates *)

Lemma initializeValue_cb_eq user w s st :
  stores w !! s = Some st ->
  initializeValue_cb user s w
  = bind_ok
      match persist st with
      | Some h => if skipHydrate (config h) then ret (Some tt)
                  else bind_ok (hydrate_cb user s) (fun _ => ret (Some tt))
      | None => ret (Some tt)
      end
      (fun _ =>
         modify_store s (set_fetchCurrentState FetchCurrent) >>>
         let* st := the_store s in
         ret (Some (from_option currentState JUndefined st))) w.
Proof.
  intros Hst. unfold initializeValue_cb.
  rewrite (bind_eq _ _ _ _ _ (the_store_eq _ _ _ Hst)).
  by destruct st as [? ? [?|] ?].
Qed.

Lemma get_cb_eq user w s st :
  stores w !! s = Some st ->
  IgrisMaster_get_cb user s w
  = match fetchCurrentState st with
    | FetchInitialize => initializeValue_cb user s w
    | FetchCurrent => (Some (currentState st), w)
    end.
Proof.
  intros Hst. unfold IgrisMaster_get_cb.
  rewrite (bind_eq _ _ _ _ _ (the_store_eq _ _ _ Hst)).
  by destruct (fetchCurrentState st).
Qed.

(** When the storage answers at once, the first listener is called before
    the method is replaced; if it throws, so does [hydrate()]. *)
Lemma hydrate_cb_throws user w s st h b r i ls w5 :
  stores w !! s = Some st -> persist st = Some h ->
  hydrate_method h = HydrateOriginal ->
  resolved_storage w h = jsonPersistStorage b ->
  backend_getItem b (key h) = Now r ->
  listeners st = LUser i :: ls ->
  let v := processStoredData (currentState st) (config h)
             (nullish_to_null (parseJSON (JSON_parse w) r)) in
  let st1 := set_currentState v (map_persist (set_storage (jsonPersistStorage b)) st) in
  let w4 := with_stores (<[s := st1]> (stores w))
              (with_trace (trace w ++ [BackendGet (key h); Notified s i v]) w) in
  user i w4 = (None, w5) ->
  hydrate_cb user s w = (None, w5).
Proof.
  intros Hst Hp Hm Hres Hg Hls v st1 w4 Huser. unfold hydrate_cb.
  rewrite (bind_eq _ _ _ _ _ (the_handler_eq _ _ _ _ Hst Hp)). rewrite Hm.
  rewrite (bind_eq _ _ _ _ _ (initializeStorage_spec _ _ _ _ Hst Hp)). rewrite Hres.
  set (w1 := with_stores _ w).
  assert (Hst1 : stores w1 !! s = Some (map_persist (set_storage (jsonPersistStorage b)) st)).
  { subst w1. simpl. by eapply lookup_insert_at. }
  assert (Hp1 : persist (map_persist (set_storage (jsonPersistStorage b)) st)
                = Some (set_storage (jsonPersistStorage b) h)) by (simpl; by rewrite Hp).
  rewrite (bind_eq _ _ _ _ _
             (getItem_sync_spec w1 s _ _ Hst1 Hp1 b r eq_refl Hg)).
  cbn [currentState map_persist config set_storage].
  change (JSON_parse w1) with (JSON_parse w). fold v.
  set (w2 := with_trace _ w1).
  assert (Hst2 : stores w2 !! s = Some (map_persist (set_storage (jsonPersistStorage b)) st))
    by exact Hst1.
  assert (Hset : IgrisMaster_set_value_cb user s v w2 = (None, w5)).
  { unfold IgrisMaster_set_value_cb.
    rewrite (bind_eq _ _ _ _ _ (modify_store_eq _ _ _ _ Hst2)).
    fold st1. set (w3 := with_stores _ w2).
    assert (Hst3 : stores w3 !! s = Some st1).
    { subst w3. simpl. by eapply lookup_insert_at. }
    rewrite (bind_eq _ _ _ _ _ (the_store_eq _ _ _ Hst3)).
    cbn [from_option length notify_cb].
    rewrite (bind_eq _ _ _ _ _ (the_store_eq _ _ _ Hst3)).
    assert (Hl0 : listeners st1 !! 0 = Some (LUser i)).
    { subst st1. simpl. by rewrite Hls. }
    rewrite Hl0. apply bind_ok_none.
    cbn [call_listener_cb]. unfold bind at 1, emit, modify.
    replace (with_trace _ w3) with w4; [done|].
    subst w4 w3 w2 w1 st1. apply world_ext; simpl; try reflexivity.
    - by rewrite list_insert_insert_eq.
    - by rewrite <- app_assoc. }
  apply bind_ok_none. by apply bind_ok_none.
Qed.

(** A container whose first listener reads it: while the method has not
    been replaced, every [get()] of the listener hydrates again, one read
    of the storage each time, until the stack is exhausted; the call of
    [hydrate()] throws. *)
Lemma hydrate_cb_rereads behaviour depth :
  forall w s st h b r i ls cs,
    stores w !! s = Some st -> persist st = Some h ->
    hydrate_method h = HydrateOriginal ->
    fetchCurrentState st = FetchInitialize -> skipHydrate (config h) = false ->
    resolved_storage w h = jsonPersistStorage b ->
    backend_getItem b (key h) = Now r ->
    listeners st = LUser i :: ls -> behaviour i = CallGet s :: cs ->
    exists w',
      hydrate_cb (listener behaviour depth) s w = (None, w') /\
      count is_storage_read (trace w')
      = count is_storage_read (trace w) + S depth /\
      method_of w' s = Some HydrateOriginal.
Proof.
  induction depth as [|depth IH];
    intros w s st h b r i ls cs Hst Hp Hm Hf Hskip Hres Hg Hls Hbeh.
  - eexists. split; [|split].
    + eapply hydrate_cb_throws; try done.
      unfold listener. rewrite Hbeh. reflexivity.
    + simpl. rewrite count_app, !count_cons. simpl. unfold count. simpl. lia.
    + unfold method_of. simpl. erewrite lookup_insert_at by done. simpl.
      rewrite Hp. simpl. by rewrite Hm.
  - set (v := processStoredData (currentState st) (config h)
                (nullish_to_null (parseJSON (JSON_parse w) r))).
    set (st1 := set_currentState v (map_persist (set_storage (jsonPersistStorage b)) st)).
    set (w4 := with_stores (<[s := st1]> (stores w))
                 (with_trace (trace w ++ [BackendGet (key h); Notified s i v]) w)).
    assert (Hst4 : stores w4 !! s = Some st1).
    { subst w4. simpl. by eapply lookup_insert_at. }
    assert (Hp4 : persist st1 = Some (set_storage (jsonPersistStorage b) h)).
    { subst st1. simpl. by rewrite Hp. }
    assert (Hres4 : resolved_storage w4 (set_storage (jsonPersistStorage b) h)
                    = jsonPersistStorage b).
    { revert Hres. unfold resolved_storage. simpl.
      by destruct (createJSONStorage _). }
    destruct (IH w4 s st1 _ b r i ls cs Hst4 Hp4 Hm Hf Hskip Hres4 Hg Hls Hbeh)
      as (w' & Hin & Hcount & Hmethod).
    exists w'. split; [|split; [|exact Hmethod]].
    + eapply hydrate_cb_throws; try done. fold v. fold st1. fold w4.
      unfold listener. rewrite Hbeh. cbn [calls invoke].
      apply bind_ok_none. apply bind_ok_none.
      rewrite (get_cb_eq _ _ _ _ Hst4).
      replace (fetchCurrentState st1) with FetchInitialize by (by rewrite <- Hf).
      rewrite (initializeValue_cb_eq _ _ _ _ Hst4). rewrite Hp4.
      cbn [config set_storage]. rewrite Hskip.
      apply bind_ok_none. apply bind_ok_none. exact Hin.
    + rewrite Hcount. subst w4. simpl. rewrite count_app, !count_cons. simpl.
      unfold count at 2. simpl. lia.
Qed.

(** ** [get] and [set] with listeners that call nothing back *)

Lemma get_cb_quiet user w s st h :
  stores w !! s = Some st -> pristine st h ->
  (forall x, read_reply w h = Now x ->
             forall i, LUser i ∈ listeners st -> user i = ret (Some tt)) ->
  IgrisMaster_get_cb user s w
  = (Some (eval (IgrisMaster_get s) w), exec (IgrisMaster_get s) w).
Proof.
  intros Hst Hpr Hq. pose proof Hpr as (Hp & _).
  unfold eval, exec. rewrite (get_cb_eq _ _ _ _ Hst), (get_eq _ _ _ Hst).
  destruct (fetchCurrentState st); [|done].
  rewrite (initializeValue_cb_eq _ _ _ _ Hst), (initializeValue_eq _ _ _ Hst). rewrite Hp.
  destruct (skipHydrate (config h)).
  - unfold bind_ok, bind, ret.
    destruct (modify_store s (set_fetchCurrentState FetchCurrent) w) as [[] w1].
    by destruct (the_store s w1).
  - unfold bind_ok at 1. unfold bind at 1. unfold bind_ok at 1. unfold bind at 1.
    rewrite (hydrate_cb_quiet user w s st h Hst Hpr Hq).
    unfold eval, exec, bind, ret. destruct (hydrate s w) as [r0 w1]. cbn [fst snd].
    destruct (modify_store s (set_fetchCurrentState FetchCurrent) w1) as [[] w2].
    by destruct (the_store s w2).
Qed.

Lemma hydrate_times_method n w s r :
  method_of w s = Some (HydrateCached r) -> hydrate_times n s w = (replicate n r, w).
Proof.
  intros Hm. induction n as [|n IH]; simpl; [done|].
  assert (Hh : hydrate s w = (r, w)) by (by rewrite hydrate_eq, Hm).
  by rewrite (bind_eq _ _ _ _ _ Hh), (bind_eq _ _ _ _ _ IH).
Qed.

(** ** Claim C1 *)




(** ** The first [get()] *)

(** X8. Hydration is lazy: the first [get()] of a persisted container runs
    [hydrate()]. When the storage answers at once and the listeners
    subscribed to the container call nothing back while they are notified,
    that [get()] returns the hydrated state, having read the storage once; a
    second [get()] returns the same state and does nothing; and
    [set(updater)] as the first access applies the updater to the hydrated
    state. *)
Theorem get_hydrates_once (behaviour : nat -> list Call) (depth : nat)
    (w : World) (s : nat) (st : IgrisMaster)
    (h : PersistHandler) (r : option string) (f : JS -> JS) :
  stores w !! s = Some st -> pristine st h ->
  fetchCurrentState st = FetchInitialize -> skipHydrate (config h) = false ->
  read_reply w h = Now r ->
  (forall i, LUser i ∈ listeners st -> behaviour i = []) ->
  let get := IgrisMaster_get_cb (listener behaviour depth) s in
  let v := hydration_value w st h in
  let w' := exec get w in
  eval get w = Some v /\
  state_of w' s = Some v /\
  method_of w' s = Some (HydrateCached None) /\
  count is_storage_read (trace w') = count is_storage_read (trace w) + 1 /\
  get w' = (Some v, w') /\
  state_of (exec (IgrisMaster_set_cb (listener behaviour depth) s (Updater f)) w) s
  = Some (f v).
Proof.
  intros Hst Hpr Hf Hskip Hr Hq get v w'.
  assert (Hquiet : forall i, LUser i ∈ listeners st ->
                             listener behaviour depth i = ret (Some tt)).
  { intros i Hi. unfold listener. by rewrite (Hq i Hi). }
  destruct (get_once_observed w s st h r f Hst Hpr Hf Hskip Hr)
    as (H1 & H2 & H3 & H4 & H5 & H6).
  fold v in H1, H2, H5, H6.
  assert (Hget : get w = (Some v, exec (IgrisMaster_get s) w)).
  { subst get. rewrite (get_cb_quiet _ w s st h Hst Hpr) by (intros; by apply Hquiet).
    by rewrite H1. }
  assert (Hw' : w' = exec (IgrisMaster_get s) w).
  { subst w'. unfold exec at 1. by rewrite Hget. }
  destruct (get_first_sync w s st h r Hst Hpr Hf Hskip Hr) as (e & _ & Hfirst).
  fold v in Hfirst.
  assert (Hst' : stores w' !! s
                 = Some (set_fetchCurrentState FetchCurrent
                           (hydrated_store st h (resolved_storage w h) None v))).
  { rewrite Hw'. unfold exec. rewrite Hfirst. simpl. by eapply lookup_insert_at. }
  split; [by unfold eval; rewrite Hget|].
  rewrite Hw'. split; [done|]. split; [done|]. split; [done|]. split.
  - rewrite <- Hw'. subst get. by rewrite (get_cb_eq _ _ _ _ Hst').
  - cbn [IgrisMaster_set_cb]. fold get. unfold exec at 1.
    rewrite (bind_ok_some _ _ _ _ _ Hget). fold w'. rewrite <- Hw'.
    rewrite set_value_cb_quiet.
    + cbn [snd]. revert H6. unfold exec. cbn [IgrisMaster_set].
      assert (Hinert : IgrisMaster_get s w = (v, w')).
      { rewrite Hw'. unfold exec. by rewrite Hfirst. }
      by rewrite (bind_eq _ _ _ _ _ Hinert).
    + intros st2 i Hst2 Hi. rewrite Hst' in Hst2. injection Hst2 as <-.
      simpl in Hi. apply elem_of_app in Hi as [Hi|Hi]; [by apply Hquiet|].
      by apply list_elem_of_singleton in Hi.
Qed.

Lemma get_hydrates_once_witness :
  let p := Some (StorageInstance (sync_backend (Some "{value:{count:5},version:0}"))) in
  let w := sample_world p in
  let f := fun prev => JObj (<["seen" := JBool true]> (own_props prev)) in
  let behaviour := one_quiet_listener in
  stores w !! 0 = Some (sample_store p) /\ pristine (sample_store p) (sample_handler p) /\
  fetchCurrentState (sample_store p) = FetchInitialize /\
  skipHydrate (config (sample_handler p)) = false /\
  read_reply w (sample_handler p) = Now (Some "{value:{count:5},version:0}") /\
  (forall i, LUser i ∈ listeners (sample_store p) -> behaviour i = []) /\
  let get := IgrisMaster_get_cb (listener behaviour 2) 0 in
  let v := hydration_value w (sample_store p) (sample_handler p) in
  let w' := exec get w in
  eval get w = Some v /\
  state_of w' 0 = Some v /\
  method_of w' 0 = Some (HydrateCached None) /\
  count is_storage_read (trace w') = count is_storage_read (trace w) + 1 /\
  get w' = (Some v, w') /\
  state_of (exec (IgrisMaster_set_cb (listener behaviour 2) 0 (Updater f)) w) 0
  = Some (f v).
Proof.
  intros p w f behaviour.
  assert (H1 : stores w !! 0 = Some (sample_store p)) by reflexivity.
  assert (H2 : pristine (sample_store p) (sample_handler p)).
  { repeat split; try reflexivity. simpl. apply not_elem_of_cons.
    split; [discriminate | apply not_elem_of_nil]. }
  assert (H3 : fetchCurrentState (sample_store p) = FetchInitialize) by reflexivity.
  assert (H4 : skipHydrate (config (sample_handler p)) = false) by reflexivity.
  assert (H5 : read_reply w (sample_handler p) = Now (Some "{value:{count:5},version:0}"))
    by reflexivity.
  assert (H6 : forall i, LUser i ∈ listeners (sample_store p) -> behaviour i = []).
  { intros i Hi. apply list_elem_of_singleton in Hi. by injection Hi as ->. }
  split; [exact H1|]. split; [exact H2|]. split; [exact H3|]. split; [exact H4|].
  split; [exact H5|]. split; [exact H6|].
  exact (get_hydrates_once behaviour 2 w 0 (sample_store p) (sample_handler p) _ f
           H1 H2 H3 H4 H5 H6).
Defined.
